(** * Spatial audio synthesis: distance-to-audio mapping and track scheduling

    A shallow embedding of the TypeScript front end
    ([EnhancedAudioSynthesisService.ts], [AudioSynthesisService.ts] and the
    volume mapping of [ProfessionalApp.tsx]) together with a model of the
    minimum-area-triangle trilateration solver.

    Numbers.  A JavaScript [number] is modelled by a real number: the
    development reasons about the formulas the code computes, not about
    IEEE-754 rounding, [NaN] or infinities.  [Math.max], [Math.min],
    [Math.exp], [Math.log], [Math.log10] and [Math.round] are the real
    functions of the same name.  Two places of the code leave the real
    numbers.  The distance mappings divide, by [maxDistance - minDistance]
    in the enhanced service and by [maxDistance] in the basic one: where
    the divisor is zero the code computes [NaN], which no real number
    stands for, and the statements about these quotients assume a divisor
    other than zero.  The guard of [setDistanceRange] adds 1 to a double:
    module [Float64] embeds it, and the normalization, over binary64
    floats, and the runs on which the real sum agrees with the double one
    are singled out in module [EnhancedProperRuns].

    State.  The services are classes with mutable fields; every method is a
    function from the state before the call to the state after it.  The
    [Map<string, AudioTrack>] of a service is a [gmap string AudioTrack]. *)

From Stdlib Require Import Reals Lra Lia ZArith.
From Stdlib Require PrimFloat.
From stdpp Require Import gmap strings.

Local Open Scope R_scope.

(** ** The [Math] functions used by the code *)

Module JS.

Definition Math_max (a b : R) : R := Rmax a b.
Definition Math_min (a b : R) : R := Rmin a b.
Definition Math_exp (x : R) : R := exp x.
Definition Math_log (x : R) : R := ln x.
Definition Math_log10 (x : R) : R := ln x / ln 10.

(** [Math.round] rounds to the nearest integer, halves upwards. *)
Definition Math_round (x : R) : R := IZR (Zfloor (x + / 2)).

(** [a > b] and [a === b] on numbers, as booleans. *)
Definition gt (a b : R) : bool := if Rlt_dec b a then true else false.
Definition le (a b : R) : bool := if Rle_dec a b then true else false.
Definition ge (a b : R) : bool := if Rle_dec b a then true else false.
Definition strict_eq (a b : R) : bool := if Req_dec_T a b then true else false.

End JS.

(** ** [EnhancedAudioSynthesisService.ts] *)

Module Enhanced.
Import JS.

(** [AudioSource].  The interface has a [type] tag, ['oscillator'] or
    ['audio'], with optional [frequency] and [file] fields; the code reads
    [frequency!] for an oscillator and tests [file] for an audio source, so
    the tag carries the field it goes with. *)
Inductive AudioSourceType : Type :=
| type_oscillator (frequency : R)
| type_audio (file : option string).

Record AudioSource : Type := mkAudioSource {
  id : string;
  name : string;
  type : AudioSourceType;
  category : option string
}.

Record DistanceEffects : Type := mkDistanceEffects {
  enabled : bool;
  pitchEffect : bool;
  filterEffect : bool;
  reverbEffect : bool;
  pitchRange : R;
  filterRange : R;
  reverbRange : R
}.

(** [Partial<DistanceEffects>]: every field may be absent. *)
Record PartialDistanceEffects : Type := mkPartialDistanceEffects {
  p_enabled : option bool;
  p_pitchEffect : option bool;
  p_filterEffect : option bool;
  p_reverbEffect : option bool;
  p_pitchRange : option R;
  p_filterRange : option R;
  p_reverbRange : option R
}.

(** Web Audio nodes, reduced to the parameters the service writes. *)
Record OscillatorNode : Type := mkOscillatorNode { osc_frequency : R }.
Record AudioBufferSourceNode : Type := mkAudioBufferSourceNode {
  buffer : string;
  loop : bool;
  playbackRate : R
}.
Record GainNode : Type := mkGainNode { gain : R }.
Record BiquadFilterNode : Type := mkBiquadFilterNode { filter_frequency : R }.
Record DelayNode : Type := mkDelayNode { delayTime : R }.

Record AudioTrack : Type := mkAudioTrack {
  deviceId : string;
  deviceName : string;
  audioSource : AudioSource;
  volume : R;
  nodeVolume : R;
  pitch : R;
  reverb : R;
  filter : R;
  distancePitch : R;
  distanceFilter : R;
  distanceReverb : R;
  playing : bool;
  oscillator : option OscillatorNode;
  audioSourceNode : option AudioBufferSourceNode;
  gainNode : option GainNode;
  filterNode : option BiquadFilterNode;
  reverbNode : option DelayNode
}.

Inductive VolumeCurve : Type :=
| inverse_square
| exponential
| logarithmic
| linear.

(** The fields of the class.  [audioContext] is [true] when the context
    exists and [false] when it is [null]; [audioBuffers] keeps the names of
    the files already decoded. *)
Record Service : Type := mkService {
  audioContext : bool;
  audioTracks : gmap string AudioTrack;
  audioBuffers : gset string;
  globalVolume : R;
  maxVolumeLimit : R;
  maxDistance : R;
  minDistance : R;
  volumeCurve : VolumeCurve;
  distanceEffects : DistanceEffects
}.

Definition defaultDistanceEffects : DistanceEffects :=
  {| enabled := true; pitchEffect := true; filterEffect := true;
     reverbEffect := true; pitchRange := 3 / 10; filterRange := 7 / 10;
     reverbRange := 4 / 10 |}.

(** The state after the constructor; [ctx] tells whether creating the
    [AudioContext] succeeded. *)
Definition new (ctx : bool) : Service :=
  {| audioContext := ctx;
     audioTracks := ∅;
     audioBuffers := ∅;
     globalVolume := 7 / 10;
     maxVolumeLimit := 8 / 10;
     maxDistance := 200;
     minDistance := 5;
     volumeCurve := inverse_square;
     distanceEffects := defaultDistanceEffects |}.

(** *** Field updates *)

Definition with_audioTracks (m : gmap string AudioTrack) (s : Service) : Service :=
  {| audioContext := audioContext s; audioTracks := m;
     audioBuffers := audioBuffers s; globalVolume := globalVolume s;
     maxVolumeLimit := maxVolumeLimit s; maxDistance := maxDistance s;
     minDistance := minDistance s; volumeCurve := volumeCurve s;
     distanceEffects := distanceEffects s |}.

(** *** Configuration setters *)

Definition setVolumeCurve (curve : VolumeCurve) (s : Service) : Service :=
  {| audioContext := audioContext s; audioTracks := audioTracks s;
     audioBuffers := audioBuffers s; globalVolume := globalVolume s;
     maxVolumeLimit := maxVolumeLimit s; maxDistance := maxDistance s;
     minDistance := minDistance s; volumeCurve := curve;
     distanceEffects := distanceEffects s |}.

(** The sum [minDistance' + 1] is the exact one.  The code adds doubles:
    its sum is above [minDistance'] below 2^53 and may be [minDistance']
    itself from there on ([Float64.setDistanceRange]). *)
Definition setDistanceRange (minD maxD : R) (s : Service) : Service :=
  let minDistance' := Math_max 0 minD in
  let maxDistance' := Math_max (minDistance' + 1) maxD in
  {| audioContext := audioContext s; audioTracks := audioTracks s;
     audioBuffers := audioBuffers s; globalVolume := globalVolume s;
     maxVolumeLimit := maxVolumeLimit s; maxDistance := maxDistance';
     minDistance := minDistance'; volumeCurve := volumeCurve s;
     distanceEffects := distanceEffects s |}.

Definition setVolumeLimit (limit : R) (s : Service) : Service :=
  {| audioContext := audioContext s; audioTracks := audioTracks s;
     audioBuffers := audioBuffers s; globalVolume := globalVolume s;
     maxVolumeLimit := Math_max (1 / 10) (Math_min 1 limit);
     maxDistance := maxDistance s; minDistance := minDistance s;
     volumeCurve := volumeCurve s; distanceEffects := distanceEffects s |}.

(** [{ ...this.distanceEffects, ...effects }] *)
Definition spread (old : DistanceEffects) (effects : PartialDistanceEffects)
  : DistanceEffects :=
  {| enabled := default (enabled old) (p_enabled effects);
     pitchEffect := default (pitchEffect old) (p_pitchEffect effects);
     filterEffect := default (filterEffect old) (p_filterEffect effects);
     reverbEffect := default (reverbEffect old) (p_reverbEffect effects);
     pitchRange := default (pitchRange old) (p_pitchRange effects);
     filterRange := default (filterRange old) (p_filterRange effects);
     reverbRange := default (reverbRange old) (p_reverbRange effects) |}.

Definition setDistanceEffects (effects : PartialDistanceEffects) (s : Service)
  : Service :=
  {| audioContext := audioContext s; audioTracks := audioTracks s;
     audioBuffers := audioBuffers s; globalVolume := globalVolume s;
     maxVolumeLimit := maxVolumeLimit s; maxDistance := maxDistance s;
     minDistance := minDistance s; volumeCurve := volumeCurve s;
     distanceEffects := spread (distanceEffects s) effects |}.

(** *** The distance mapping *)

(** [normalizedDistance] of [calculateVolumeFromDistance] and of
    [calculateDistanceEffects].  The quotient is the code's when
    [maxDistance] differs from [minDistance]; for a range of width zero
    the code computes [0 / 0 = NaN] ([Float64.normalizedDistance]), and
    what the division of the reals gives there means nothing. *)
Definition normalizedDistance (s : Service) (distance : R) : R :=
  let clampedDistance :=
    Math_max (minDistance s) (Math_min (maxDistance s) distance) in
  (clampedDistance - minDistance s) / (maxDistance s - minDistance s).

(** The [switch] on the curve: [volumeRatio] as a function of the
    normalized distance. *)
Definition volumeRatio (curve : VolumeCurve) (normalized : R) : R :=
  match curve with
  | inverse_square =>
      let effectiveDistance := normalized * (9 / 10) + 1 / 10 in
      let volumeRatio := 1 / (effectiveDistance * effectiveDistance) in
      Math_min 1 (volumeRatio / 100)
  | exponential =>
      let decayConstant := 4 in
      Math_exp (- decayConstant * normalized)
  | logarithmic =>
      Math_max 0 (1 - Math_log10 (normalized * 9 + 1))
  | linear =>
      1 - normalized
  end.

Definition calculateVolumeFromDistance (s : Service) (distance : R) : R :=
  let volumeRatio := volumeRatio (volumeCurve s) (normalizedDistance s distance) in
  Math_max 0 (Math_min 1 volumeRatio) * maxVolumeLimit s.

Record Effects : Type := mkEffects {
  e_pitch : R;
  e_filter : R;
  e_reverb : R
}.

Definition calculateDistanceEffects (s : Service) (distance : R) : Effects :=
  let fx := distanceEffects s in
  if negb (enabled fx) then
    {| e_pitch := 1; e_filter := 1; e_reverb := 0 |}
  else
    let normalizedDistance := normalizedDistance s distance in
    let pitch :=
      if pitchEffect fx then
        let pitch := 1 + (1 - normalizedDistance) * pitchRange fx * (1 / 2)
                     - pitchRange fx * (1 / 4) in
        Math_max (1 / 2) (Math_min 2 pitch)
      else 1 in
    let filter :=
      if filterEffect fx then
        let filter := 3 / 10 + (1 - normalizedDistance) * filterRange fx in
        Math_max (1 / 10) (Math_min 1 filter)
      else 1 in
    let reverb :=
      if reverbEffect fx then
        let reverb := normalizedDistance * reverbRange fx in
        Math_max 0 (Math_min (8 / 10) reverb)
      else 0 in
    {| e_pitch := pitch; e_filter := filter; e_reverb := reverb |}.

(** *** Track updates *)

Definition with_distance (newVolume : R) (effects : Effects) (t : AudioTrack)
  : AudioTrack :=
  {| deviceId := deviceId t; deviceName := deviceName t;
     audioSource := audioSource t;
     volume := newVolume;
     nodeVolume := nodeVolume t; pitch := pitch t; reverb := reverb t;
     filter := filter t;
     distancePitch := e_pitch effects;
     distanceFilter := e_filter effects;
     distanceReverb := e_reverb effects;
     playing := playing t;
     oscillator := oscillator t; audioSourceNode := audioSourceNode t;
     gainNode := gainNode t; filterNode := filterNode t;
     reverbNode := reverbNode t |}.

Definition with_controls (nodeVolume' pitch' reverb' filter' : R) (t : AudioTrack)
  : AudioTrack :=
  {| deviceId := deviceId t; deviceName := deviceName t;
     audioSource := audioSource t; volume := volume t;
     nodeVolume := nodeVolume'; pitch := pitch'; reverb := reverb';
     filter := filter';
     distancePitch := distancePitch t; distanceFilter := distanceFilter t;
     distanceReverb := distanceReverb t; playing := playing t;
     oscillator := oscillator t; audioSourceNode := audioSourceNode t;
     gainNode := gainNode t; filterNode := filterNode t;
     reverbNode := reverbNode t |}.

Definition with_playing (b : bool) (t : AudioTrack) : AudioTrack :=
  {| deviceId := deviceId t; deviceName := deviceName t;
     audioSource := audioSource t; volume := volume t;
     nodeVolume := nodeVolume t; pitch := pitch t; reverb := reverb t;
     filter := filter t;
     distancePitch := distancePitch t; distanceFilter := distanceFilter t;
     distanceReverb := distanceReverb t; playing := b;
     oscillator := oscillator t; audioSourceNode := audioSourceNode t;
     gainNode := gainNode t; filterNode := filterNode t;
     reverbNode := reverbNode t |}.

Definition with_nodes (osc : option OscillatorNode)
    (src : option AudioBufferSourceNode) (g : option GainNode)
    (f : option BiquadFilterNode) (r : option DelayNode) (t : AudioTrack)
  : AudioTrack :=
  {| deviceId := deviceId t; deviceName := deviceName t;
     audioSource := audioSource t; volume := volume t;
     nodeVolume := nodeVolume t; pitch := pitch t; reverb := reverb t;
     filter := filter t;
     distancePitch := distancePitch t; distanceFilter := distanceFilter t;
     distanceReverb := distanceReverb t; playing := playing t;
     oscillator := osc; audioSourceNode := src;
     gainNode := g; filterNode := f; reverbNode := r |}.

(** [setAudioTrack]: the track a device starts with. *)
Definition newTrack (deviceId deviceName : string) (audioSource : AudioSource)
  : AudioTrack :=
  {| deviceId := deviceId; deviceName := deviceName;
     audioSource := audioSource;
     volume := 0; nodeVolume := 7 / 10; pitch := 1; reverb := 2 / 10;
     filter := 1;
     distancePitch := 1; distanceFilter := 1; distanceReverb := 0;
     playing := false;
     oscillator := None; audioSourceNode := None; gainNode := None;
     filterNode := None; reverbNode := None |}.

(** *** Playback *)

(** [updateAudioTrack]: every [setValueAtTime (v, currentTime)] takes
    effect at once, so the parameter of the node becomes [v].  The
    oscillator branch reads [track.audioSource.frequency!]; an oscillator
    node is only ever created for an oscillator source, and the model
    leaves the node alone in the other case. *)
Definition updateAudioTrack (s : Service) (track : AudioTrack) : AudioTrack :=
  if negb (playing track) || negb (audioContext s) then track
  else
    let combinedVolume := volume track * nodeVolume track * globalVolume s in
    let combinedPitch := pitch track * distancePitch track in
    let combinedFilter := filter track * distanceFilter track in
    let combinedReverb :=
      Math_min (1 / 2) (reverb track + distanceReverb track) in
    with_nodes
      (match oscillator track, type (audioSource track) with
       | Some _, type_oscillator frequency =>
           Some {| osc_frequency := frequency * combinedPitch |}
       | node, _ => node
       end)
      (match audioSourceNode track with
       | Some node =>
           Some {| buffer := buffer node; loop := loop node;
                   playbackRate := combinedPitch |}
       | None => None
       end)
      (match gainNode track with
       | Some _ => Some {| gain := combinedVolume |}
       | None => None
       end)
      (match filterNode track with
       | Some _ => Some {| filter_frequency := 22050 * combinedFilter |}
       | None => None
       end)
      (match reverbNode track with
       | Some _ => Some {| delayTime := 3 / 100 + combinedReverb * (1 / 10) |}
       | None => None
       end)
      track.

(** [startAudioTrack], from "Create audio processing chain" to the end of
    the [try] block. *)
Definition startAudioTrack_chain (s : Service) (track : AudioTrack) : AudioTrack :=
  let track1 :=
    with_nodes (oscillator track) (audioSourceNode track)
      (Some {| gain := 1 |})
      (Some {| filter_frequency :=
                 22050 * filter track * distanceFilter track |})
      (Some {| delayTime :=
                 3 / 100 + (reverb track + distanceReverb track) * (1 / 10) |})
      track in
  match oscillator track1, audioSourceNode track1 with
  | None, None => track1
  | _, _ => updateAudioTrack s (with_playing true track1)
  end.

(** [track.audioSource.file] as a condition: [undefined] and the empty
    string are falsy. *)
Definition truthy (file : option string) : option string :=
  match file with
  | Some f => if decide (f = EmptyString) then None else Some f
  | None => None
  end.

(** [startAudioTrack] is [async]: a call runs up to its first [await].
    For an oscillator source, and for an audio source without a file,
    there is none and the whole body runs in the call.  For an audio
    source with a file the call stops at [await this.loadAudioFile (...)]
    and has changed nothing yet; [startAudioTrack_loaded] is what happens
    to the track when the file has been decoded (nothing when the context
    has been closed in between: creating the source node fails and the
    [catch] block is entered). *)
Definition startAudioTrack (deviceId : string) (s : Service) : Service :=
  match audioTracks s !! deviceId with
  | None => s
  | Some track =>
      if playing track || negb (audioContext s) then s
      else
        match type (audioSource track) with
        | type_oscillator frequency =>
            let track' :=
              with_nodes
                (Some {| osc_frequency :=
                           frequency * pitch track * distancePitch track |})
                (audioSourceNode track) (gainNode track) (filterNode track)
                (reverbNode track) track in
            with_audioTracks
              (<[deviceId := startAudioTrack_chain s track']> (audioTracks s)) s
        | type_audio file =>
            match truthy file with
            | Some _ => s
            | None =>
                with_audioTracks
                  (<[deviceId := startAudioTrack_chain s track]> (audioTracks s)) s
            end
        end
  end.

Definition startAudioTrack_loaded (s : Service) (file : string)
    (track : AudioTrack) : AudioTrack :=
  if negb (audioContext s) then track
  else
  let track' :=
    with_nodes (oscillator track)
      (Some {| buffer := file; loop := true;
               playbackRate := pitch track * distancePitch track |})
      (gainNode track) (filterNode track) (reverbNode track) track in
  startAudioTrack_chain s track'.

(** [stopAudioTrack], the body of its [try] block: every node is stopped,
    disconnected and dropped, then [playing] is cleared. *)
Definition stopped (track : AudioTrack) : AudioTrack :=
  with_playing false (with_nodes None None None None None track).

Definition stopAudioTrack (deviceId : string) (s : Service) : Service :=
  match audioTracks s !! deviceId with
  | None => s
  | Some track =>
      if negb (playing track) then s
      else with_audioTracks (<[deviceId := stopped track]> (audioTracks s)) s
  end.

(** [setAudioTrack] is [async] without an [await]: it runs in the call. *)
Definition setAudioTrack (deviceId deviceName : string)
    (audioSource : AudioSource) (s : Service) : Service :=
  let s1 :=
    if decide (is_Some (audioTracks s !! deviceId))
    then stopAudioTrack deviceId s else s in
  with_audioTracks
    (<[deviceId := newTrack deviceId deviceName audioSource]> (audioTracks s1))
    s1.

Definition updateSensorDistance (deviceId : string) (distance : R)
    (s : Service) : Service :=
  match audioTracks s !! deviceId with
  | None => s
  | Some track =>
      let newVolume := calculateVolumeFromDistance s distance in
      let effects := calculateDistanceEffects s distance in
      let track1 := with_distance newVolume effects track in
      let track2 :=
        if playing track1 then updateAudioTrack s track1 else track1 in
      let s2 := with_audioTracks (<[deviceId := track2]> (audioTracks s)) s in
      if gt newVolume 0 && negb (playing track2) then
        startAudioTrack deviceId s2
      else if strict_eq newVolume 0 && playing track2 then
        stopAudioTrack deviceId s2
      else s2
  end.

(** *** User controls *)

Definition setTrackControl (change : AudioTrack -> AudioTrack)
    (deviceId : string) (s : Service) : Service :=
  match audioTracks s !! deviceId with
  | Some track =>
      let track1 := change track in
      let track2 :=
        if playing track1 then updateAudioTrack s track1 else track1 in
      with_audioTracks (<[deviceId := track2]> (audioTracks s)) s
  | None => s
  end.

Definition setTrackVolume (deviceId : string) (volume : R) : Service -> Service :=
  setTrackControl
    (fun t => with_controls (Math_max 0 (Math_min 1 volume)) (pitch t)
                (reverb t) (filter t) t)
    deviceId.

Definition setTrackPitch (deviceId : string) (pitch' : R) : Service -> Service :=
  setTrackControl
    (fun t => with_controls (nodeVolume t) (Math_max (1 / 2) (Math_min 2 pitch'))
                (reverb t) (filter t) t)
    deviceId.

Definition setTrackReverb (deviceId : string) (reverb' : R) : Service -> Service :=
  setTrackControl
    (fun t => with_controls (nodeVolume t) (pitch t)
                (Math_max 0 (Math_min 1 reverb')) (filter t) t)
    deviceId.

Definition setTrackFilter (deviceId : string) (filter' : R) : Service -> Service :=
  setTrackControl
    (fun t => with_controls (nodeVolume t) (pitch t) (reverb t)
                (Math_max (1 / 10) (Math_min 1 filter')) t)
    deviceId.

Definition setGlobalVolume (volume : R) (s : Service) : Service :=
  let s1 :=
    {| audioContext := audioContext s; audioTracks := audioTracks s;
       audioBuffers := audioBuffers s;
       globalVolume := Math_max 0 (Math_min 1 volume);
       maxVolumeLimit := maxVolumeLimit s; maxDistance := maxDistance s;
       minDistance := minDistance s; volumeCurve := volumeCurve s;
       distanceEffects := distanceEffects s |} in
  with_audioTracks
    ((fun track => if playing track then updateAudioTrack s1 track else track)
       <$> audioTracks s1)
    s1.

Definition removeAudioTrack (deviceId : string) (s : Service) : Service :=
  let s1 := stopAudioTrack deviceId s in
  with_audioTracks (delete deviceId (audioTracks s1)) s1.

(** [dispose] removes every track and closes the context. *)
Definition dispose (s : Service) : Service :=
  {| audioContext := false; audioTracks := ∅;
     audioBuffers := audioBuffers s; globalVolume := globalVolume s;
     maxVolumeLimit := maxVolumeLimit s; maxDistance := maxDistance s;
     minDistance := minDistance s; volumeCurve := volumeCurve s;
     distanceEffects := distanceEffects s |}.

(** *** Sequences of calls *)

Inductive Call : Type :=
| CsetVolumeCurve (curve : VolumeCurve)
| CsetDistanceRange (minDistance maxDistance : R)
| CsetVolumeLimit (limit : R)
| CsetGlobalVolume (volume : R)
| CsetDistanceEffects (effects : PartialDistanceEffects)
| CsetAudioTrack (deviceId deviceName : string) (audioSource : AudioSource)
| CupdateSensorDistance (deviceId : string) (distance : R)
| CstartAudioTrack (deviceId : string)
| CstopAudioTrack (deviceId : string)
| CsetTrackVolume (deviceId : string) (volume : R)
| CsetTrackPitch (deviceId : string) (pitch : R)
| CsetTrackReverb (deviceId : string) (reverb : R)
| CsetTrackFilter (deviceId : string) (filter : R)
| CremoveAudioTrack (deviceId : string)
| Cdispose.

Definition call (c : Call) : Service -> Service :=
  match c with
  | CsetVolumeCurve curve => setVolumeCurve curve
  | CsetDistanceRange a b => setDistanceRange a b
  | CsetVolumeLimit limit => setVolumeLimit limit
  | CsetGlobalVolume v => setGlobalVolume v
  | CsetDistanceEffects fx => setDistanceEffects fx
  | CsetAudioTrack d n a => setAudioTrack d n a
  | CupdateSensorDistance d x => updateSensorDistance d x
  | CstartAudioTrack d => startAudioTrack d
  | CstopAudioTrack d => stopAudioTrack d
  | CsetTrackVolume d v => setTrackVolume d v
  | CsetTrackPitch d v => setTrackPitch d v
  | CsetTrackReverb d v => setTrackReverb d v
  | CsetTrackFilter d v => setTrackFilter d v
  | CremoveAudioTrack d => removeAudioTrack d
  | Cdispose => dispose
  end.

(** The states a service can be in: constructed, then any calls.  The
    range of such a state is the one the exact sum of [setDistanceRange]
    gives. *)
Inductive Reachable : Service -> Prop :=
| Reachable_new (ctx : bool) : Reachable (new ctx)
| Reachable_call (c : Call) (s : Service) :
    Reachable s -> Reachable (call c s).

(** What the setters maintain about the configuration, the sum of
    [setDistanceRange] being exact. *)
Definition Invariant (s : Service) : Prop :=
  0 <= minDistance s /\ minDistance s + 1 <= maxDistance s /\
  1 / 10 <= maxVolumeLimit s <= 1 /\ 0 <= globalVolume s <= 1.

End Enhanced.

(** ** The volume mapping of [ProfessionalApp.tsx] *)

Module ProfessionalApp.
Import JS.

(** The React state the mapping closes over.  [volumeDecayType] is a
    string; every unknown value falls into the [default] case. *)
Record Settings : Type := mkSettings {
  volumeDecayType : string;
  minDistance : R;
  maxDistance : R;
  minVolume : R;
  maxVolume : R
}.

(** The initial values of [useState]. *)
Definition initial : Settings :=
  {| volumeDecayType := "linear"; minDistance := 5; maxDistance := 200;
     minVolume := 5; maxVolume := 100 |}.

Definition volumeRatio (decayType : string) (normalizedDistance : R) : R :=
  if decide (decayType = "exponential"%string) then
    Math_exp (- 3 * normalizedDistance)
  else if decide (decayType = "logarithmic"%string) then
    1 - Math_log (1 + normalizedDistance * 9) / Math_log 10
  else
    1 - normalizedDistance.

Definition calculateVolumeFromDistance (c : Settings) (distance : R) : R :=
  if le distance (minDistance c) then maxVolume c
  else if ge distance (maxDistance c) then minVolume c
  else
    let normalizedDistance :=
      (distance - minDistance c) / (maxDistance c - minDistance c) in
    let volumeRatio := volumeRatio (volumeDecayType c) normalizedDistance in
    Math_round (minVolume c + (maxVolume c - minVolume c) * volumeRatio).

End ProfessionalApp.

(** ** [AudioSynthesisService.ts] *)

Module Basic.
Import JS.

Inductive AudioType : Type := bass | mid | treble | ambient | harmonic.

(** A track.  The synthesizer is reduced to whether a note is held
    ([triggerAttack] / [triggerRelease]) and the [Tone.Volume] node to its
    level in decibels, [None] standing for [-Infinity]. *)
Record AudioTrack : Type := mkAudioTrack {
  sensorId : string;
  sensorName : string;
  audioType : AudioType;
  noteHeld : bool;
  volume_dB : option R;
  currentDistance : R;
  currentVolume : R;
  isPlaying : bool
}.

Record SpatialAudioSettings : Type := mkSettings {
  maxDistance : R;
  minDistance : R;
  globalVolume : R;
  enabled : bool
}.

(** The quotient is the code's when [maxDistance] is not zero; for a
    maximal distance of zero the code divides by zero and computes [NaN],
    and what the division of the reals gives there means nothing. *)
Definition calculateVolumeFromDistance (settings : SpatialAudioSettings)
    (distance : R) : R :=
  let clampedDistance :=
    Math_max (minDistance settings) (Math_min (maxDistance settings) distance) in
  let volumePercent :=
    Math_max 0 (100 - clampedDistance / maxDistance settings * 100) in
  volumePercent / 100.

Definition startTrackAudio (isInitialized : bool) (track : AudioTrack)
  : AudioTrack :=
  if negb isInitialized || isPlaying track then track
  else
    {| sensorId := sensorId track; sensorName := sensorName track;
       audioType := audioType track; noteHeld := true;
       volume_dB := volume_dB track;
       currentDistance := currentDistance track;
       currentVolume := currentVolume track; isPlaying := true |}.

Definition stopTrackAudio (track : AudioTrack) : AudioTrack :=
  if negb (isPlaying track) then track
  else
    {| sensorId := sensorId track; sensorName := sensorName track;
       audioType := audioType track; noteHeld := false;
       volume_dB := volume_dB track;
       currentDistance := currentDistance track;
       currentVolume := currentVolume track; isPlaying := false |}.

End Basic.

(** ** Example states *)

Module Examples.
Import JS Enhanced.

(** One of the built-in sources of the service. *)
Definition osc_mid : AudioSource :=
  {| id := "osc_mid"; name := "🎵 Mid Tone"; type := type_oscillator 440;
     category := Some "synth"%string |}.

(** A fresh service on which a device is given the source [osc_mid]. *)
Definition registered : Service :=
  setAudioTrack "dev" "Device" osc_mid (new true).

(** The device reports 5 cm: the track starts to play. *)
Definition started : Service := updateSensorDistance "dev" 5 registered.

(** The track of [started], field by field. *)
Definition started_track : AudioTrack :=
  {| deviceId := "dev"; deviceName := "Device"; audioSource := osc_mid;
     volume := 8 / 10; nodeVolume := 7 / 10; pitch := 1; reverb := 2 / 10;
     filter := 1;
     distancePitch := 1075 / 1000; distanceFilter := 1; distanceReverb := 0;
     playing := true;
     oscillator := Some {| osc_frequency := 473 |};
     audioSourceNode := None;
     gainNode := Some {| gain := 392 / 1000 |};
     filterNode := Some {| filter_frequency := 22050 |};
     reverbNode := Some {| delayTime := 5 / 100 |} |}.




(** A track of [AudioSynthesisService] whose note is sounding. *)
Definition sounding : Basic.AudioTrack :=
  {| Basic.sensorId := "A"; Basic.sensorName := "Sensor A";
     Basic.audioType := Basic.bass; Basic.noteHeld := true;
     Basic.volume_dB := Some (-30); Basic.currentDistance := 100;
     Basic.currentVolume := 1 / 2; Basic.isPlaying := true |}.

End Examples.

(** ** The mapping in the words of the specification *)

Module Spec.

Definition clamp (x lo hi : R) : R := Rmax lo (Rmin hi x).

(** "Clamp distance to [minDistance, maxDistance]; normalize to t in [0,1]". *)
Definition normalize (minDistance maxDistance distance : R) : R :=
  (clamp distance minDistance maxDistance - minDistance)
  / (maxDistance - minDistance).

Inductive Curve : Type := linear | exponential | logarithmic | inverseSquare.

(** The decay constant "k configurable, default 4". *)
Definition default_k : R := 4.

(** [volumeRatio (t)] for each curve.  The inverse-square curve
    [1 / (epsilon + t)^2] is brought into [0, 1] by dividing it by its
    value at [t = 0]. *)
Definition volumeRatio (k epsilon : R) (curve : Curve) (t : R) : R :=
  match curve with
  | linear => 1 - t
  | exponential => exp (- k * t)
  | logarithmic => 1 - ln (1 + 9 * t) / ln 10
  | inverseSquare =>
      (1 / ((epsilon + t) * (epsilon + t))) / (1 / (epsilon * epsilon))
  end.

(** "Final volume = clamp (minVolume + (maxVolume - minVolume) * volumeRatio (t), 0, volumeLimit)". *)
Definition finalVolume (minVolume maxVolume volumeLimit ratio : R) : R :=
  clamp (minVolume + (maxVolume - minVolume) * ratio) 0 volumeLimit.

(** "pitch = 1 + (1 - t) * pitchRange - pitchRange / 2, clamped to [0.5, 2.0]". *)
Definition pitch (pitchRange t : R) : R :=
  clamp (1 + (1 - t) * pitchRange - pitchRange / 2) (1 / 2) 2.

(** The curve of the specification that a curve of the code stands for. *)
Definition curve_of (c : Enhanced.VolumeCurve) : Curve :=
  match c with
  | Enhanced.inverse_square => inverseSquare
  | Enhanced.exponential => exponential
  | Enhanced.logarithmic => logarithmic
  | Enhanced.linear => linear
  end.

Definition curve_of_decayType (decayType : string) : Curve :=
  if decide (decayType = "exponential"%string) then exponential
  else if decide (decayType = "logarithmic"%string) then logarithmic
  else linear.

End Spec.

(** ** The trilateration solver *)

Module Trilateration.

(** The solver belongs to the pygame application, whose code is not among
    the source files.  Every definition of this module is modelled from
    section 4.2 of the specification and follows its sentences.  For more
    than three sensors the candidate triangles are those of every triple
    of sensors, each built as the specification builds them for three. *)

Record Point : Type := mkPoint { px : R; py : R }.

Record Sensor : Type := mkSensor { position : Point; radius : R }.

(** Modelled from the spec: the configuration of the absent solver,
    "tolerance epsilon" and "referenceArea is a configured normalization
    constant". *)
Record Config : Type := mkConfig { tolerance : R; referenceArea : R }.

Record EstimatedPosition : Type := mkEstimatedPosition {
  x : R;
  y : R;
  triangleArea : R;
  qualityScore : R
}.

Inductive SolverError : Type := InsufficientGeometry | NotEnoughSensors.

Inductive Result : Type :=
| Ok (position : EstimatedPosition)
| Err (error : SolverError).

Definition ltb (a b : R) : bool := if Rlt_dec a b then true else false.
Definition leb (a b : R) : bool := if Rle_dec a b then true else false.
Definition eqb (a b : R) : bool := if Req_dec_T a b then true else false.

Definition distance (p q : Point) : R :=
  sqrt ((px p - px q) * (px p - px q) + (py p - py q) * (py p - py q)).

(** Modelled from the spec: the circle-circle intersection of the absent
    solver.  "let d = |center_i - center_j|; if d > r_i + r_j or d < |r_i - r_j| or
    d == 0, the pair yields zero intersections.  Otherwise
    a = (r_i^2 - r_j^2 + d^2) / (2d), h = sqrt (max (0, r_i^2 - a^2)); the
    two intersection points lie at distance a along the center-to-center
    axis, offset by h perpendicular to it". *)
Definition intersections (si sj : Sensor) : list Point :=
  let ci := position si in
  let cj := position sj in
  let ri := radius si in
  let rj := radius sj in
  let d := distance ci cj in
  if ltb (ri + rj) d || ltb d (Rabs (ri - rj)) || eqb d 0 then []
  else
    let a := (ri * ri - rj * rj + d * d) / (2 * d) in
    let h := sqrt (Rmax 0 (ri * ri - a * a)) in
    let mx := px ci + a * (px cj - px ci) / d in
    let my := py ci + a * (py cj - py ci) / d in
    [ {| px := mx + h * (py cj - py ci) / d;
         py := my - h * (px cj - px ci) / d |};
      {| px := mx - h * (py cj - py ci) / d;
         py := my + h * (px cj - px ci) / d |} ].

(** Modelled from the spec: a candidate triangle of the absent solver, one point of each of the three pairs, with the
    sensors the points come from. *)
Record Candidate : Type := mkCandidate {
  s1 : Sensor;
  s2 : Sensor;
  s3 : Sensor;
  p12 : Point;
  p13 : Point;
  p23 : Point
}.

(** Modelled from the spec: the enumeration of the absent solver,
    "pick one point from pair (1,2), one from pair (1,3), one from pair
    (2,3)": up to eight triangles. *)
Definition triangles (a b c : Sensor) : list Candidate :=
  flat_map
    (fun q12 =>
       flat_map
         (fun q13 =>
            map (fun q23 =>
                   {| s1 := a; s2 := b; s3 := c;
                      p12 := q12; p13 := q13; p23 := q23 |})
              (intersections b c))
         (intersections a c))
    (intersections a b).

Fixpoint pairs (l : list Sensor) : list (Sensor * Sensor) :=
  match l with
  | [] => []
  | a :: l' => map (fun b => (a, b)) l' ++ pairs l'
  end.

Fixpoint triples (l : list Sensor) : list (Sensor * Sensor * Sensor) :=
  match l with
  | [] => []
  | a :: l' => map (fun bc => (a, fst bc, snd bc)) (pairs l') ++ triples l'
  end.

Definition candidates (sensors : list Sensor) : list Candidate :=
  flat_map (fun abc => triangles (fst (fst abc)) (snd (fst abc)) (snd abc))
    (triples sensors).

(** Modelled from the spec: the validity check of the absent solver,
    "verify each vertex lies within tolerance epsilon of the two circles
    it was derived from". *)
Definition on_circle (cfg : Config) (p : Point) (s : Sensor) : bool :=
  leb (Rabs (distance p (position s) - radius s)) (tolerance cfg).

Definition valid (cfg : Config) (t : Candidate) : bool :=
  on_circle cfg (p12 t) (s1 t) && on_circle cfg (p12 t) (s2 t) &&
  on_circle cfg (p13 t) (s1 t) && on_circle cfg (p13 t) (s3 t) &&
  on_circle cfg (p23 t) (s2 t) && on_circle cfg (p23 t) (s3 t).

(** Modelled from the spec: the area of the absent solver, "compute
    triangle area via the shoelace formula". *)
Definition area (t : Candidate) : R :=
  Rabs (px (p12 t) * (py (p13 t) - py (p23 t))
        + px (p13 t) * (py (p23 t) - py (p12 t))
        + px (p23 t) * (py (p12 t) - py (p13 t))) / 2.

Definition centroid (t : Candidate) : Point :=
  {| px := (px (p12 t) + px (p13 t) + px (p23 t)) / 3;
     py := (py (p12 t) + py (p13 t) + py (p23 t)) / 3 |}.

(** Modelled from the spec: the selection of the absent solver, "Select
    the triangle with the strictly smallest valid area": a
    candidate replaces the best one so far only when it is valid and its
    area is strictly smaller.  The note on the algorithm among the source
    files has this loop, [if area < min_area and valid_triangle], inside
    loops over the points of pair (1,2), of pair (1,3) and of pair (2,3)
    in this order. *)
Fixpoint select (cfg : Config) (best : option Candidate) (l : list Candidate)
  : option Candidate :=
  match l with
  | [] => best
  | t :: l' =>
      if valid cfg t then
        match best with
        | None => select cfg (Some t) l'
        | Some b =>
            if ltb (area t) (area b) then select cfg (Some t) l'
            else select cfg best l'
        end
      else select cfg best l'
  end.

(** Modelled from the spec: the score of the absent solver, "Quality
    score = 1 - min (1, area / referenceArea)". *)
Definition quality (cfg : Config) (t : Candidate) : R :=
  1 - Rmin 1 (area t / referenceArea cfg).

Definition no_intersection (sensors : list Sensor) : bool :=
  forallb (fun ab => match intersections (fst ab) (snd ab) with
                     | [] => true
                     | _ => false
                     end)
    (pairs sensors).

(** Modelled from the spec: [solve] of the absent TrilaterationSolver.
    "If no pair produces any intersection, or fewer than 3 valid candidate
    triangles exist, return SolverError::InsufficientGeometry"; otherwise
    "the estimated position is that triangle's centroid". *)
Definition solve (cfg : Config) (sensors : list Sensor) : Result :=
  if (length sensors <? 3)%nat then Err NotEnoughSensors
  else if no_intersection sensors then Err InsufficientGeometry
  else if (length (List.filter (valid cfg) (candidates sensors)) <? 3)%nat
  then Err InsufficientGeometry
  else
    match select cfg None (candidates sensors) with
    | Some t =>
        Ok {| x := px (centroid t); y := py (centroid t);
              triangleArea := area t; qualityScore := quality cfg t |}
    | None => Err InsufficientGeometry
    end.

(** Three sensors at the corners of a 3-4-5 triangle whose circles all
    pass through the point (4, 3). *)
Definition example_sensors : list Sensor :=
  [ {| position := {| px := 0; py := 0 |}; radius := 5 |};
    {| position := {| px := 4; py := 0 |}; radius := 3 |};
    {| position := {| px := 0; py := 3 |}; radius := 4 |} ].

Definition example_config : Config :=
  {| tolerance := 1 / 100; referenceArea := 1000 |}.

(** The three sensors of [example_sensors], the first candidate triangle
    the enumeration gives for them and the triangle whose three vertices
    are the common point. *)
Definition example_a : Sensor :=
  {| position := {| px := 0; py := 0 |}; radius := 5 |}.
Definition example_b : Sensor :=
  {| position := {| px := 4; py := 0 |}; radius := 3 |}.
Definition example_c : Sensor :=
  {| position := {| px := 0; py := 3 |}; radius := 4 |}.

Definition example_first : Candidate :=
  {| s1 := example_a; s2 := example_b; s3 := example_c;
     p12 := {| px := 4; py := - 3 |};
     p13 := {| px := 4; py := 3 |};
     p23 := {| px := 4; py := 3 |} |}.

Definition example_common : Candidate :=
  {| s1 := example_a; s2 := example_b; s3 := example_c;
     p12 := {| px := 4; py := 3 |};
     p13 := {| px := 4; py := 3 |};
     p23 := {| px := 4; py := 3 |} |}.

End Trilateration.

(** ** [setDistanceRange] and the normalization in double precision *)

Module Float64.
Import PrimFloat.
Local Open Scope float_scope.

(** The numbers of JavaScript are binary64 floats.  The guard of
    [setDistanceRange] and the quotient of the normalization are embedded
    here a second time, over Rocq's primitive binary64 floats, whose
    operations round as the program's do and have [NaN].  [Math.max] and
    [Math.min] return [NaN] when an argument is [NaN] and order [-0] below
    [+0]. *)
Definition Math_max (a b : float) : float :=
  if (is_nan a || is_nan b)%bool then nan
  else if a <? b then b
  else if b <? a then a
  else if get_sign a then b else a.

Definition Math_min (a b : float) : float :=
  if (is_nan a || is_nan b)%bool then nan
  else if a <? b then a
  else if b <? a then b
  else if get_sign a then a else b.

(** The two fields of the service that [setDistanceRange] writes, with
    their initial values. *)
Record Range : Type := mkRange { minDistance : float; maxDistance : float }.

Definition new : Range := {| minDistance := 5; maxDistance := 200 |}.

Definition setDistanceRange (minD maxD : float) (s : Range) : Range :=
  let minDistance' := Math_max 0 minD in
  let maxDistance' := Math_max (minDistance' + 1) maxD in
  {| minDistance := minDistance'; maxDistance := maxDistance' |}.

(** [normalizedDistance] of [calculateVolumeFromDistance] and of
    [calculateDistanceEffects]. *)
Definition normalizedDistance (s : Range) (distance : float) : float :=
  let clampedDistance :=
    Math_max (minDistance s) (Math_min (maxDistance s) distance) in
  (clampedDistance - minDistance s) / (maxDistance s - minDistance s).

(** [calculateVolumeFromDistance] for the ['linear'] curve, with the
    volume limit as a parameter. *)
Definition linearVolume (maxVolumeLimit : float) (s : Range) (distance : float)
  : float :=
  let volumeRatio := 1 - normalizedDistance s distance in
  Math_max 0 (Math_min 1 volumeRatio) * maxVolumeLimit.

End Float64.

(** ** Runs of [EnhancedAudioSynthesisService] with file loading *)

Module EnhancedRuns.
Import JS Enhanced.

(** The rest of [startAudioTrack] for an audio source with a file, run when
    [await this.loadAudioFile (file)] resolves: the file is remembered in
    [audioBuffers] and the track the call had read is wired and started.
    That track is the object the call captured; it is the track of the
    device as long as the device has not been given a new one. *)
Definition startAudioTrack_resume (deviceId : string) (file : string)
    (track : AudioTrack) (s : Service) : Service :=
  {| audioContext := audioContext s;
     audioTracks := <[deviceId := startAudioTrack_loaded s file track]> (audioTracks s);
     audioBuffers := {[ file ]} ∪ audioBuffers s;
     globalVolume := globalVolume s;
     maxVolumeLimit := maxVolumeLimit s; maxDistance := maxDistance s;
     minDistance := minDistance s; volumeCurve := volumeCurve s;
     distanceEffects := distanceEffects s |}.

(** One step of the service: a call of a public method, or the completion
    of a file load for a device whose track has that file as its source.
    The second kind of step is allowed whenever such a track is registered,
    which covers every completion that can change the tracks of the
    service. *)
Inductive Step : Service -> Service -> Prop :=
| Step_call (c : Call) (s : Service) : Step s (call c s)
| Step_loaded (deviceId file : string) (track : AudioTrack) (s : Service) :
    audioTracks s !! deviceId = Some track ->
    type (audioSource track) = type_audio (Some file) ->
    file <> EmptyString ->
    Step s (startAudioTrack_resume deviceId file track s).

(** The runs of the service.  As for [Reachable], the distance range of a
    state is the one the exact sum of [setDistanceRange] gives; module
    [EnhancedProperRuns] has the runs on which the program stores the
    same range. *)
Inductive Runs : Service -> Prop :=
| Runs_new (ctx : bool) : Runs (new ctx)
| Runs_step (s s' : Service) : Runs s -> Step s s' -> Runs s'.

(** The ranges of the user controls of a track. *)
Definition controls_in_range (t : AudioTrack) : Prop :=
  0 <= nodeVolume t <= 1 /\ 1 / 2 <= pitch t <= 2 /\
  0 <= reverb t <= 1 /\ 1 / 10 <= filter t <= 1.

(** The ranges of the values a track gets from the distance. *)
Definition distance_in_range (t : AudioTrack) : Prop :=
  0 <= volume t <= 1 /\ 1 / 2 <= distancePitch t <= 2 /\
  1 / 10 <= distanceFilter t <= 1 /\ 0 <= distanceReverb t <= 8 / 10.

(** The nodes of a track hold what [updateAudioTrack] writes from the
    fields of the track and the global volume [g]. *)
Definition synced (g : R) (t : AudioTrack) : Prop :=
  gainNode t = Some {| gain := volume t * nodeVolume t * g |} /\
  filterNode t
  = Some {| filter_frequency := 22050 * (filter t * distanceFilter t) |} /\
  reverbNode t
  = Some {| delayTime :=
              3 / 100 + Math_min (1 / 2) (reverb t + distanceReverb t) * (1 / 10) |} /\
  (forall n, oscillator t = Some n ->
             exists f, type (audioSource t) = type_oscillator f /\
                       osc_frequency n = f * (pitch t * distancePitch t)) /\
  (forall n, audioSourceNode t = Some n ->
             playbackRate n = pitch t * distancePitch t) /\
  (is_Some (oscillator t) \/ is_Some (audioSourceNode t)).

(** What holds of the track registered for device [d] when the context is
    [ctx] and the global volume [g]. *)
Definition TrackOK (ctx : bool) (g : R) (d : string) (t : AudioTrack) : Prop :=
  deviceId t = d /\
  controls_in_range t /\
  distance_in_range t /\
  (is_Some (oscillator t) -> exists f, type (audioSource t) = type_oscillator f) /\
  (playing t = true -> ctx = true /\ synced g t).

Definition WellFormed (s : Service) : Prop :=
  Invariant s /\
  map_Forall (TrackOK (audioContext s) (globalVolume s)) (audioTracks s).

(** Two tracks with the same identity, source, playing flag and nodes. *)
Definition same_wiring (t t1 : AudioTrack) : Prop :=
  deviceId t1 = deviceId t /\ audioSource t1 = audioSource t /\
  playing t1 = playing t /\ oscillator t1 = oscillator t /\
  audioSourceNode t1 = audioSourceNode t /\ gainNode t1 = gainNode t /\
  filterNode t1 = filterNode t /\ reverbNode t1 = reverbNode t.

(** The nodes a playing track needs. *)
Definition wired (t : AudioTrack) : Prop :=
  is_Some (gainNode t) /\ is_Some (filterNode t) /\ is_Some (reverbNode t) /\
  (is_Some (oscillator t) \/ is_Some (audioSourceNode t)).

(** The device a call is about, for the calls that take a device id. *)
Definition target (c : Call) : option string :=
  match c with
  | CsetAudioTrack d _ _ => Some d
  | CupdateSensorDistance d _ => Some d
  | CstartAudioTrack d => Some d
  | CstopAudioTrack d => Some d
  | CsetTrackVolume d _ => Some d
  | CsetTrackPitch d _ => Some d
  | CsetTrackReverb d _ => Some d
  | CsetTrackFilter d _ => Some d
  | CremoveAudioTrack d => Some d
  | _ => None
  end.

End EnhancedRuns.

(** ** Runs on which the guard of [setDistanceRange] is exact *)

Module EnhancedProperRuns.
Import JS Enhanced EnhancedRuns.

(** [setDistanceRange] computes [this.minDistance + 1] as a sum of doubles.
    For a minimum below 2^53 = 9007199254740992 that sum is above the
    minimum, as the exact sum of the embedding is, and the range stored is
    a proper one.  From 2^53 on the double sum may return the minimum
    itself and the range stored has width zero, which module [Float64]
    shows at 1e16; the normalization then computes [NaN], a value the
    real numbers do not have.  The calls on which the embedding agrees
    with the program are those with a minimum below 2^53. *)
Definition guarded (c : Call) : Prop :=
  match c with
  | CsetDistanceRange minDistance _ => minDistance < 9007199254740992
  | _ => True
  end.

(** The steps and runs of module [EnhancedRuns] in which every call is
    [guarded]. *)
Inductive ProperStep : Service -> Service -> Prop :=
| ProperStep_call (c : Call) (s : Service) : guarded c -> ProperStep s (call c s)
| ProperStep_loaded (deviceId file : string) (track : AudioTrack) (s : Service) :
    audioTracks s !! deviceId = Some track ->
    type (audioSource track) = type_audio (Some file) ->
    file <> EmptyString ->
    ProperStep s (startAudioTrack_resume deviceId file track s).

Inductive ProperRuns : Service -> Prop :=
| ProperRuns_new (ctx : bool) : ProperRuns (new ctx)
| ProperRuns_step (s s' : Service) : ProperRuns s -> ProperStep s s' -> ProperRuns s'.

End EnhancedProperRuns.

(** ** More example states *)

Module MoreExamples.
Import JS Enhanced.

(** Another built-in source of the service, backed by a file. *)
Definition cow_moo : AudioSource :=
  {| id := "cow_moo"; name := "🐄 Cow Mooing";
     type := type_audio (Some "cow_moo.wav"%string);
     category := Some "animals"%string |}.

(** A fresh service on which a device is given the source [cow_moo]. *)
Definition registered_file : Service :=
  setAudioTrack "cow" "Cow sensor" cow_moo (new true).

(** Two devices, the first one playing. *)
Definition two_devices : Service :=
  setAudioTrack "cow" "Cow sensor" cow_moo Examples.started.

End MoreExamples.

(** ** Devices and histories of [ProfessionalApp.tsx] *)

Module App.
Import JS.

Record AudioFile : Type := mkAudioFile {
  af_id : string;
  af_name : string;
  af_type : string;
  af_frequency : option R
}.

Record ConnectedDevice : Type := mkConnectedDevice {
  deviceId : string;
  deviceName : string;
  connected : bool;
  distance : R;
  volume : R;
  audioFile : option AudioFile
}.

(** The React state the handlers below read and replace. *)
Record State : Type := mkState {
  connectedDevices : list ConnectedDevice;
  hiddenDevices : gset string;
  distanceHistory : gmap string (list R);
  volumeHistory : gmap string (list R)
}.

Definition initial : State :=
  {| connectedDevices := []; hiddenDevices := ∅;
     distanceHistory := ∅; volumeHistory := ∅ |}.

(** [array.slice (-n)]: the last [n] elements, all of them when there are
    fewer. *)
Definition slice_last (n : nat) (l : list R) : list R :=
  drop (length l - n) l.

(** [{ ...prev, [id]: [...(prev[id] || []).slice (-19), sample] }] *)
Definition pushSample (history : gmap string (list R)) (id : string) (sample : R)
  : gmap string (list R) :=
  <[id := slice_last 19 (default [] (history !! id)) ++ [sample]]> history.

(** [prev.map (device => device.deviceId === id
                 ? { ...device, distance, volume } : device)] *)
Definition updateDevice (id : string) (newDistance newVolume : R)
    (device : ConnectedDevice) : ConnectedDevice :=
  if decide (deviceId device = id) then
    {| deviceId := deviceId device; deviceName := deviceName device;
       connected := connected device;
       distance := newDistance; volume := newVolume;
       audioFile := audioFile device |}
  else device.

(** The [onmessage] handler of the socket for a message of type
    ['device_data']. *)
Definition onDeviceData (c : ProfessionalApp.Settings) (device_id : string)
    (newDistance : R) (st : State) : State :=
  let calculatedVolume := ProfessionalApp.calculateVolumeFromDistance c newDistance in
  {| connectedDevices :=
       map (updateDevice device_id newDistance calculatedVolume) (connectedDevices st);
     hiddenDevices := hiddenDevices st;
     distanceHistory := pushSample (distanceHistory st) device_id newDistance;
     volumeHistory := pushSample (volumeHistory st) device_id calculatedVolume |}.

(** The distance of the demo device as a function of the position in its
    cycle, [cyclePosition = (elapsed % 30) / 30]. *)
Definition demoDistance (cyclePosition : R) : R :=
  if le cyclePosition (1 / 2) then Math_round (cyclePosition * 2 * 175)
  else Math_round (175 - (cyclePosition - 1 / 2) * 2 * 175).

(** One tick of the demo interval: the same updates as for a message, for
    the device ['demo-triangle-wave']. *)
Definition demoTick (c : ProfessionalApp.Settings) (cyclePosition : R) (st : State)
  : State :=
  onDeviceData c "demo-triangle-wave" (demoDistance cyclePosition) st.

(** [stopDemoDevice]: the demo device and its histories are removed. *)
Definition stopDemoDevice (st : State) : State :=
  {| connectedDevices :=
       List.filter (fun d => negb (bool_decide (deviceId d = "demo-triangle-wave"%string)))
         (connectedDevices st);
     hiddenDevices := hiddenDevices st;
     distanceHistory := delete "demo-triangle-wave"%string (distanceHistory st);
     volumeHistory := delete "demo-triangle-wave"%string (volumeHistory st) |}.

Definition disconnectDevice (id : string) (st : State) : State :=
  {| connectedDevices :=
       List.filter (fun d => negb (bool_decide (deviceId d = id))) (connectedDevices st);
     hiddenDevices := hiddenDevices st;
     distanceHistory := distanceHistory st;
     volumeHistory := volumeHistory st |}.

Definition hideDevice (id : string) (st : State) : State :=
  {| connectedDevices := connectedDevices st;
     hiddenDevices := {[ id ]} ∪ hiddenDevices st;
     distanceHistory := distanceHistory st;
     volumeHistory := volumeHistory st |}.

Definition showDevice (id : string) (st : State) : State :=
  {| connectedDevices := connectedDevices st;
     hiddenDevices := hiddenDevices st ∖ {[ id ]};
     distanceHistory := distanceHistory st;
     volumeHistory := volumeHistory st |}.

Definition getVisibleDevices (st : State) : list ConnectedDevice :=
  List.filter (fun d => negb (bool_decide (deviceId d ∈ hiddenDevices st)))
    (connectedDevices st).

(** The events of the application that change devices and histories. *)
Inductive Event : Type :=
| EdeviceData (c : ProfessionalApp.Settings) (device_id : string) (distance : R)
| EdemoTick (c : ProfessionalApp.Settings) (cyclePosition : R)
| EstopDemo
| Edisconnect (id : string)
| Ehide (id : string)
| Eshow (id : string).

Definition handle (e : Event) : State -> State :=
  match e with
  | EdeviceData c id x => onDeviceData c id x
  | EdemoTick c p => demoTick c p
  | EstopDemo => stopDemoDevice
  | Edisconnect id => disconnectDevice id
  | Ehide id => hideDevice id
  | Eshow id => showDevice id
  end.

(** [generateDeviceColor]: the palette, and the object [deviceColors] that
    the function reads and extends in place. *)
Definition colors : list string :=
  [ "#FF6B6B"; "#4ECDC4"; "#45B7D1"; "#96CEB4"; "#FFEAA7";
    "#DDA0DD"; "#98D8C8"; "#F7DC6F"; "#BB8FCE"; "#85C1E9" ]%string.

(** [!deviceColors[deviceId]]: no entry, or an empty string. *)
Definition hasColor (deviceColors : gmap string string) (id : string) : bool :=
  match deviceColors !! id with
  | Some c => negb (bool_decide (c = EmptyString))
  | None => false
  end.

Definition generateDeviceColor (id : string) (deviceColors : gmap string string)
  : string * gmap string string :=
  let deviceColors' :=
    if hasColor deviceColors id then deviceColors
    else
      let colorIndex := (size deviceColors mod length colors)%nat in
      <[id := nth colorIndex colors EmptyString]> deviceColors in
  (default EmptyString (deviceColors' !! id), deviceColors').





(** The states the application reaches from its initial one. *)
Inductive Reached : State -> Prop :=
| Reached_initial : Reached initial
| Reached_handle (e : Event) (st : State) : Reached st -> Reached (handle e st).

(** The colours given to a list of devices asked for one after the other. *)
Definition colorAll (ids : list string) (deviceColors : gmap string string)
  : gmap string string :=
  foldl (fun m id => snd (generateDeviceColor id m)) deviceColors ids.

(** The two histories go together. *)
Definition aligned (st : State) : Prop :=
  forall id,
    length (default [] (distanceHistory st !! id))
    = length (default [] (volumeHistory st !! id)) /\
    (length (default [] (distanceHistory st !! id)) <= 20)%nat.

(** A state with one connected device. *)
Definition one_device : State :=
  {| connectedDevices :=
       [ {| deviceId := "hc05"; deviceName := "HC-05 Sensor 1"; connected := true;
            distance := 100; volume := 54; audioFile := None |} ];
     hiddenDevices := ∅; distanceHistory := ∅; volumeHistory := ∅ |}.

End App.

(** ** The service of [AudioSynthesisService.ts] *)

Module BasicService.
Import JS Basic.

(** The fields of the class.  [masterVolume_dB] is the level of the master
    [Tone.Volume] node, [isInitialized] whether the audio context has been
    started.  A [rampTo (level, time)] is recorded by its target level. *)
Record Service : Type := mkService {
  audioTracks : gmap string AudioTrack;
  masterVolume_dB : R;
  isInitialized : bool;
  settings : SpatialAudioSettings
}.

(** The state after the constructor; [setupAudioContext] sets
    [isInitialized] in the constructor when the context is running already
    ([initialized = true]) and later, after [await Tone.start ()],
    otherwise. *)
Definition new (initialized : bool) : Service :=
  {| audioTracks := ∅; masterVolume_dB := - 10; isInitialized := initialized;
     settings := {| maxDistance := 200; minDistance := 0;
                    globalVolume := 7 / 10; enabled := false |} |}.

Definition setupAudioContext_done (s : Service) : Service :=
  {| audioTracks := audioTracks s; masterVolume_dB := masterVolume_dB s;
     isInitialized := true; settings := settings s |}.

Definition with_audioTracks (m : gmap string AudioTrack) (s : Service) : Service :=
  {| audioTracks := m; masterVolume_dB := masterVolume_dB s;
     isInitialized := isInitialized s; settings := settings s |}.

(** [name.includes (part)] *)
Fixpoint includes (name part : string) : bool :=
  String.prefix part name ||
  match name with
  | EmptyString => false
  | String _ rest => includes rest part
  end.

Definition audioTypes : list AudioType := [bass; mid; treble; ambient; harmonic].

Definition getAudioTypeForSensor (s : Service) (sensorId sensorName : string)
  : AudioType :=
  let sensorIndex := size (audioTracks s) in
  if includes sensorName "A" || includes sensorName "Bass" then bass
  else if includes sensorName "B" || includes sensorName "Mid" then mid
  else if includes sensorName "C" || includes sensorName "Treble" then treble
  else if includes sensorName "D" || includes sensorName "Ambient" then ambient
  else nth (sensorIndex mod length audioTypes) audioTypes bass.

(** [createAudioTrack] returns the track and leaves the new state. *)
Definition createAudioTrack (sensorId sensorName : string) (s : Service)
  : AudioTrack * Service :=
  match audioTracks s !! sensorId with
  | Some track => (track, s)
  | None =>
      let audioTrack :=
        {| Basic.sensorId := sensorId; Basic.sensorName := sensorName;
           audioType := getAudioTypeForSensor s sensorId sensorName;
           noteHeld := false; volume_dB := None;
           currentDistance := maxDistance (settings s);
           currentVolume := 0; isPlaying := false |} in
      (audioTrack, with_audioTracks (<[sensorId := audioTrack]> (audioTracks s)) s)
  end.

(** [updateTrackVolume]: mute at volume zero or below, else a level between
    -60 dB and 0 dB. *)
Definition updateTrackVolume (track : AudioTrack) : AudioTrack :=
  {| sensorId := sensorId track; sensorName := sensorName track;
     audioType := audioType track; noteHeld := noteHeld track;
     volume_dB :=
       if le (currentVolume track) 0 then None
       else Some (- 60 + currentVolume track * 60);
     currentDistance := currentDistance track;
     currentVolume := currentVolume track; isPlaying := isPlaying track |}.

(** The body of [updateSensorDistance] for the track it found. *)
Definition updateTrack (s : Service) (distance : R) (track : AudioTrack)
  : AudioTrack :=
  let newVolume := calculateVolumeFromDistance (settings s) distance in
  let track1 :=
    {| sensorId := sensorId track; sensorName := sensorName track;
       audioType := audioType track; noteHeld := noteHeld track;
       volume_dB := volume_dB track;
       currentDistance := distance;
       currentVolume := currentVolume track; isPlaying := isPlaying track |} in
  let track2 :=
    if strict_eq newVolume (currentVolume track1) then track1
    else
      updateTrackVolume
        {| sensorId := sensorId track1; sensorName := sensorName track1;
           audioType := audioType track1; noteHeld := noteHeld track1;
           volume_dB := volume_dB track1;
           currentDistance := currentDistance track1;
           currentVolume := newVolume; isPlaying := isPlaying track1 |} in
  if enabled (settings s) then
    if gt newVolume 0 && negb (isPlaying track2) then
      startTrackAudio (isInitialized s) track2
    else if strict_eq newVolume 0 && isPlaying track2 then stopTrackAudio track2
    else track2
  else track2.

Definition updateSensorDistance (sensorId : string) (distance : R) (s : Service)
  : Service :=
  match audioTracks s !! sensorId with
  | None => s
  | Some track =>
      with_audioTracks (<[sensorId := updateTrack s distance track]> (audioTracks s)) s
  end.

Definition setEnabled (enabled' : bool) (s : Service) : Service :=
  let settings' :=
    {| maxDistance := maxDistance (settings s);
       minDistance := minDistance (settings s);
       globalVolume := globalVolume (settings s); enabled := enabled' |} in
  {| audioTracks :=
       (fun track =>
          if negb enabled' then
            if isPlaying track then stopTrackAudio track else track
          else
            if gt (currentVolume track) 0
            then startTrackAudio (isInitialized s) track else track)
       <$> audioTracks s;
     masterVolume_dB := masterVolume_dB s;
     isInitialized := isInitialized s; settings := settings' |}.

Definition setGlobalVolume (volume : R) (s : Service) : Service :=
  let g := Math_max 0 (Math_min 1 volume) in
  {| audioTracks := audioTracks s;
     masterVolume_dB := - 30 + g * 30;
     isInitialized := isInitialized s;
     settings :=
       {| maxDistance := maxDistance (settings s);
          minDistance := minDistance (settings s);
          globalVolume := g; enabled := enabled (settings s) |} |}.

(** [setDistanceRange] stores the range as given and recalculates every
    track by [updateSensorDistance (track.sensorId, track.currentDistance)].
    A track is registered under its own [sensorId] ([createAudioTrack] is the
    only method that adds one), so each of these calls updates the track it
    was made for. *)
Definition setDistanceRange (minDistance' maxDistance' : R) (s : Service) : Service :=
  let s1 :=
    {| audioTracks := audioTracks s; masterVolume_dB := masterVolume_dB s;
       isInitialized := isInitialized s;
       settings :=
         {| maxDistance := maxDistance'; minDistance := minDistance';
            globalVolume := globalVolume (settings s);
            enabled := enabled (settings s) |} |} in
  with_audioTracks
    ((fun track => updateTrack s1 (currentDistance track) track) <$> audioTracks s1)
    s1.

Definition removeAudioTrack (sensorId : string) (s : Service) : Service :=
  match audioTracks s !! sensorId with
  | None => s
  | Some _ => with_audioTracks (delete sensorId (audioTracks s)) s
  end.

Definition dispose (s : Service) : Service := with_audioTracks ∅ s.

Inductive Step : Service -> Service -> Prop :=
| Step_initialized s : Step s (setupAudioContext_done s)
| Step_create id name s : Step s (snd (createAudioTrack id name s))
| Step_update id x s : Step s (updateSensorDistance id x s)
| Step_enable b s : Step s (setEnabled b s)
| Step_volume v s : Step s (setGlobalVolume v s)
| Step_range a b s : Step s (setDistanceRange a b s)
| Step_remove id s : Step s (removeAudioTrack id s)
| Step_dispose s : Step s (dispose s).

(** The runs of the service.  Module [BasicProperRuns] has those whose
    maximal distance is never zero, on which the volume of the program is
    a number. *)
Inductive Runs : Service -> Prop :=
| Runs_new (initialized : bool) : Runs (new initialized)
| Runs_step (s s' : Service) : Runs s -> Step s s' -> Runs s'.

(** What a run keeps of the track registered for sensor [id]. *)
Definition TrackOK (s : Service) (id : string) (t : AudioTrack) : Prop :=
  sensorId t = id /\
  0 <= currentVolume t /\
  volume_dB t
  = (if le (currentVolume t) 0 then None else Some (- 60 + currentVolume t * 60)) /\
  noteHeld t = isPlaying t /\
  (isPlaying t = true ->
   enabled (settings s) = true /\ isInitialized s = true /\ 0 < currentVolume t).

Definition WellFormed (s : Service) : Prop :=
  map_Forall (TrackOK s) (audioTracks s).

(** A service with one sensor, enabled, the sensor at 50 cm. *)
Definition example : Service :=
  updateSensorDistance "A1" 50
    (setEnabled true (snd (createAudioTrack "A1" "Sensor A" (new true)))).

End BasicService.

(** ** Runs of the basic service with a maximal distance other than zero *)

Module BasicProperRuns.
Import JS Basic BasicService.

(** [setDistanceRange] of the basic service stores its two arguments as
    they are, and [calculateVolumeFromDistance] divides by [maxDistance].
    With a maximal distance of zero the program divides by zero and the
    volume it computes is [NaN], a value the real numbers do not have: for
    it neither [newVolume > 0] nor [newVolume === 0] holds.  The runs on
    which the embedding agrees with the program are those whose states
    all have a maximal distance other than zero; the constructor starts
    with 200. *)
Inductive ProperRuns : Service -> Prop :=
| ProperRuns_new (initialized : bool) : ProperRuns (new initialized)
| ProperRuns_step (s s' : Service) :
    ProperRuns s -> Step s s' -> maxDistance (settings s') <> 0 -> ProperRuns s'.

End BasicProperRuns.

(** * Properties *)

(** ** Arithmetic of the [Math] functions *)

Section MathFacts.
Import JS.

Lemma Math_max_lb_l a b : a <= Math_max a b.
Proof. apply Rmax_l. Qed.

Lemma Math_max_lb_r a b : b <= Math_max a b.
Proof. apply Rmax_r. Qed.

Lemma Math_min_ub_l a b : Math_min a b <= a.
Proof. apply Rmin_l. Qed.

Lemma Math_min_ub_r a b : Math_min a b <= b.
Proof. apply Rmin_r. Qed.

Lemma Math_max_mono a b b' : b <= b' -> Math_max a b <= Math_max a b'.
Proof. intros H. apply Rle_max_compat_l, H. Qed.

Lemma Math_min_mono a b b' : b <= b' -> Math_min a b <= Math_min a b'.
Proof. intros H. apply Rle_min_compat_l, H. Qed.

Lemma Math_max_right a b : a <= b -> Math_max a b = b.
Proof. apply Rmax_right. Qed.

Lemma Math_max_left a b : b <= a -> Math_max a b = a.
Proof. apply Rmax_left. Qed.

Lemma Math_min_right a b : b <= a -> Math_min a b = b.
Proof. apply Rmin_right. Qed.

Lemma Math_min_left a b : a <= b -> Math_min a b = a.
Proof. apply Rmin_left. Qed.

(** A clamp lands in its interval. *)
Lemma clamp_bounds lo hi x :
  lo <= hi -> lo <= Math_max lo (Math_min hi x) <= hi.
Proof.
  intros Hlh. split; [apply Math_max_lb_l|].
  apply Rmax_lub; [exact Hlh | apply Math_min_ub_l].
Qed.

Lemma clamp_mono lo hi x y :
  x <= y -> Math_max lo (Math_min hi x) <= Math_max lo (Math_min hi y).
Proof. intros H. apply Math_max_mono, Math_min_mono, H. Qed.

Lemma clamp_id lo hi x :
  lo <= x <= hi -> Math_max lo (Math_min hi x) = x.
Proof.
  intros [H1 H2]. rewrite (Math_min_right hi x H2). apply Math_max_right, H1.
Qed.

Lemma gt_true a b : b < a -> gt a b = true.
Proof. intros H. unfold gt. destruct (Rlt_dec b a); [reflexivity | contradiction]. Qed.

Lemma gt_false a b : a <= b -> gt a b = false.
Proof. intros H. unfold gt. destruct (Rlt_dec b a); [lra | reflexivity]. Qed.

Lemma le_true a b : a <= b -> le a b = true.
Proof. intros H. unfold le. destruct (Rle_dec a b); [reflexivity | contradiction]. Qed.

Lemma le_false a b : b < a -> le a b = false.
Proof. intros H. unfold le. destruct (Rle_dec a b); [lra | reflexivity]. Qed.

Lemma ge_true a b : b <= a -> ge a b = true.
Proof. intros H. unfold ge. destruct (Rle_dec b a); [reflexivity | contradiction]. Qed.

Lemma ge_false a b : a < b -> ge a b = false.
Proof. intros H. unfold ge. destruct (Rle_dec b a); [lra | reflexivity]. Qed.

Lemma strict_eq_true a b : a = b -> strict_eq a b = true.
Proof. intros H. unfold strict_eq. destruct (Req_dec_T a b); [reflexivity | contradiction]. Qed.

Lemma strict_eq_false a b : a <> b -> strict_eq a b = false.
Proof. intros H. unfold strict_eq. destruct (Req_dec_T a b); [contradiction | reflexivity]. Qed.

Lemma Math_round_mono x y : x <= y -> Math_round x <= Math_round y.
Proof.
  intros H. unfold Math_round. apply IZR_le, Zfloor_le. lra.
Qed.

Lemma Math_round_IZR z : Math_round (IZR z) = IZR z.
Proof.
  unfold Math_round. f_equal. apply Zfloor_eq. lra.
Qed.

Lemma ln_10_pos : 0 < ln 10.
Proof. rewrite <- ln_1. apply ln_increasing; lra. Qed.

Lemma Math_log10_mono x y : 0 < x -> x <= y -> Math_log10 x <= Math_log10 y.
Proof.
  intros Hx Hxy. unfold Math_log10.
  apply Rmult_le_compat_r.
  - left. apply Rinv_0_lt_compat, ln_10_pos.
  - destruct Hxy as [Hlt | ->]; [left; apply ln_increasing; assumption | right; reflexivity].
Qed.

Lemma Math_log10_1 : Math_log10 1 = 0.
Proof. unfold Math_log10. rewrite ln_1. lra. Qed.

Lemma Math_log10_10 : Math_log10 10 = 1.
Proof. unfold Math_log10. field. pose proof ln_10_pos. lra. Qed.

Lemma Math_exp_mono x y : x <= y -> Math_exp x <= Math_exp y.
Proof.
  intros [Hlt | ->]; [left; apply exp_increasing, Hlt | right; reflexivity].
Qed.

End MathFacts.

(** ** The configuration of [EnhancedAudioSynthesisService] *)

Section EnhancedConfiguration.
Import JS Enhanced.

(** Reading a field back after [with_audioTracks]. *)
Lemma stopAudioTrack_config d s :
  minDistance (stopAudioTrack d s) = minDistance s /\
  maxDistance (stopAudioTrack d s) = maxDistance s /\
  maxVolumeLimit (stopAudioTrack d s) = maxVolumeLimit s /\
  globalVolume (stopAudioTrack d s) = globalVolume s.
Proof.
  unfold stopAudioTrack.
  destruct (audioTracks s !! d) as [t|]; [|tauto].
  destruct (negb (playing t)); simpl; tauto.
Qed.

Lemma startAudioTrack_config d s :
  minDistance (startAudioTrack d s) = minDistance s /\
  maxDistance (startAudioTrack d s) = maxDistance s /\
  maxVolumeLimit (startAudioTrack d s) = maxVolumeLimit s /\
  globalVolume (startAudioTrack d s) = globalVolume s.
Proof.
  unfold startAudioTrack.
  destruct (audioTracks s !! d) as [t|]; [|tauto].
  destruct (playing t || negb (audioContext s)); [tauto|].
  destruct (type (audioSource t)) as [f|file]; [simpl; tauto|].
  destruct (truthy file); simpl; tauto.
Qed.

Lemma setTrackControl_config change d s :
  minDistance (setTrackControl change d s) = minDistance s /\
  maxDistance (setTrackControl change d s) = maxDistance s /\
  maxVolumeLimit (setTrackControl change d s) = maxVolumeLimit s /\
  globalVolume (setTrackControl change d s) = globalVolume s.
Proof.
  unfold setTrackControl.
  destruct (audioTracks s !! d) as [t|]; simpl; tauto.
Qed.

Lemma updateSensorDistance_config d x s :
  minDistance (updateSensorDistance d x s) = minDistance s /\
  maxDistance (updateSensorDistance d x s) = maxDistance s /\
  maxVolumeLimit (updateSensorDistance d x s) = maxVolumeLimit s /\
  globalVolume (updateSensorDistance d x s) = globalVolume s.
Proof.
  unfold updateSensorDistance.
  destruct (audioTracks s !! d) as [t|]; [|tauto].
  cbv zeta.
  match goal with
  | |- context [with_audioTracks ?m s] => set (s2 := with_audioTracks m s)
  end.
  destruct (gt _ 0 && _).
  - destruct (startAudioTrack_config d s2) as (-> & -> & -> & ->). simpl; tauto.
  - destruct (strict_eq _ 0 && _).
    + destruct (stopAudioTrack_config d s2) as (-> & -> & -> & ->). simpl; tauto.
    + simpl; tauto.
Qed.

(** Each call keeps the invariant; [setDistanceRange] and
    [setVolumeLimit] establish their part of it whatever they are given. *)
Lemma setDistanceRange_range a b s :
  0 <= minDistance (setDistanceRange a b s) /\
  minDistance (setDistanceRange a b s) + 1 <= maxDistance (setDistanceRange a b s).
Proof.
  simpl. split; [apply Math_max_lb_l | apply Math_max_lb_l].
Qed.

Lemma call_Invariant c s : Invariant s -> Invariant (call c s).
Proof.
  unfold Invariant. intros (H1 & H2 & H3 & H4).
  destruct c; simpl call.
  - simpl; tauto.
  - destruct (setDistanceRange_range minDistance0 maxDistance0 s).
    simpl in *. tauto.
  - simpl. repeat split; try tauto.
    + apply Math_max_lb_l.
    + apply clamp_bounds; lra.
  - simpl. repeat split; try tauto.
    + apply Math_max_lb_l.
    + apply clamp_bounds; lra.
  - simpl; tauto.
  - unfold setAudioTrack. destruct (decide _); simpl.
    + destruct (stopAudioTrack_config deviceId0 s) as (-> & -> & -> & ->). tauto.
    + tauto.
  - destruct (updateSensorDistance_config deviceId0 distance s) as (-> & -> & -> & ->).
    tauto.
  - destruct (startAudioTrack_config deviceId0 s) as (-> & -> & -> & ->). tauto.
  - destruct (stopAudioTrack_config deviceId0 s) as (-> & -> & -> & ->). tauto.
  - destruct (setTrackControl_config
                (fun t => with_controls (Math_max 0 (Math_min 1 volume0)) (pitch t)
                            (reverb t) (filter t) t) deviceId0 s)
      as (E1 & E2 & E3 & E4).
    unfold setTrackVolume. rewrite E1, E2, E3, E4. tauto.
  - destruct (setTrackControl_config
                (fun t => with_controls (nodeVolume t)
                            (Math_max (1 / 2) (Math_min 2 pitch0))
                            (reverb t) (filter t) t) deviceId0 s)
      as (E1 & E2 & E3 & E4).
    unfold setTrackPitch. rewrite E1, E2, E3, E4. tauto.
  - destruct (setTrackControl_config
                (fun t => with_controls (nodeVolume t) (pitch t)
                            (Math_max 0 (Math_min 1 reverb0)) (filter t) t)
                deviceId0 s)
      as (E1 & E2 & E3 & E4).
    unfold setTrackReverb. rewrite E1, E2, E3, E4. tauto.
  - destruct (setTrackControl_config
                (fun t => with_controls (nodeVolume t) (pitch t) (reverb t)
                            (Math_max (1 / 10) (Math_min 1 filter0)) t)
                deviceId0 s)
      as (E1 & E2 & E3 & E4).
    unfold setTrackFilter. rewrite E1, E2, E3, E4. tauto.
  - unfold removeAudioTrack. simpl.
    destruct (stopAudioTrack_config deviceId0 s) as (-> & -> & -> & ->). tauto.
  - simpl; tauto.
Qed.

Lemma new_Invariant ctx : Invariant (new ctx).
Proof. unfold Invariant; simpl; lra. Qed.

Lemma Reachable_Invariant s : Reachable s -> Invariant s.
Proof.
  induction 1 as [ctx | c s _ IH].
  - apply new_Invariant.
  - apply call_Invariant, IH.
Qed.

(** The volume limit and the global volume stay in their ranges whatever
    is called: [setVolumeLimit] and [setGlobalVolume] clamp what they
    store and nothing else writes the two fields.  The distance range
    plays no part in this. *)
Lemma call_limits c s :
  1 / 10 <= maxVolumeLimit s <= 1 /\ 0 <= globalVolume s <= 1 ->
  1 / 10 <= maxVolumeLimit (call c s) <= 1 /\ 0 <= globalVolume (call c s) <= 1.
Proof.
  intros (H3 & H4).
  destruct c; simpl call.
  - simpl; tauto.
  - simpl; tauto.
  - simpl. repeat split; try tauto.
    + apply Math_max_lb_l.
    + apply clamp_bounds; lra.
  - simpl. repeat split; try tauto.
    + apply Math_max_lb_l.
    + apply clamp_bounds; lra.
  - simpl; tauto.
  - unfold setAudioTrack. destruct (decide _); simpl.
    + destruct (stopAudioTrack_config deviceId0 s) as (_ & _ & -> & ->). tauto.
    + tauto.
  - destruct (updateSensorDistance_config deviceId0 distance s) as (_ & _ & -> & ->).
    tauto.
  - destruct (startAudioTrack_config deviceId0 s) as (_ & _ & -> & ->). tauto.
  - destruct (stopAudioTrack_config deviceId0 s) as (_ & _ & -> & ->). tauto.
  - destruct (setTrackControl_config
                (fun t => with_controls (Math_max 0 (Math_min 1 volume0)) (pitch t)
                            (reverb t) (filter t) t) deviceId0 s)
      as (_ & _ & E3 & E4).
    unfold setTrackVolume. rewrite E3, E4. tauto.
  - destruct (setTrackControl_config
                (fun t => with_controls (nodeVolume t)
                            (Math_max (1 / 2) (Math_min 2 pitch0))
                            (reverb t) (filter t) t) deviceId0 s)
      as (_ & _ & E3 & E4).
    unfold setTrackPitch. rewrite E3, E4. tauto.
  - destruct (setTrackControl_config
                (fun t => with_controls (nodeVolume t) (pitch t)
                            (Math_max 0 (Math_min 1 reverb0)) (filter t) t)
                deviceId0 s)
      as (_ & _ & E3 & E4).
    unfold setTrackReverb. rewrite E3, E4. tauto.
  - destruct (setTrackControl_config
                (fun t => with_controls (nodeVolume t) (pitch t) (reverb t)
                            (Math_max (1 / 10) (Math_min 1 filter0)) t)
                deviceId0 s)
      as (_ & _ & E3 & E4).
    unfold setTrackFilter. rewrite E3, E4. tauto.
  - unfold removeAudioTrack. simpl.
    destruct (stopAudioTrack_config deviceId0 s) as (_ & _ & -> & ->). tauto.
  - simpl; tauto.
Qed.

Lemma Reachable_limits s :
  Reachable s ->
  1 / 10 <= maxVolumeLimit s <= 1 /\ 0 <= globalVolume s <= 1.
Proof.
  induction 1 as [ctx | c s _ IH].
  - simpl; lra.
  - apply call_limits, IH.
Qed.

(** The guard of [setDistanceRange] as it is meant, the sum
    [minDistance + 1] being taken exactly: whatever the two arguments are,
    it leaves [minDistance >= 0] and [maxDistance >= minDistance + 1], and
    so does every sequence of calls.  The sum of the program is a sum of
    doubles, which is above [minDistance] only below 2^53; module
    [Float64] has the guard as the program computes it. *)
Theorem distance_range_invariant :
  (forall a b s,
      0 <= minDistance (setDistanceRange a b s) /\
      minDistance (setDistanceRange a b s) + 1
        <= maxDistance (setDistanceRange a b s)) /\
  (forall s,
      Reachable s ->
      0 <= minDistance s /\ minDistance s + 1 <= maxDistance s /\
      0 < maxDistance s - minDistance s).
Proof.
  split.
  - intros a b s. apply setDistanceRange_range.
  - intros s Hs. destruct (Reachable_Invariant s Hs) as (H1 & H2 & _).
    repeat split; [assumption | assumption | lra].
Qed.

(** The invariant at work after a reversed, negative range. *)
Lemma distance_range_invariant_witness :
  let s := call (CsetDistanceRange (-3) (-10)) (call (CsetVolumeLimit 7) (new true)) in
  Reachable s /\
  (0 <= minDistance s /\ minDistance s + 1 <= maxDistance s /\
   0 < maxDistance s - minDistance s).
Proof.
  intros s.
  assert (Hs : Reachable s) by (repeat constructor).
  split; [exact Hs|].
  exact (proj2 distance_range_invariant s Hs).
Defined.

End EnhancedConfiguration.

Section DoublePrecision.
Import PrimFloat.

(** C9.  The guard of [setDistanceRange] misses for large doubles.  The
    call [setDistanceRange (1e16, 200)] stores [minDistance = 1e16] and,
    the double sum [1e16 + 1] being [1e16] again, [maxDistance = 1e16]:
    the denominator [maxDistance - minDistance] of the normalization is
    zero, the normalized distance is [0 / 0 = NaN] and so is the volume
    (computed here with the linear curve and the initial limit, the double
    [0x1.999999999999ap-1] that the literal 0.8 denotes).
    On a small reversed pair the guard does what it is meant to do:
    [setDistanceRange (200, 5)] stores 200 and 201. *)
Theorem distance_range_guard_misses :
  let s := Float64.setDistanceRange 1e16 200 Float64.new in
  Float64.minDistance s = 1e16%float /\
  Float64.maxDistance s = 1e16%float /\
  (Float64.maxDistance s - Float64.minDistance s)%float = 0%float /\
  is_nan (Float64.normalizedDistance s 100) = true /\
  is_nan (Float64.linearVolume 0x1.999999999999ap-1 s 100) = true /\
  Float64.setDistanceRange 200 5 Float64.new
  = {| Float64.minDistance := 200; Float64.maxDistance := 201 |}.
Proof.
  intros s. unfold s.
  repeat split; vm_compute; reflexivity.
Qed.

(** In that state no two volumes compare: the volume at 200 cm is not
    below or equal to the volume at 100 cm, both being [NaN]. *)
Lemma volume_unordered_at_zero_width :
  let s := Float64.setDistanceRange 1e16 200 Float64.new in
  (100 <=? 200)%float = true /\
  (Float64.linearVolume 0x1.999999999999ap-1 s 200
   <=? Float64.linearVolume 0x1.999999999999ap-1 s 100)%float = false.
Proof.
  intros s. unfold s. split; vm_compute; reflexivity.
Qed.

End DoublePrecision.

(** ** The distance mapping *)

Section Normalization.
Import JS Enhanced.

Variable s : Service.
Hypothesis range : minDistance s < maxDistance s.

Lemma normalizedDistance_range d : 0 <= normalizedDistance s d <= 1.
Proof.
  unfold normalizedDistance.
  destruct (clamp_bounds (minDistance s) (maxDistance s) d) as [Hlo Hhi]; [lra|].
  set (c := Math_max _ _) in *.
  assert (Hpos : 0 < maxDistance s - minDistance s) by lra.
  split.
  - apply Rmult_le_pos; [lra | left; apply Rinv_0_lt_compat, Hpos].
  - apply (Rmult_le_reg_r (maxDistance s - minDistance s)); [exact Hpos|].
    unfold Rdiv. rewrite Rmult_assoc, Rinv_l by lra. lra.
Qed.

Lemma normalizedDistance_mono d1 d2 :
  d1 <= d2 -> normalizedDistance s d1 <= normalizedDistance s d2.
Proof.
  intros H. unfold normalizedDistance.
  apply Rmult_le_compat_r.
  - left. apply Rinv_0_lt_compat. lra.
  - pose proof (clamp_mono (minDistance s) (maxDistance s) d1 d2 H). lra.
Qed.

Lemma normalizedDistance_inside d :
  minDistance s <= d <= maxDistance s ->
  normalizedDistance s d = (d - minDistance s) / (maxDistance s - minDistance s).
Proof.
  intros H. unfold normalizedDistance. rewrite clamp_id by exact H. reflexivity.
Qed.

Lemma normalizedDistance_near d :
  d <= minDistance s -> normalizedDistance s d = 0.
Proof.
  intros H. unfold normalizedDistance.
  rewrite (Math_max_left (minDistance s)).
  - unfold Rdiv. rewrite Rminus_diag. apply Rmult_0_l.
  - eapply Rle_trans; [apply Math_min_ub_r | exact H].
Qed.

Lemma normalizedDistance_far d :
  maxDistance s <= d -> normalizedDistance s d = 1.
Proof.
  intros H. unfold normalizedDistance.
  rewrite (Math_min_left (maxDistance s) d H).
  rewrite Math_max_right by lra.
  apply Rinv_r. lra.
Qed.

Lemma normalizedDistance_spec d :
  normalizedDistance s d = Spec.normalize (minDistance s) (maxDistance s) d.
Proof. reflexivity. Qed.

End Normalization.

Section VolumeCurves.
Import JS.

(** The inverse-square branch in closed form. *)
Lemma inverse_square_closed t :
  0 <= t ->
  Enhanced.volumeRatio Enhanced.inverse_square t
  = 1 / ((1 + 9 * t) * (1 + 9 * t)).
Proof.
  intros Ht. unfold Enhanced.volumeRatio.
  assert (E : 1 / ((t * (9 / 10) + 1 / 10) * (t * (9 / 10) + 1 / 10)) / 100
              = 1 / ((1 + 9 * t) * (1 + 9 * t))) by (field; lra).
  rewrite E. apply Math_min_right.
  apply (Rmult_le_reg_r ((1 + 9 * t) * (1 + 9 * t))); [nra|].
  unfold Rdiv. rewrite Rmult_assoc, Rinv_l by nra. nra.
Qed.

Lemma inverse_square_antitone t1 t2 :
  0 <= t1 -> t1 <= t2 ->
  1 / ((1 + 9 * t2) * (1 + 9 * t2)) <= 1 / ((1 + 9 * t1) * (1 + 9 * t1)).
Proof.
  intros H1 H2. unfold Rdiv. rewrite !Rmult_1_l.
  apply Rinv_le_contravar; nra.
Qed.

Lemma log10_inside t :
  0 <= t <= 1 -> 0 <= Math_log10 (t * 9 + 1) <= 1.
Proof.
  intros [H0 H1]. split.
  - pose proof (Math_log10_mono 1 (t * 9 + 1)) as H.
    rewrite Math_log10_1 in H. apply H; lra.
  - pose proof (Math_log10_mono (t * 9 + 1) 10) as H.
    rewrite Math_log10_10 in H. apply H; lra.
Qed.

(** The logarithmic branch needs no clamp on [0, 1]. *)
Lemma logarithmic_closed t :
  0 <= t <= 1 ->
  Enhanced.volumeRatio Enhanced.logarithmic t = 1 - Math_log10 (1 + 9 * t).
Proof.
  intros Ht. unfold Enhanced.volumeRatio.
  pose proof (log10_inside t Ht).
  replace (1 + 9 * t) with (t * 9 + 1) by ring.
  apply Math_max_right. lra.
Qed.

Lemma exp_le_1 x : x <= 0 -> exp x <= 1.
Proof. intros H. rewrite <- exp_0. apply Math_exp_mono, H. Qed.

Lemma volumeRatio_range curve t :
  0 <= t <= 1 -> 0 <= Enhanced.volumeRatio curve t <= 1.
Proof.
  intros Ht. destruct curve.
  - rewrite inverse_square_closed by lra.
    assert (Hsq : 1 <= (1 + 9 * t) * (1 + 9 * t)) by nra.
    unfold Rdiv. rewrite Rmult_1_l. split.
    + left. apply Rinv_0_lt_compat. lra.
    + rewrite <- Rinv_1. apply Rinv_le_contravar; lra.
  - simpl. unfold Math_exp. split.
    + left. apply exp_pos.
    + apply exp_le_1. lra.
  - rewrite logarithmic_closed by exact Ht.
    replace (1 + 9 * t) with (t * 9 + 1) by ring.
    pose proof (log10_inside t Ht). lra.
  - simpl. lra.
Qed.

Lemma volumeRatio_antitone curve t1 t2 :
  0 <= t1 -> t1 <= t2 ->
  Enhanced.volumeRatio curve t2 <= Enhanced.volumeRatio curve t1.
Proof.
  intros H1 H2. destruct curve.
  - rewrite !inverse_square_closed by lra.
    apply inverse_square_antitone; assumption.
  - simpl. apply Math_exp_mono. lra.
  - simpl. apply Math_max_mono.
    pose proof (Math_log10_mono (t1 * 9 + 1) (t2 * 9 + 1)). lra.
  - simpl. lra.
Qed.

(** The three curves of [ProfessionalApp]. *)
Lemma app_volumeRatio_range decayType t :
  0 <= t <= 1 -> 0 <= ProfessionalApp.volumeRatio decayType t <= 1.
Proof.
  intros Ht. unfold ProfessionalApp.volumeRatio.
  destruct (decide (decayType = "exponential"%string)).
  - unfold Math_exp. split; [left; apply exp_pos | apply exp_le_1; lra].
  - destruct (decide (decayType = "logarithmic"%string)); [|lra].
    pose proof (log10_inside t Ht) as H. unfold Math_log10 in H. unfold Math_log.
    replace (1 + t * 9) with (t * 9 + 1) by ring. lra.
Qed.

Lemma app_volumeRatio_antitone decayType t1 t2 :
  0 <= t1 -> t1 <= t2 ->
  ProfessionalApp.volumeRatio decayType t2 <= ProfessionalApp.volumeRatio decayType t1.
Proof.
  intros H1 H2. unfold ProfessionalApp.volumeRatio.
  destruct (decide (decayType = "exponential"%string)).
  - apply Math_exp_mono. lra.
  - destruct (decide (decayType = "logarithmic"%string)); [|lra].
    pose proof (Math_log10_mono (1 + t1 * 9) (1 + t2 * 9)) as H.
    unfold Math_log10 in H. unfold Math_log. lra.
Qed.

End VolumeCurves.

(** ** Volume as a function of distance *)

Section Volume.
Import JS.

(** With a proper range the outer clamp of [calculateVolumeFromDistance]
    is the identity: the volume is the ratio times the limit. *)
Lemma calculateVolumeFromDistance_ratio s d :
  Enhanced.minDistance s < Enhanced.maxDistance s ->
  Enhanced.calculateVolumeFromDistance s d
  = Enhanced.volumeRatio (Enhanced.volumeCurve s) (Enhanced.normalizedDistance s d)
    * Enhanced.maxVolumeLimit s.
Proof.
  intros Hr. unfold Enhanced.calculateVolumeFromDistance.
  rewrite clamp_id; [reflexivity|].
  apply volumeRatio_range, normalizedDistance_range, Hr.
Qed.

Lemma volumeRatio_0 curve : Enhanced.volumeRatio curve 0 = 1.
Proof.
  destruct curve.
  - rewrite inverse_square_closed by lra. field.
  - simpl. unfold Math_exp. rewrite Rmult_0_r. apply exp_0.
  - rewrite logarithmic_closed by lra.
    rewrite Rmult_0_r, Rplus_0_r, Math_log10_1. lra.
  - simpl. lra.
Qed.

Lemma calculateVolumeFromDistance_near s d :
  Enhanced.minDistance s < Enhanced.maxDistance s ->
  d <= Enhanced.minDistance s ->
  Enhanced.calculateVolumeFromDistance s d = Enhanced.maxVolumeLimit s.
Proof.
  intros Hr Hd. rewrite calculateVolumeFromDistance_ratio by exact Hr.
  rewrite normalizedDistance_near by assumption.
  rewrite volumeRatio_0. lra.
Qed.

Lemma calculateVolumeFromDistance_antitone s d1 d2 :
  Enhanced.minDistance s < Enhanced.maxDistance s ->
  0 <= Enhanced.maxVolumeLimit s ->
  d1 <= d2 ->
  Enhanced.calculateVolumeFromDistance s d2
  <= Enhanced.calculateVolumeFromDistance s d1.
Proof.
  intros Hr Hl Hd. rewrite !calculateVolumeFromDistance_ratio by exact Hr.
  apply Rmult_le_compat_r; [exact Hl|].
  apply volumeRatio_antitone.
  - apply normalizedDistance_range, Hr.
  - apply normalizedDistance_mono; assumption.
Qed.

(** The three branches of the mapping of [ProfessionalApp]. *)
Lemma app_volume_near c d :
  d <= ProfessionalApp.minDistance c ->
  ProfessionalApp.calculateVolumeFromDistance c d = ProfessionalApp.maxVolume c.
Proof.
  intros H. unfold ProfessionalApp.calculateVolumeFromDistance.
  rewrite le_true by exact H. reflexivity.
Qed.

Lemma app_volume_far c d :
  ProfessionalApp.minDistance c < d -> ProfessionalApp.maxDistance c <= d ->
  ProfessionalApp.calculateVolumeFromDistance c d = ProfessionalApp.minVolume c.
Proof.
  intros H1 H2. unfold ProfessionalApp.calculateVolumeFromDistance.
  rewrite le_false by exact H1. rewrite ge_true by exact H2. reflexivity.
Qed.

Lemma app_volume_between c d :
  ProfessionalApp.minDistance c < d < ProfessionalApp.maxDistance c ->
  ProfessionalApp.calculateVolumeFromDistance c d
  = Math_round
      (ProfessionalApp.minVolume c
       + (ProfessionalApp.maxVolume c - ProfessionalApp.minVolume c)
         * ProfessionalApp.volumeRatio (ProfessionalApp.volumeDecayType c)
             ((d - ProfessionalApp.minDistance c)
              / (ProfessionalApp.maxDistance c - ProfessionalApp.minDistance c))).
Proof.
  intros [H1 H2]. unfold ProfessionalApp.calculateVolumeFromDistance.
  rewrite le_false by exact H1. rewrite ge_false by exact H2. reflexivity.
Qed.

(** The normalized distance of the middle branch lies in [0, 1] and grows
    with the distance. *)
Lemma app_normalized_range lo hi d :
  lo < d < hi -> 0 <= (d - lo) / (hi - lo) <= 1.
Proof.
  intros [H1 H2].
  assert (Hpos : 0 < hi - lo) by lra.
  split.
  - apply Rmult_le_pos; [lra | left; apply Rinv_0_lt_compat, Hpos].
  - apply (Rmult_le_reg_r (hi - lo)); [exact Hpos|].
    unfold Rdiv. rewrite Rmult_assoc, Rinv_l by lra. lra.
Qed.

Lemma app_normalized_mono lo hi d1 d2 :
  lo < hi -> d1 <= d2 -> (d1 - lo) / (hi - lo) <= (d2 - lo) / (hi - lo).
Proof.
  intros Hr Hd. apply Rmult_le_compat_r; [|lra].
  left. apply Rinv_0_lt_compat. lra.
Qed.

(** The rounded value stays between whole bounds. *)
Lemma app_rounded_between (zmin zmax : Z) (r : R) :
  IZR zmin <= IZR zmax -> 0 <= r <= 1 ->
  IZR zmin <= Math_round (IZR zmin + (IZR zmax - IZR zmin) * r) <= IZR zmax.
Proof.
  intros Hz Hr. split.
  - rewrite <- (Math_round_IZR zmin) at 1. apply Math_round_mono. nra.
  - rewrite <- (Math_round_IZR zmax) at 2. apply Math_round_mono. nra.
Qed.

Lemma app_volume_antitone c (zmin zmax : Z) d1 d2 :
  ProfessionalApp.minVolume c = IZR zmin ->
  ProfessionalApp.maxVolume c = IZR zmax ->
  ProfessionalApp.minVolume c <= ProfessionalApp.maxVolume c ->
  d1 <= d2 ->
  ProfessionalApp.calculateVolumeFromDistance c d2
  <= ProfessionalApp.calculateVolumeFromDistance c d1.
Proof.
  intros Emin Emax Hv Hd.
  set (lo := ProfessionalApp.minDistance c).
  set (hi := ProfessionalApp.maxDistance c).
  assert (Hz : IZR zmin <= IZR zmax) by (rewrite <- Emin, <- Emax; exact Hv).
  assert (Hmid : forall d, lo < d < hi ->
            IZR zmin <= ProfessionalApp.calculateVolumeFromDistance c d <= IZR zmax).
  { intros d Hin. rewrite app_volume_between by exact Hin.
    rewrite Emin, Emax. apply app_rounded_between; [exact Hz|].
    apply app_volumeRatio_range, app_normalized_range, Hin. }
  destruct (Rle_dec d1 lo) as [H1|H1].
  - rewrite (app_volume_near c d1 H1), Emax.
    destruct (Rle_dec d2 lo) as [H2|H2].
    + rewrite (app_volume_near c d2 H2), Emax. lra.
    + destruct (Rle_dec hi d2) as [H3|H3].
      * rewrite app_volume_far by (fold lo hi; lra). rewrite Emin. exact Hz.
      * apply Hmid. lra.
  - assert (H2 : lo < d2) by lra.
    destruct (Rle_dec hi d1) as [H3|H3].
    + rewrite (app_volume_far c d1) by (fold lo hi; lra).
      rewrite (app_volume_far c d2) by (fold lo hi; lra). lra.
    + destruct (Rle_dec hi d2) as [H4|H4].
      * rewrite (app_volume_far c d2) by (fold lo hi; lra).
        rewrite Emin. apply Hmid. lra.
      * rewrite !app_volume_between by (fold lo hi; lra).
        apply Math_round_mono.
        apply Rplus_le_compat_l, Rmult_le_compat_l; [lra|].
        apply app_volumeRatio_antitone.
        -- apply app_normalized_range. fold lo hi. lra.
        -- apply app_normalized_mono; fold lo hi; lra.
Qed.

End Volume.

(** ** Tracks of [EnhancedAudioSynthesisService] *)

Section EnhancedTracks.
Import JS Enhanced.

(** C10.  On a device without a registered track, [updateSensorDistance]
    and the four track setters return the state they were given: nothing
    is raised and no track or configuration field changes. *)
Theorem unregistered_device_noop (s : Service) (d : string) (x : R) :
  audioTracks s !! d = None ->
  updateSensorDistance d x s = s /\
  setTrackVolume d x s = s /\
  setTrackPitch d x s = s /\
  setTrackReverb d x s = s /\
  setTrackFilter d x s = s.
Proof.
  intros Hd.
  unfold updateSensorDistance, setTrackVolume, setTrackPitch, setTrackReverb,
    setTrackFilter, setTrackControl.
  rewrite Hd. repeat split; reflexivity.
Qed.

Lemma unregistered_device_noop_witness :
  audioTracks Examples.registered !! "ghost" = None /\
  (updateSensorDistance "ghost" 42 Examples.registered = Examples.registered /\
   setTrackVolume "ghost" 42 Examples.registered = Examples.registered /\
   setTrackPitch "ghost" 42 Examples.registered = Examples.registered /\
   setTrackReverb "ghost" 42 Examples.registered = Examples.registered /\
   setTrackFilter "ghost" 42 Examples.registered = Examples.registered).
Proof.
  assert (H : audioTracks Examples.registered !! "ghost" = None) by reflexivity.
  split; [exact H|].
  exact (unregistered_device_noop Examples.registered "ghost" 42 H).
Defined.

Lemma stopAudioTrack_playing s d t :
  audioTracks s !! d = Some t -> playing t = true ->
  audioTracks (stopAudioTrack d s) !! d = Some (stopped t).
Proof.
  intros Hd Hp. unfold stopAudioTrack. rewrite Hd, Hp. simpl.
  apply lookup_insert_eq.
Qed.

(** C7.  Stopping a playing track makes it idle in that very call: after
    [stopAudioTrack] the track of the device is not playing and has no
    audio node left.  No duration is consulted.  The same holds for
    [stopTrackAudio] of [AudioSynthesisService]. *)
Theorem stop_is_immediate :
  (forall s d t,
      audioTracks s !! d = Some t -> playing t = true ->
      exists t',
        audioTracks (stopAudioTrack d s) !! d = Some t' /\
        playing t' = false /\
        oscillator t' = None /\ audioSourceNode t' = None /\
        gainNode t' = None /\ filterNode t' = None /\ reverbNode t' = None) /\
  (forall t,
      Basic.isPlaying t = true ->
      Basic.isPlaying (Basic.stopTrackAudio t) = false /\
      Basic.noteHeld (Basic.stopTrackAudio t) = false).
Proof.
  split.
  - intros s d t Hd Hp. exists (stopped t).
    split; [apply stopAudioTrack_playing; assumption|].
    simpl. repeat split; reflexivity.
  - intros t Hp. unfold Basic.stopTrackAudio. rewrite Hp. simpl. split; reflexivity.
Qed.

(** *** A run of the service *)

(** Clamps of numerals: the inner [Math.min] first, then the [Math.max]. *)
Ltac eval_clamps :=
  unfold Math_max, Math_min;
  repeat first
    [ rewrite Rmin_left by lra | rewrite Rmin_right by lra
    | rewrite Rmax_left by lra | rewrite Rmax_right by lra ];
  try lra.

Lemma registered_eq :
  Examples.registered
  = with_audioTracks {[ "dev" := newTrack "dev" "Device" Examples.osc_mid ]}
      (new true).
Proof. reflexivity. Qed.

Lemma registered_volume_5 :
  calculateVolumeFromDistance Examples.registered 5 = 8 / 10.
Proof.
  rewrite registered_eq.
  rewrite calculateVolumeFromDistance_near; simpl; lra.
Qed.

Lemma registered_effects_5 :
  calculateDistanceEffects Examples.registered 5
  = {| e_pitch := 1075 / 1000; e_filter := 1; e_reverb := 0 |}.
Proof.
  rewrite registered_eq. unfold calculateDistanceEffects.
  rewrite normalizedDistance_near by (simpl; lra).
  simpl. f_equal; eval_clamps.
Qed.

Lemma started_eq :
  Examples.started
  = with_audioTracks {[ "dev" := Examples.started_track ]} (new true).
Proof.
  unfold Examples.started, updateSensorDistance.
  rewrite registered_volume_5, registered_effects_5.
  rewrite registered_eq. simpl.
  rewrite lookup_singleton_eq. simpl.
  rewrite (gt_true (8 / 10) 0) by lra. simpl.
  unfold startAudioTrack. simpl.
  rewrite lookup_insert_eq. simpl.
  unfold with_audioTracks. simpl. f_equal.
  rewrite !insert_insert_eq, insert_singleton_eq. f_equal.
  unfold startAudioTrack_chain, updateAudioTrack, with_nodes, with_playing. simpl.
  unfold Examples.started_track.
  f_equal; try lra; do 2 f_equal; eval_clamps.
Qed.

Lemma started_track_eq :
  audioTracks Examples.started !! "dev" = Some Examples.started_track.
Proof. rewrite started_eq. simpl. apply lookup_singleton_eq. Qed.

Lemma stop_is_immediate_witness :
  (audioTracks Examples.started !! "dev" = Some Examples.started_track /\
   playing Examples.started_track = true /\
   exists t',
     audioTracks (stopAudioTrack "dev" Examples.started) !! "dev" = Some t' /\
     playing t' = false /\
     oscillator t' = None /\ audioSourceNode t' = None /\
     gainNode t' = None /\ filterNode t' = None /\ reverbNode t' = None) /\
  (Basic.isPlaying Examples.sounding = true /\
   Basic.isPlaying (Basic.stopTrackAudio Examples.sounding) = false /\
   Basic.noteHeld (Basic.stopTrackAudio Examples.sounding) = false).
Proof.
  split.
  - split; [exact started_track_eq|]. split; [reflexivity|].
    exact (proj1 stop_is_immediate Examples.started "dev" Examples.started_track
             started_track_eq eq_refl).
  - split; [reflexivity|].
    exact (proj2 stop_is_immediate Examples.sounding eq_refl).
Defined.

(** *** Distance updates on a playing track *)

Lemma updateAudioTrack_playing s t : playing (updateAudioTrack s t) = playing t.
Proof.
  unfold updateAudioTrack.
  destruct (negb (playing t) || negb (audioContext s)); reflexivity.
Qed.

(** The track a playing device has after a distance update: the new
    parameters are stored and written to the nodes; a volume of zero
    also stops the track. *)
Lemma updateSensorDistance_playing s d t x :
  audioTracks s !! d = Some t -> playing t = true ->
  audioTracks (updateSensorDistance d x s) !! d
  = Some
      (let v := calculateVolumeFromDistance s x in
       let t1 :=
         updateAudioTrack s (with_distance v (calculateDistanceEffects s x) t) in
       if strict_eq v 0 then stopped t1 else t1).
Proof.
  intros Hd Hp. unfold updateSensorDistance. rewrite Hd. cbv zeta.
  set (v := calculateVolumeFromDistance s x).
  set (t0 := with_distance v (calculateDistanceEffects s x) t).
  assert (Hp0 : playing t0 = true) by exact Hp.
  rewrite Hp0.
  assert (Hp1 : playing (updateAudioTrack s t0) = true)
    by (rewrite updateAudioTrack_playing; exact Hp0).
  rewrite Hp1. simpl negb. rewrite andb_false_r, andb_true_r.
  destruct (strict_eq v 0).
  - apply stopAudioTrack_playing; [apply lookup_insert_eq | exact Hp1].
  - apply lookup_insert_eq.
Qed.

(** C1, as the code has it.  A distance update on a playing track takes
    effect in the call itself: the track's volume and distance effects
    become those of the new distance, and, unless the new volume is zero,
    the track keeps playing with the gain, playback rate, oscillator
    frequency, filter and delay of its nodes rewritten from them.  A new
    volume of zero stops the track.  Nothing is kept pending. *)
Theorem update_while_playing_is_applied_at_once (s : Service) (d : string)
    (t : AudioTrack) (x : R) :
  audioTracks s !! d = Some t -> playing t = true -> audioContext s = true ->
  let v := calculateVolumeFromDistance s x in
  let e := calculateDistanceEffects s x in
  exists t',
    audioTracks (updateSensorDistance d x s) !! d = Some t' /\
    volume t' = v /\
    distancePitch t' = e_pitch e /\
    distanceFilter t' = e_filter e /\
    distanceReverb t' = e_reverb e /\
    (v = 0 -> playing t' = false) /\
    (v <> 0 ->
     playing t' = true /\
     (forall n, gainNode t = Some n ->
                gainNode t' = Some {| gain := v * nodeVolume t * globalVolume s |}) /\
     (forall n, audioSourceNode t = Some n ->
                audioSourceNode t'
                = Some {| buffer := buffer n; loop := loop n;
                          playbackRate := pitch t * e_pitch e |}) /\
     (forall n f, oscillator t = Some n ->
                  type (audioSource t) = type_oscillator f ->
                  oscillator t'
                  = Some {| osc_frequency := f * (pitch t * e_pitch e) |}) /\
     (forall n, filterNode t = Some n ->
                filterNode t'
                = Some {| filter_frequency := 22050 * (filter t * e_filter e) |}) /\
     (forall n, reverbNode t = Some n ->
                reverbNode t'
                = Some {| delayTime :=
                            3 / 100
                            + Math_min (1 / 2) (reverb t + e_reverb e) * (1 / 10) |})).
Proof.
  intros Hd Hp Hctx v e.
  eexists. split; [exact (updateSensorDistance_playing s d t x Hd Hp)|].
  cbv zeta. fold v e.
  assert (Hup : updateAudioTrack s (with_distance v e t)
                = with_nodes
                    (match oscillator t, type (audioSource t) with
                     | Some _, type_oscillator f =>
                         Some {| osc_frequency := f * (pitch t * e_pitch e) |}
                     | node, _ => node
                     end)
                    (match audioSourceNode t with
                     | Some n => Some {| buffer := buffer n; loop := loop n;
                                         playbackRate := pitch t * e_pitch e |}
                     | None => None
                     end)
                    (match gainNode t with
                     | Some _ => Some {| gain := v * nodeVolume t * globalVolume s |}
                     | None => None
                     end)
                    (match filterNode t with
                     | Some _ =>
                         Some {| filter_frequency := 22050 * (filter t * e_filter e) |}
                     | None => None
                     end)
                    (match reverbNode t with
                     | Some _ =>
                         Some {| delayTime :=
                                   3 / 100
                                   + Math_min (1 / 2) (reverb t + e_reverb e)
                                     * (1 / 10) |}
                     | None => None
                     end)
                    (with_distance v e t)).
  { unfold updateAudioTrack. simpl. rewrite Hp, Hctx. reflexivity. }
  rewrite Hup.
  destruct (Req_dec_T v 0) as [Hv|Hv].
  - rewrite (strict_eq_true v 0 Hv). simpl.
    split; [reflexivity|]. split; [reflexivity|]. split; [reflexivity|].
    split; [reflexivity|]. split; [reflexivity|].
    intros Hne. contradiction.
  - rewrite (strict_eq_false v 0 Hv). simpl.
    split; [reflexivity|]. split; [reflexivity|]. split; [reflexivity|].
    split; [reflexivity|]. split; [intros E; contradiction|].
    intros _. split; [exact Hp|].
    split; [intros n ->; reflexivity|].
    split; [intros n ->; reflexivity|].
    split; [intros n f -> ->; reflexivity|].
    split; [intros n ->; reflexivity|].
    intros n ->; reflexivity.
Qed.

Lemma started_volume_200 :
  calculateVolumeFromDistance Examples.started 200 = 8 / 1000.
Proof.
  rewrite started_eq.
  rewrite calculateVolumeFromDistance_ratio by (simpl; lra).
  rewrite normalizedDistance_far by (simpl; lra).
  simpl volumeCurve. rewrite inverse_square_closed by lra.
  simpl. field.
Qed.

Lemma started_effects_200 :
  calculateDistanceEffects Examples.started 200
  = {| e_pitch := 925 / 1000; e_filter := 3 / 10; e_reverb := 4 / 10 |}.
Proof.
  rewrite started_eq. unfold calculateDistanceEffects.
  rewrite normalizedDistance_far by (simpl; lra).
  simpl. f_equal; eval_clamps.
Qed.

Lemma update_while_playing_is_applied_at_once_witness :
  audioTracks Examples.started !! "dev" = Some Examples.started_track /\
  playing Examples.started_track = true /\
  audioContext Examples.started = true /\
  exists t',
    audioTracks (updateSensorDistance "dev" 200 Examples.started) !! "dev"
    = Some t' /\
    volume t' = calculateVolumeFromDistance Examples.started 200.
Proof.
  assert (Hctx : audioContext Examples.started = true)
    by (rewrite started_eq; reflexivity).
  split; [exact started_track_eq|]. split; [reflexivity|].
  split; [exact Hctx|].
  destruct (update_while_playing_is_applied_at_once Examples.started "dev"
              Examples.started_track 200 started_track_eq eq_refl Hctx)
    as (t' & Ht' & Hv & _).
  exists t'. split; [exact Ht' | exact Hv].
Defined.

(** C1, as the claim has it, fails: the device of [started] is playing at
    volume 0.8 with gain 0.392; a report of 200 cm leaves it playing and
    changes its volume, its pitch and the gain of its node in that call. *)
Lemma update_while_playing_counterexample :
  exists t t',
    audioTracks Examples.started !! "dev" = Some t /\
    playing t = true /\
    audioTracks (updateSensorDistance "dev" 200 Examples.started) !! "dev"
    = Some t' /\
    playing t' = true /\
    volume t = 8 / 10 /\ volume t' = 8 / 1000 /\
    distancePitch t = 1075 / 1000 /\ distancePitch t' = 925 / 1000 /\
    gainNode t = Some {| gain := 392 / 1000 |} /\
    gainNode t' = Some {| gain := 392 / 100000 |} /\
    volume t' <> volume t /\ gainNode t' <> gainNode t.
Proof.
  pose proof (updateSensorDistance_playing Examples.started "dev"
                Examples.started_track 200 started_track_eq eq_refl) as Ht'.
  cbv zeta in Ht'.
  rewrite started_volume_200, started_effects_200 in Ht'.
  rewrite (strict_eq_false (8 / 1000) 0) in Ht' by lra.
  set (t' := updateAudioTrack _ _) in Ht'.
  assert (Hplay : playing t' = true)
    by (unfold t'; rewrite updateAudioTrack_playing; reflexivity).
  assert (Hv : volume t' = 8 / 1000)
    by (unfold t'; rewrite started_eq; reflexivity).
  assert (Hp : distancePitch t' = 925 / 1000)
    by (unfold t'; rewrite started_eq; reflexivity).
  assert (Hg : gainNode t' = Some {| gain := 392 / 100000 |}).
  { unfold t'. rewrite started_eq. unfold updateAudioTrack. simpl.
    do 2 f_equal. lra. }
  exists Examples.started_track, t'.
  split; [exact started_track_eq|]. split; [reflexivity|].
  split; [exact Ht'|]. split; [exact Hplay|].
  split; [reflexivity|]. split; [exact Hv|].
  split; [reflexivity|]. split; [exact Hp|].
  split; [reflexivity|]. split; [exact Hg|].
  split.
  - rewrite Hv. simpl. lra.
  - rewrite Hg. simpl. intros E. injection E as E. lra.
Qed.

(** The state [started] is one the service reaches. *)
Lemma started_Reachable : Reachable Examples.started.
Proof.
  apply (Reachable_call (CupdateSensorDistance "dev" 5)).
  apply (Reachable_call (CsetAudioTrack "dev" "Device" Examples.osc_mid)).
  apply Reachable_new.
Qed.

End EnhancedTracks.

(** ** The audio parameter mapping against its specification *)

Section AudioParameterMapper.
Import JS.

Lemma finalVolume_scaled limit r :
  0 <= limit -> 0 <= r <= 1 -> Spec.finalVolume 0 limit limit r = r * limit.
Proof.
  intros Hl Hr. unfold Spec.finalVolume, Spec.clamp.
  rewrite Rmin_right by nra. rewrite Rmax_right by nra. ring.
Qed.

(** C2, as the code has it.  In [EnhancedAudioSynthesisService] there is no
    volume range: the volume is the ratio of the curve times
    [maxVolumeLimit], which is the formula of the specification for
    [minVolume = 0] and [maxVolume = volumeLimit].  In [ProfessionalApp]
    there is no volume limit: the volume is [maxVolume] up to
    [minDistance], [minVolume] from [maxDistance] on, and in between the
    nearest whole number to
    [minVolume + (maxVolume - minVolume) * volumeRatio (t)]. *)
Theorem final_volume_formula :
  (forall s d,
      Enhanced.Reachable s ->
      let t := Spec.normalize (Enhanced.minDistance s) (Enhanced.maxDistance s) d in
      let ratio := Enhanced.volumeRatio (Enhanced.volumeCurve s) t in
      Enhanced.calculateVolumeFromDistance s d = ratio * Enhanced.maxVolumeLimit s /\
      Enhanced.calculateVolumeFromDistance s d
      = Spec.finalVolume 0 (Enhanced.maxVolumeLimit s) (Enhanced.maxVolumeLimit s)
          ratio) /\
  (forall c d,
      let t :=
        Spec.normalize (ProfessionalApp.minDistance c) (ProfessionalApp.maxDistance c) d in
      let ratio := ProfessionalApp.volumeRatio (ProfessionalApp.volumeDecayType c) t in
      (d <= ProfessionalApp.minDistance c ->
       ProfessionalApp.calculateVolumeFromDistance c d = ProfessionalApp.maxVolume c) /\
      (ProfessionalApp.minDistance c < d -> ProfessionalApp.maxDistance c <= d ->
       ProfessionalApp.calculateVolumeFromDistance c d = ProfessionalApp.minVolume c) /\
      (ProfessionalApp.minDistance c < d < ProfessionalApp.maxDistance c ->
       ProfessionalApp.calculateVolumeFromDistance c d
       = Math_round
           (ProfessionalApp.minVolume c
            + (ProfessionalApp.maxVolume c - ProfessionalApp.minVolume c) * ratio))).
Proof.
  split.
  - intros s d Hs t ratio.
    destruct (Reachable_Invariant s Hs) as (H0 & H1 & [H2 H3] & _).
    assert (Hr : Enhanced.minDistance s < Enhanced.maxDistance s) by lra.
    assert (E : Enhanced.calculateVolumeFromDistance s d
                = ratio * Enhanced.maxVolumeLimit s)
      by (apply calculateVolumeFromDistance_ratio, Hr).
    split; [exact E|].
    rewrite E. symmetry. apply finalVolume_scaled; [lra|].
    apply volumeRatio_range. exact (normalizedDistance_range s Hr d).
  - intros c d t ratio. split; [apply app_volume_near|].
    split; [apply app_volume_far|].
    intros Hin. rewrite app_volume_between by exact Hin.
    unfold ratio, t, Spec.normalize, Spec.clamp.
    rewrite Rmin_right by lra. rewrite Rmax_right by lra. reflexivity.
Qed.

Lemma final_volume_formula_witness :
  Enhanced.Reachable (Enhanced.new true) /\
  Enhanced.calculateVolumeFromDistance (Enhanced.new true) 100
  = Enhanced.volumeRatio Enhanced.inverse_square (Spec.normalize 5 200 100)
    * (8 / 10) /\
  5 < 6 < 200 /\
  ProfessionalApp.calculateVolumeFromDistance ProfessionalApp.initial 6
  = Math_round
      (5 + (100 - 5) * ProfessionalApp.volumeRatio "linear" (Spec.normalize 5 200 6)).
Proof.
  assert (Hs : Enhanced.Reachable (Enhanced.new true)) by constructor.
  assert (Hin : 5 < 6 < 200) by lra.
  split; [exact Hs|].
  split; [exact (proj1 (proj1 final_volume_formula (Enhanced.new true) 100 Hs))|].
  split; [exact Hin|].
  exact (proj2 (proj2 (proj2 final_volume_formula ProfessionalApp.initial 6)) Hin).
Defined.

Lemma Math_round_eq (z : Z) x : IZR z - / 2 <= x < IZR z + / 2 -> Math_round x = IZR z.
Proof.
  intros H. unfold Math_round. f_equal. apply Zfloor_eq. lra.
Qed.

Lemma app_initial_6_unrounded :
  5 + (100 - 5) * (1 - (6 - 5) / (200 - 5)) = 5 + 95 * (194 / 195).
Proof. field. Qed.

Lemma app_volumeRatio_linear t : ProfessionalApp.volumeRatio "linear" t = 1 - t.
Proof.
  unfold ProfessionalApp.volumeRatio.
  destruct (decide _); [discriminate|]. destruct (decide _); [discriminate|].
  reflexivity.
Qed.

Lemma app_volumeRatio_exponential t :
  ProfessionalApp.volumeRatio "exponential" t = exp (- 3 * t).
Proof.
  unfold ProfessionalApp.volumeRatio.
  destruct (decide _); [reflexivity | contradiction].
Qed.

Lemma app_initial_6 :
  ProfessionalApp.calculateVolumeFromDistance ProfessionalApp.initial 6 = 100.
Proof.
  rewrite app_volume_between by (simpl; lra).
  simpl ProfessionalApp.volumeDecayType. rewrite app_volumeRatio_linear.
  simpl. rewrite app_initial_6_unrounded.
  apply (Math_round_eq 100). lra.
Qed.

(** C2, as the claim has it, fails: with the initial settings of
    [ProfessionalApp] (distances 5 to 200, volumes 5 to 100, linear decay)
    a distance of 6 gives [5 + 95 * (194 / 195)], about 99.51, which the
    code rounds to 100; the clamp of the claim never exceeds the unrounded
    value, whatever the volume limit. *)
Lemma final_volume_counterexample :
  ProfessionalApp.calculateVolumeFromDistance ProfessionalApp.initial 6 = 100 /\
  forall volumeLimit,
    ProfessionalApp.calculateVolumeFromDistance ProfessionalApp.initial 6
    <> Spec.finalVolume 5 100 volumeLimit
         (Spec.volumeRatio Spec.default_k (1 / 9) Spec.linear (Spec.normalize 5 200 6)).
Proof.
  split; [exact app_initial_6|].
  intros L. rewrite app_initial_6.
  unfold Spec.finalVolume, Spec.volumeRatio, Spec.normalize, Spec.clamp.
  rewrite (Rmin_right 200 6) by lra. rewrite (Rmax_right 5 6) by lra.
  rewrite app_initial_6_unrounded.
  pose proof (Rmin_r L (5 + 95 * (194 / 195))) as Hmin.
  unfold Rmax. destruct (Rle_dec 0 (Rmin L (5 + 95 * (194 / 195)))); lra.
Qed.

(** *** Monotonicity *)

(** C3, as the code has it.  In every reachable state of
    [EnhancedAudioSynthesisService] whose distance range is a proper one,
    [minDistance < maxDistance], and for each of its four curves, the
    volume does not increase with the distance.  (With a range of width
    zero the code divides zero by zero and the volume is [NaN] at every
    distance.)  The mapping of [ProfessionalApp] (linear, exponential,
    logarithmic) does not increase with the distance when
    [minVolume <= maxVolume] and both are whole numbers. *)
Theorem volume_antitone :
  (forall s d1 d2,
      Enhanced.Reachable s ->
      Enhanced.minDistance s < Enhanced.maxDistance s ->
      d1 <= d2 ->
      Enhanced.calculateVolumeFromDistance s d2
      <= Enhanced.calculateVolumeFromDistance s d1) /\
  (forall c (zmin zmax : Z) d1 d2,
      ProfessionalApp.minVolume c = IZR zmin ->
      ProfessionalApp.maxVolume c = IZR zmax ->
      ProfessionalApp.minVolume c <= ProfessionalApp.maxVolume c ->
      d1 <= d2 ->
      ProfessionalApp.calculateVolumeFromDistance c d2
      <= ProfessionalApp.calculateVolumeFromDistance c d1).
Proof.
  split.
  - intros s d1 d2 Hs Hr Hd.
    destruct (Reachable_limits s Hs) as ([H2 H3] & _).
    apply calculateVolumeFromDistance_antitone; [exact Hr | lra | exact Hd].
  - intros c zmin zmax d1 d2. apply app_volume_antitone.
Qed.

Lemma volume_antitone_witness :
  let s := Enhanced.call (Enhanced.CsetVolumeCurve Enhanced.exponential)
             (Enhanced.new true) in
  (Enhanced.Reachable s /\
   Enhanced.minDistance s < Enhanced.maxDistance s /\ 20 <= 150 /\
   Enhanced.calculateVolumeFromDistance s 150
   <= Enhanced.calculateVolumeFromDistance s 20) /\
  (ProfessionalApp.minVolume ProfessionalApp.initial = IZR 5 /\
   ProfessionalApp.maxVolume ProfessionalApp.initial = IZR 100 /\
   ProfessionalApp.minVolume ProfessionalApp.initial
   <= ProfessionalApp.maxVolume ProfessionalApp.initial /\
   20 <= 150 /\
   ProfessionalApp.calculateVolumeFromDistance ProfessionalApp.initial 150
   <= ProfessionalApp.calculateVolumeFromDistance ProfessionalApp.initial 20).
Proof.
  intros s.
  assert (Hs : Enhanced.Reachable s) by (repeat constructor).
  assert (Hr : Enhanced.minDistance s < Enhanced.maxDistance s) by (simpl; lra).
  assert (Hd : 20 <= 150) by lra.
  assert (Hv : ProfessionalApp.minVolume ProfessionalApp.initial
               <= ProfessionalApp.maxVolume ProfessionalApp.initial)
    by (simpl; lra).
  split.
  - split; [exact Hs|]. split; [exact Hr|]. split; [exact Hd|].
    exact (proj1 volume_antitone s 20 150 Hs Hr Hd).
  - split; [reflexivity|]. split; [reflexivity|]. split; [exact Hv|].
    split; [exact Hd|].
    exact (proj2 volume_antitone ProfessionalApp.initial 5%Z 100%Z 20 150
             eq_refl eq_refl Hv Hd).
Defined.

(** Settings of [ProfessionalApp] that its number fields accept. *)
Lemma app_fractional_unrounded :
  5 + (996 / 10 - 5) * (1 - (51 / 10 - 5) / (200 - 5))
  = 996 / 10 - 946 / 19500.
Proof. field. Qed.

(** C3, as the claim has it, fails on [ProfessionalApp].  With a maximal
    volume of 99.6 the volume at the minimal distance 5 is 99.6, returned
    as it is, and at 5.1 it is about 99.55 rounded to 100: it went up.
    With the volume bounds swapped (100 and 0) the volume is 0 at distance
    5 and 100 at distance 200. *)
Lemma volume_antitone_counterexample :
  (let c := {| ProfessionalApp.volumeDecayType := "linear";
               ProfessionalApp.minDistance := 5;
               ProfessionalApp.maxDistance := 200;
               ProfessionalApp.minVolume := 5;
               ProfessionalApp.maxVolume := 996 / 10 |} in
   5 <= 51 / 10 /\
   ProfessionalApp.calculateVolumeFromDistance c 5 = 996 / 10 /\
   ProfessionalApp.calculateVolumeFromDistance c (51 / 10) = 100 /\
   ~ ProfessionalApp.calculateVolumeFromDistance c (51 / 10)
     <= ProfessionalApp.calculateVolumeFromDistance c 5) /\
  (let c := {| ProfessionalApp.volumeDecayType := "linear";
               ProfessionalApp.minDistance := 5;
               ProfessionalApp.maxDistance := 200;
               ProfessionalApp.minVolume := 100;
               ProfessionalApp.maxVolume := 0 |} in
   5 <= 200 /\
   ProfessionalApp.calculateVolumeFromDistance c 5 = 0 /\
   ProfessionalApp.calculateVolumeFromDistance c 200 = 100 /\
   ~ ProfessionalApp.calculateVolumeFromDistance c 200
     <= ProfessionalApp.calculateVolumeFromDistance c 5).
Proof.
  split; intros c.
  - assert (E1 : ProfessionalApp.calculateVolumeFromDistance c 5 = 996 / 10)
      by (apply app_volume_near; simpl; lra).
    assert (E2 : ProfessionalApp.calculateVolumeFromDistance c (51 / 10) = 100).
    { rewrite app_volume_between by (simpl; lra).
      simpl ProfessionalApp.volumeDecayType. rewrite app_volumeRatio_linear.
      simpl. rewrite app_fractional_unrounded.
      apply (Math_round_eq 100). lra. }
    split; [lra|]. split; [exact E1|]. split; [exact E2|].
    rewrite E1, E2. lra.
  - assert (E1 : ProfessionalApp.calculateVolumeFromDistance c 5 = 0)
      by (apply app_volume_near; simpl; lra).
    assert (E2 : ProfessionalApp.calculateVolumeFromDistance c 200 = 100)
      by (apply app_volume_far; simpl; lra).
    split; [lra|]. split; [exact E1|]. split; [exact E2|].
    rewrite E1, E2. lra.
Qed.

(** *** The curves *)

Lemma spec_inverseSquare_ninth k t :
  0 <= t ->
  Spec.volumeRatio k (1 / 9) Spec.inverseSquare t = 1 / ((1 + 9 * t) * (1 + 9 * t)).
Proof. intros Ht. unfold Spec.volumeRatio. field. lra. Qed.

(** C4, as the code has it.  On [0, 1] the ratio of
    [EnhancedAudioSynthesisService] is the curve of the specification with
    the decay constant fixed to 4 and [epsilon = 1/9], the inverse-square
    curve being divided by its value at 0: [1 - t], [exp (-4 t)],
    [1 - log10 (1 + 9 t)] and [1 / (1 + 9 t)^2].  The ratio of
    [ProfessionalApp] is [1 - t], [exp (-3 t)] or [1 - log10 (1 + 9 t)].
    Neither decay constant can be configured. *)
Theorem volume_ratio_curves (t : R) :
  0 <= t <= 1 ->
  (forall curve,
      Enhanced.volumeRatio curve t
      = Spec.volumeRatio 4 (1 / 9) (Spec.curve_of curve) t) /\
  (forall decayType,
      ProfessionalApp.volumeRatio decayType t
      = Spec.volumeRatio 3 (1 / 9) (Spec.curve_of_decayType decayType) t) /\
  Enhanced.volumeRatio Enhanced.linear t = 1 - t /\
  Enhanced.volumeRatio Enhanced.exponential t = exp (- 4 * t) /\
  Enhanced.volumeRatio Enhanced.logarithmic t = 1 - Math_log10 (1 + 9 * t) /\
  Enhanced.volumeRatio Enhanced.inverse_square t
  = 1 / ((1 + 9 * t) * (1 + 9 * t)).
Proof.
  intros Ht.
  assert (Hlin : Enhanced.volumeRatio Enhanced.linear t = 1 - t) by reflexivity.
  assert (Hexp : Enhanced.volumeRatio Enhanced.exponential t = exp (- 4 * t))
    by reflexivity.
  assert (Hlog : Enhanced.volumeRatio Enhanced.logarithmic t
                 = 1 - Math_log10 (1 + 9 * t))
    by (apply logarithmic_closed, Ht).
  assert (Hinv : Enhanced.volumeRatio Enhanced.inverse_square t
                 = 1 / ((1 + 9 * t) * (1 + 9 * t)))
    by (apply inverse_square_closed; lra).
  split; [|split; [|tauto]].
  - intros [| | |]; simpl Spec.curve_of.
    + rewrite Hinv, spec_inverseSquare_ninth by lra. reflexivity.
    + exact Hexp.
    + exact Hlog.
    + exact Hlin.
  - intros decayType.
    unfold ProfessionalApp.volumeRatio, Spec.curve_of_decayType.
    destruct (decide (decayType = "exponential"%string)); [reflexivity|].
    destruct (decide (decayType = "logarithmic"%string)); [|reflexivity].
    unfold Spec.volumeRatio, Math_log.
    replace (1 + t * 9) with (1 + 9 * t) by ring. reflexivity.
Qed.

Lemma volume_ratio_curves_witness :
  0 <= 1 / 2 <= 1 /\
  Enhanced.volumeRatio Enhanced.exponential (1 / 2) = exp (- 4 * (1 / 2)) /\
  Enhanced.volumeRatio Enhanced.inverse_square (1 / 2)
  = 1 / ((1 + 9 * (1 / 2)) * (1 + 9 * (1 / 2))).
Proof.
  assert (H : 0 <= 1 / 2 <= 1) by lra.
  split; [exact H|].
  destruct (volume_ratio_curves (1 / 2) H) as (_ & _ & _ & Hexp & _ & Hinv).
  split; [exact Hexp | exact Hinv].
Defined.

Lemma exp_neq x y : x < y -> exp x <> exp y.
Proof. intros H E. pose proof (exp_increasing x y H). lra. Qed.

(** C4, as the claim has it, fails on the exponential curve.  The ratio of
    the service takes no decay constant: it is [exp (-4)] at [t = 1]
    whatever [k] is asked for, and so differs from [exp (-k * 1)] for
    [k = 2].  In [ProfessionalApp] the constant is 3, not the default 4. *)
Lemma volume_ratio_counterexample :
  Enhanced.volumeRatio Enhanced.exponential 1
  <> Spec.volumeRatio 2 (1 / 9) Spec.exponential 1 /\
  ProfessionalApp.volumeRatio "exponential" 1
  <> Spec.volumeRatio Spec.default_k (1 / 9) Spec.exponential 1.
Proof.
  split.
  - simpl. unfold Math_exp. apply exp_neq. lra.
  - rewrite app_volumeRatio_exponential. unfold Spec.volumeRatio, Spec.default_k.
    apply not_eq_sym, exp_neq. lra.
Qed.

(** *** Pitch *)

(** The pitch the code computes when the effect is on. *)
Lemma pitch_enabled s d :
  Enhanced.enabled (Enhanced.distanceEffects s) = true ->
  Enhanced.pitchEffect (Enhanced.distanceEffects s) = true ->
  Enhanced.e_pitch (Enhanced.calculateDistanceEffects s d)
  = Math_max (1 / 2)
      (Math_min 2
         (1 + (1 - Enhanced.normalizedDistance s d)
              * Enhanced.pitchRange (Enhanced.distanceEffects s) * (1 / 2)
          - Enhanced.pitchRange (Enhanced.distanceEffects s) * (1 / 4))).
Proof.
  intros He Hp. unfold Enhanced.calculateDistanceEffects.
  rewrite He, Hp. reflexivity.
Qed.

(** C5 at the defaults of the service ([pitchRange = 0.3], distances 5 to
    200).  At 5 cm the code gives a pitch of 1.075 where the formula of the
    claim gives 1.15; at 200 cm it gives 0.925 where the formula gives
    0.85.  The comment of the code announces 0.85 to 1.15. *)
Theorem pitch_is_half_the_documented_swing :
  Enhanced.e_pitch (Enhanced.calculateDistanceEffects (Enhanced.new true) 5)
  = 1075 / 1000 /\
  Spec.pitch (3 / 10) (Enhanced.normalizedDistance (Enhanced.new true) 5)
  = 115 / 100 /\
  Enhanced.e_pitch (Enhanced.calculateDistanceEffects (Enhanced.new true) 200)
  = 925 / 1000 /\
  Spec.pitch (3 / 10) (Enhanced.normalizedDistance (Enhanced.new true) 200)
  = 85 / 100.
Proof.
  assert (Hr : Enhanced.minDistance (Enhanced.new true)
               < Enhanced.maxDistance (Enhanced.new true)) by (simpl; lra).
  rewrite !pitch_enabled by reflexivity.
  rewrite (normalizedDistance_near _ 5) by (simpl; lra).
  rewrite (normalizedDistance_far _ Hr 200) by (simpl; lra).
  unfold Spec.pitch, Spec.clamp, Math_max, Math_min. simpl.
  repeat split.
  - rewrite Rmin_right by lra. rewrite Rmax_right by lra. lra.
  - rewrite Rmin_right by lra. rewrite Rmax_right by lra. lra.
  - rewrite Rmin_right by lra. rewrite Rmax_right by lra. lra.
  - rewrite Rmin_right by lra. rewrite Rmax_right by lra. lra.
Qed.

(** *** Switches *)







End AudioParameterMapper.

(** ** The trilateration solver *)

Section Solver.
Import Trilateration.

Variable cfg : Config.

Lemma ltb_true_iff a b : ltb a b = true <-> a < b.
Proof. unfold ltb. destruct (Rlt_dec a b); split; intros; (assumption || reflexivity || discriminate || contradiction). Qed.

Lemma ltb_false_iff a b : ltb a b = false <-> b <= a.
Proof.
  unfold ltb. destruct (Rlt_dec a b); split; intros H;
    try reflexivity; try discriminate; lra.
Qed.

(** The result of the selection loop: either the best candidate it was
    given, no valid candidate of the list being strictly smaller, or a
    valid candidate of the list that is strictly smaller than the given
    one and than every valid candidate before it, and not larger than any
    valid candidate after it. *)
Lemma select_Some (l : list Candidate) :
  forall best t,
    select cfg best l = Some t ->
    (best = Some t /\
     forall u, In u l -> valid cfg u = true -> area t <= area u) \/
    (exists before after,
        l = before ++ t :: after /\
        valid cfg t = true /\
        (forall b, best = Some b -> area t < area b) /\
        (forall u, In u before -> valid cfg u = true -> area t < area u) /\
        (forall u, In u after -> valid cfg u = true -> area t <= area u)).
Proof.
  induction l as [|t0 l IH]; intros best t Hsel; simpl in Hsel.
  - left. split; [exact Hsel|]. intros u [].
  - destruct (valid cfg t0) eqn:Hv0.
    + assert (Hnew :
        select cfg (Some t0) l = Some t ->
        (forall b, best = Some b -> area t0 < area b) ->
        exists before after,
          t0 :: l = before ++ t :: after /\
          valid cfg t = true /\
          (forall b, best = Some b -> area t < area b) /\
          (forall u, In u before -> valid cfg u = true -> area t < area u) /\
          (forall u, In u after -> valid cfg u = true -> area t <= area u)).
      { intros Hs Hb. destruct (IH _ _ Hs) as [[E Hl] | (bf & af & El & Hv & Hlt & Hbf & Haf)].
        - injection E as <-. exists [], l. repeat split; auto.
          intros u [].
        - exists (t0 :: bf), af. rewrite El.
          pose proof (Hlt t0 eq_refl) as Hlt0.
          repeat split; auto.
          + intros b Eb. specialize (Hb b Eb). lra.
          + intros u [<- | Hin] Hu; [exact Hlt0 | auto]. }
      destruct best as [b|].
      * destruct (ltb (area t0) (area b)) eqn:Hcmp.
        -- right. apply Hnew; [exact Hsel|].
           intros b' E. injection E as <-. apply ltb_true_iff, Hcmp.
        -- apply ltb_false_iff in Hcmp.
           destruct (IH _ _ Hsel) as [[E Hl] | (bf & af & El & Hv & Hlt & Hbf & Haf)].
           ++ left. split; [exact E|]. injection E as <-.
              intros u [<- | Hin] Hu; [exact Hcmp | auto].
           ++ right. exists (t0 :: bf), af. rewrite El.
              pose proof (Hlt b eq_refl) as Hltb.
              repeat split; auto.
              intros u [<- | Hin] Hu; [lra | auto].
      * right. apply Hnew; [exact Hsel|]. intros b E. discriminate.
    + destruct (IH _ _ Hsel) as [[E Hl] | (bf & af & El & Hv & Hlt & Hbf & Haf)].
      * left. split; [exact E|].
        intros u [<- | Hin] Hu; [congruence | auto].
      * right. exists (t0 :: bf), af. rewrite El.
        repeat split; auto.
        intros u [<- | Hin] Hu; [congruence | auto].
Qed.

(** The loop finds a candidate as soon as the list has a valid one. *)
Lemma select_is_Some (l : list Candidate) :
  forall best,
    (is_Some best \/ exists u, In u l /\ valid cfg u = true) ->
    is_Some (select cfg best l).
Proof.
  induction l as [|t0 l IH]; intros best H; simpl.
  - destruct H as [H | (u & [] & _)]. exact H.
  - destruct (valid cfg t0) eqn:Hv0.
    + destruct best as [b|].
      * destruct (ltb (area t0) (area b)); apply IH; left; eexists; reflexivity.
      * apply IH. left. eexists; reflexivity.
    + apply IH. destruct H as [H | (u & [<- | Hin] & Hu)].
      * left; exact H.
      * congruence.
      * right. exists u. split; assumption.
Qed.

(** *** Geometry of the intersection points *)

Lemma eqb_false_iff a b : eqb a b = false <-> a <> b.
Proof.
  unfold eqb. destruct (Req_dec_T a b); split; intros H;
    try reflexivity; try discriminate; try assumption; contradiction.
Qed.

Lemma leb_true_iff a b : leb a b = true <-> a <= b.
Proof.
  unfold leb. destruct (Rle_dec a b); split; intros H;
    try reflexivity; try discriminate; try assumption; contradiction.
Qed.

(** When two circles give intersection points the list has two of them. *)
Lemma intersections_two (si sj : Sensor) :
  let d := distance (position si) (position sj) in
  d <= radius si + radius sj ->
  Rabs (radius si - radius sj) <= d ->
  d <> 0 ->
  exists p q, intersections si sj = [p; q].
Proof.
  intros d H1 H2 H3. unfold intersections. fold d.
  rewrite (proj2 (ltb_false_iff _ _) H1), (proj2 (ltb_false_iff _ _) H2),
    (proj2 (eqb_false_iff _ _) H3).
  simpl. eexists. eexists. reflexivity.
Qed.

(** Both points lie on both circles: the property
    "|point - center_i| = r_i and |point - center_j| = r_j". *)
Lemma intersections_on_circles (si sj : Sensor) (p : Point) :
  In p (intersections si sj) ->
  distance p (position si) = radius si /\
  distance p (position sj) = radius sj.
Proof.
  unfold intersections. cbv zeta.
  destruct si as [[xi yi] ri], sj as [[xj yj] rj]. simpl position. simpl radius.
  set (d := distance {| px := xi; py := yi |} {| px := xj; py := yj |}).
  destruct (ltb (ri + rj) d || ltb d (Rabs (ri - rj)) || eqb d 0) eqn:Hc;
    [intros []|].
  apply orb_false_iff in Hc as [Hc H0].
  apply orb_false_iff in Hc as [H1 H2].
  apply ltb_false_iff in H1, H2. apply eqb_false_iff in H0.
  assert (Hd0 : 0 <= d) by apply sqrt_pos.
  assert (Hdpos : 0 < d) by lra.
  assert (Hdd : d * d = (xj - xi) * (xj - xi) + (yj - yi) * (yj - yi)).
  { unfold d, distance. simpl. rewrite sqrt_sqrt; [ring|].
    pose proof (Rle_0_sqr (xi - xj)) as Sx.
    pose proof (Rle_0_sqr (yi - yj)) as Sy.
    unfold Rsqr in Sx, Sy. lra. }
  pose proof (Rle_abs (ri - rj)) as Habs1.
  pose proof (Rle_abs (- (ri - rj))) as Habs2. rewrite Rabs_Ropp in Habs2.
  assert (Hri : 0 <= ri) by lra.
  assert (Hrj : 0 <= rj) by lra.
  clearbody d.
  set (a := (ri * ri - rj * rj + d * d) / (2 * d)).
  assert (Ha : 2 * a * d = ri * ri - rj * rj + d * d) by (unfold a; field; lra).
  assert (Hh2 : 0 <= ri * ri - a * a).
  { assert (E : 4 * (d * d) * (ri * ri - a * a)
                = (rj * rj - (d - ri) * (d - ri)) * ((d + ri) * (d + ri) - rj * rj))
      by (unfold a; field; lra).
    assert (A : 0 <= rj * rj - (d - ri) * (d - ri)).
    { replace (rj * rj - (d - ri) * (d - ri))
        with ((rj - (d - ri)) * (rj + (d - ri))) by ring.
      apply Rmult_le_pos; lra. }
    assert (B : 0 <= (d + ri) * (d + ri) - rj * rj).
    { replace ((d + ri) * (d + ri) - rj * rj)
        with ((d + ri - rj) * (d + ri + rj)) by ring.
      apply Rmult_le_pos; lra. }
    apply (Rmult_le_reg_l (4 * (d * d))); [nra|].
    rewrite Rmult_0_r, E. apply Rmult_le_pos; assumption. }
  clearbody a.
  set (h := sqrt (Rmax 0 (ri * ri - a * a))).
  assert (Hh : h * h = ri * ri - a * a).
  { unfold h. rewrite Rmax_right by exact Hh2. apply sqrt_sqrt, Hh2. }
  clearbody h.
  assert (Hi : forall e, e = ri * ri -> sqrt e = ri)
    by (intros e ->; apply sqrt_square, Hri).
  assert (Hj : forall e, e = rj * rj -> sqrt e = rj)
    by (intros e ->; apply sqrt_square, Hrj).
  assert (Hone : ((xj - xi) * (xj - xi) + (yj - yi) * (yj - yi)) / (d * d) = 1)
    by (rewrite <- Hdd; field; lra).
  intros [<- | [<- | []]]; unfold distance; simpl; split.
  - apply Hi.
    transitivity ((a * a + h * h)
                  * (((xj - xi) * (xj - xi) + (yj - yi) * (yj - yi)) / (d * d)));
      [field; lra | rewrite Hone; lra].
  - apply Hj.
    transitivity (((a - d) * (a - d) + h * h)
                  * (((xj - xi) * (xj - xi) + (yj - yi) * (yj - yi)) / (d * d)));
      [field; lra | rewrite Hone; nra].
  - apply Hi.
    transitivity ((a * a + h * h)
                  * (((xj - xi) * (xj - xi) + (yj - yi) * (yj - yi)) / (d * d)));
      [field; lra | rewrite Hone; lra].
  - apply Hj.
    transitivity (((a - d) * (a - d) + h * h)
                  * (((xj - xi) * (xj - xi) + (yj - yi) * (yj - yi)) / (d * d)));
      [field; lra | rewrite Hone; nra].
Qed.

(** *** The candidate triangles *)

Lemma In_lookup {A} (a : A) (l : list A) : In a l <-> exists i, l !! i = Some a.
Proof. rewrite <- list_elem_of_In. apply list_elem_of_lookup. Qed.

(** [pairs] lists the pairs of sensors in the order of the list. *)
Lemma In_pairs (l : list Sensor) (a b : Sensor) :
  In (a, b) (pairs l) <->
  exists i j, (i < j)%nat /\ l !! i = Some a /\ l !! j = Some b.
Proof.
  induction l as [|a0 l IH]; simpl.
  - split; [intros [] | intros (i & j & _ & H & _); discriminate].
  - rewrite in_app_iff, in_map_iff, IH. split.
    + intros [(b' & E & Hb) | (i & j & Hij & Hi & Hj)].
      * injection E as <- <-. apply In_lookup in Hb as [j Hj].
        exists 0%nat, (S j). split; [lia|]. split; [reflexivity | exact Hj].
      * exists (S i), (S j). split; [lia|]. split; assumption.
    + intros (i & j & Hij & Hi & Hj).
      destruct j as [|j]; [lia|]. simpl in Hj.
      destruct i as [|i]; simpl in Hi.
      * injection Hi as <-. left. exists b. split; [reflexivity|].
        apply In_lookup. exists j. exact Hj.
      * right. exists i, j. split; [lia|]. split; assumption.
Qed.

(** [triples] lists the triples of sensors in the order of the list. *)
Lemma In_triples (l : list Sensor) (a b c : Sensor) :
  In (a, b, c) (triples l) <->
  exists i j k, (i < j < k)%nat /\
                l !! i = Some a /\ l !! j = Some b /\ l !! k = Some c.
Proof.
  induction l as [|a0 l IH]; simpl.
  - split; [intros [] | intros (i & j & k & _ & H & _); discriminate].
  - rewrite in_app_iff, in_map_iff, IH. split.
    + intros [([b' c'] & E & Hbc) | (i & j & k & Hijk & Hi & Hj & Hk)].
      * simpl in E. injection E as <- <- <-.
        apply In_pairs in Hbc as (j & k & Hjk & Hj & Hk).
        exists 0%nat, (S j), (S k). split; [lia|]. split; [reflexivity|].
        split; assumption.
      * exists (S i), (S j), (S k). split; [lia|]. repeat split; assumption.
    + intros (i & j & k & Hijk & Hi & Hj & Hk).
      destruct j as [|j]; [lia|]. destruct k as [|k]; [lia|]. simpl in Hj, Hk.
      destruct i as [|i]; simpl in Hi.
      * injection Hi as <-. left. exists (b, c). split; [reflexivity|].
        apply In_pairs. exists j, k. split; [lia|]. split; assumption.
      * right. exists i, j, k. split; [lia|]. repeat split; assumption.
Qed.

(** The candidate triangles are exactly the triangles with one
    intersection point of each of the three pairs of circles of three
    sensors taken in the order of the list. *)
Lemma In_candidates (sensors : list Sensor) (t : Candidate) :
  In t (candidates sensors) <->
  (exists i j k, (i < j < k)%nat /\
                 sensors !! i = Some (s1 t) /\ sensors !! j = Some (s2 t) /\
                 sensors !! k = Some (s3 t)) /\
  In (p12 t) (intersections (s1 t) (s2 t)) /\
  In (p13 t) (intersections (s1 t) (s3 t)) /\
  In (p23 t) (intersections (s2 t) (s3 t)).
Proof.
  unfold candidates. rewrite in_flat_map. split.
  - intros ([[a b] c] & Habc & Ht). simpl in Ht.
    apply In_triples in Habc.
    unfold triangles in Ht. rewrite in_flat_map in Ht.
    destruct Ht as (q12 & H12 & Ht). rewrite in_flat_map in Ht.
    destruct Ht as (q13 & H13 & Ht). rewrite in_map_iff in Ht.
    destruct Ht as (q23 & <- & H23). simpl. auto.
  - intros (Habc & H12 & H13 & H23).
    exists (s1 t, s2 t, s3 t). split; [apply In_triples, Habc|].
    simpl. unfold triangles. rewrite in_flat_map.
    exists (p12 t). split; [exact H12|]. rewrite in_flat_map.
    exists (p13 t). split; [exact H13|]. rewrite in_map_iff.
    exists (p23 t). split; [destruct t; reflexivity | exact H23].
Qed.

(** The validity check, written out. *)
Lemma valid_iff (t : Candidate) :
  valid cfg t = true <->
  Rabs (distance (p12 t) (position (s1 t)) - radius (s1 t)) <= tolerance cfg /\
  Rabs (distance (p12 t) (position (s2 t)) - radius (s2 t)) <= tolerance cfg /\
  Rabs (distance (p13 t) (position (s1 t)) - radius (s1 t)) <= tolerance cfg /\
  Rabs (distance (p13 t) (position (s3 t)) - radius (s3 t)) <= tolerance cfg /\
  Rabs (distance (p23 t) (position (s2 t)) - radius (s2 t)) <= tolerance cfg /\
  Rabs (distance (p23 t) (position (s3 t)) - radius (s3 t)) <= tolerance cfg.
Proof.
  unfold valid, on_circle. rewrite !andb_true_iff, !leb_true_iff. tauto.
Qed.

(** An intersection point is on its two circles, in squares. *)
Lemma intersections_exact (si sj : Sensor) (p : Point) :
  In p (intersections si sj) ->
  (px p - px (position si)) * (px p - px (position si))
  + (py p - py (position si)) * (py p - py (position si))
  = radius si * radius si /\
  (px p - px (position sj)) * (px p - px (position sj))
  + (py p - py (position sj)) * (py p - py (position sj))
  = radius sj * radius sj.
Proof.
  intros Hp. destruct (intersections_on_circles si sj p Hp) as [Ei Ej].
  unfold distance in Ei, Ej.
  assert (Hsq : forall e r, 0 <= e -> sqrt e = r -> e = r * r).
  { intros e r He <-. symmetry. apply sqrt_sqrt, He. }
  split; apply Hsq; try assumption;
    apply Rplus_le_le_0_compat; apply Rle_0_sqr.
Qed.

Lemma area_nonneg (t : Candidate) : 0 <= area t.
Proof.
  unfold area.
  pose proof (Rabs_pos (px (p12 t) * (py (p13 t) - py (p23 t))
                        + px (p13 t) * (py (p23 t) - py (p12 t))
                        + px (p23 t) * (py (p12 t) - py (p13 t)))).
  lra.
Qed.

(** Once the best candidate has area zero the loop keeps it. *)
Lemma select_keeps_zero (b : Candidate) (l : list Candidate) :
  area b = 0 -> select cfg (Some b) l = Some b.
Proof.
  intros Hb. induction l as [|t l IH]; simpl; [reflexivity|].
  destruct (valid cfg t); [|exact IH].
  rewrite (proj2 (ltb_false_iff (area t) (area b))); [exact IH|].
  rewrite Hb. apply area_nonneg.
Qed.

Lemma select_first (t : Candidate) (l : list Candidate) :
  valid cfg t = true -> area t = 0 -> select cfg None (t :: l) = Some t.
Proof.
  intros Hv Ha. simpl. rewrite Hv. apply select_keeps_zero, Ha.
Qed.

(** C8, as the solver has it.  When the solver succeeds there are at
    least three sensors and the result is that of one candidate triangle:
    three sensors in the order of the list, one intersection point of each
    of their three pairs of circles, each vertex exactly on the two circles
    it comes from and within the tolerance of them.  The position returned
    is the centroid of the three vertices, the area returned is their
    shoelace area and the quality is [1 - min (1, area / referenceArea)].
    No candidate triangle has a smaller area, and every valid candidate
    enumerated before the chosen one has a strictly larger area: among
    candidates of the same smallest area the first one is kept. *)
Theorem solve_minimum_area (sensors : list Sensor) (pos : EstimatedPosition) :
  solve cfg sensors = Ok pos ->
  let shoelace := fun p q r : Point =>
    Rabs (px p * (py q - py r) + px q * (py r - py p) + px r * (py p - py q)) / 2 in
  let on := fun (p : Point) (s : Sensor) =>
    (px p - px (position s)) * (px p - px (position s))
    + (py p - py (position s)) * (py p - py (position s))
    = radius s * radius s in
  let near := fun (p : Point) (s : Sensor) =>
    Rabs (distance p (position s) - radius s) <= tolerance cfg in
  let formed := fun (a b c : Sensor) (q12 q13 q23 : Point) =>
    (exists i j k, (i < j < k)%nat /\
       sensors !! i = Some a /\ sensors !! j = Some b /\ sensors !! k = Some c) /\
    In q12 (intersections a b) /\ In q13 (intersections a c) /\
    In q23 (intersections b c) /\
    near q12 a /\ near q12 b /\ near q13 a /\ near q13 c /\
    near q23 b /\ near q23 c in
  (3 <= length sensors)%nat /\
  exists a b c q12 q13 q23,
    formed a b c q12 q13 q23 /\
    (on q12 a /\ on q12 b /\ on q13 a /\ on q13 c /\ on q23 b /\ on q23 c) /\
    x pos = (px q12 + px q13 + px q23) / 3 /\
    y pos = (py q12 + py q13 + py q23) / 3 /\
    triangleArea pos = shoelace q12 q13 q23 /\
    qualityScore pos = 1 - Rmin 1 (triangleArea pos / referenceArea cfg) /\
    (forall a' b' c' u12 u13 u23,
        formed a' b' c' u12 u13 u23 ->
        triangleArea pos <= shoelace u12 u13 u23) /\
    exists before after,
      candidates sensors
      = before ++ {| s1 := a; s2 := b; s3 := c;
                     p12 := q12; p13 := q13; p23 := q23 |} :: after /\
      forall u, In u before -> valid cfg u = true ->
                triangleArea pos < shoelace (p12 u) (p13 u) (p23 u).
Proof.
  intros H. cbv zeta. unfold solve in H.
  destruct (length sensors <? 3)%nat eqn:Hn; [discriminate|].
  apply Nat.ltb_ge in Hn. split; [exact Hn|].
  destruct (no_intersection sensors); [discriminate|].
  destruct (length (List.filter (valid cfg) (candidates sensors)) <? 3)%nat;
    [discriminate|].
  destruct (select cfg None (candidates sensors)) as [t|] eqn:Hsel; [|discriminate].
  injection H as <-.
  destruct (select_Some _ _ _ Hsel) as [[E _] | (bf & af & El & Hv & _ & Hbf & Haf)];
    [discriminate|].
  assert (Ht : In t (candidates sensors)) by (rewrite El; apply in_elt).
  apply In_candidates in Ht as (Hidx & H12 & H13 & H23).
  destruct (intersections_exact _ _ _ H12) as [O1 O2].
  destruct (intersections_exact _ _ _ H13) as [O3 O4].
  destruct (intersections_exact _ _ _ H23) as [O5 O6].
  pose proof (proj1 (valid_iff t) Hv) as Hnear.
  destruct t as [a b c q12 q13 q23]. simpl in *.
  exists a, b, c, q12, q13, q23.
  split; [tauto|].
  split; [tauto|].
  split; [reflexivity|]. split; [reflexivity|]. split; [reflexivity|].
  split; [reflexivity|]. split.
  - intros a' b' c' u12 u13 u23 (Hidx' & U12 & U13 & U23 & Hnear').
    set (u := {| s1 := a'; s2 := b'; s3 := c';
                 p12 := u12; p13 := u13; p23 := u23 |}).
    assert (Hu : In u (candidates sensors)) by (apply In_candidates; simpl; tauto).
    assert (Hvu : valid cfg u = true) by (apply valid_iff; exact Hnear').
    rewrite El in Hu. apply in_app_or in Hu as [Hu | [Hu | Hu]].
    + left. exact (Hbf u Hu Hvu).
    + unfold u in Hu. injection Hu as <- <- <- <- <- <-. apply Rle_refl.
    + exact (Haf u Hu Hvu).
  - exists bf, af. split; [exact El|].
    intros u Hu Hvu. exact (Hbf u Hu Hvu).
Qed.

(** *** When the solver succeeds *)

Lemma candidates_from_intersections (sensors : list Sensor) (t : Candidate) :
  In t (candidates sensors) ->
  In (p12 t) (intersections (s1 t) (s2 t)) /\
  In (p13 t) (intersections (s1 t) (s3 t)) /\
  In (p23 t) (intersections (s2 t) (s3 t)).
Proof.
  unfold candidates. rewrite in_flat_map.
  intros ([[a b] c] & _ & Ht). simpl in Ht.
  unfold triangles in Ht. rewrite in_flat_map in Ht.
  destruct Ht as (q12 & H12 & Ht). rewrite in_flat_map in Ht.
  destruct Ht as (q13 & H13 & Ht). rewrite in_map_iff in Ht.
  destruct Ht as (q23 & <- & H23). simpl. auto.
Qed.

(** With a tolerance that is not negative every candidate is valid. *)
Lemma candidates_valid (sensors : list Sensor) (t : Candidate) :
  0 <= tolerance cfg -> In t (candidates sensors) -> valid cfg t = true.
Proof.
  intros Htol Ht.
  destruct (candidates_from_intersections sensors t Ht) as (H12 & H13 & H23).
  destruct (intersections_on_circles _ _ _ H12) as [E1 E2].
  destruct (intersections_on_circles _ _ _ H13) as [E3 E4].
  destruct (intersections_on_circles _ _ _ H23) as [E5 E6].
  assert (Hon : forall p s, distance p (position s) = radius s ->
                            on_circle cfg p s = true).
  { intros p s E. unfold on_circle. rewrite E, Rminus_diag, Rabs_R0.
    apply leb_true_iff, Htol. }
  unfold valid. rewrite !Hon by assumption. reflexivity.
Qed.

Lemma filter_all {A} (f : A -> bool) (l : list A) :
  (forall a, In a l -> f a = true) -> List.filter f l = l.
Proof.
  induction l as [|a l IH]; intros H; simpl; [reflexivity|].
  rewrite (H a) by (left; reflexivity).
  f_equal. apply IH. intros b Hb. apply H. right. exact Hb.
Qed.

(** The solver returns a position as soon as there are three sensors, a
    pair of circles that meet, and three valid candidates. *)
Lemma solve_succeeds (sensors : list Sensor) :
  (3 <= length sensors)%nat ->
  no_intersection sensors = false ->
  (3 <= length (List.filter (valid cfg) (candidates sensors)))%nat ->
  exists pos, solve cfg sensors = Ok pos.
Proof.
  intros Hn Hi Hv. unfold solve.
  rewrite (proj2 (Nat.ltb_ge _ _) Hn), Hi, (proj2 (Nat.ltb_ge _ _) Hv).
  destruct (select_is_Some (candidates sensors) None) as [t Ht].
  - right.
    destruct (List.filter (valid cfg) (candidates sensors)) as [|u l] eqn:Ef;
      [simpl in Hv; lia|].
    assert (Hu : In u (List.filter (valid cfg) (candidates sensors)))
      by (rewrite Ef; left; reflexivity).
    apply filter_In in Hu. exists u. exact Hu.
  - rewrite Ht. eexists. reflexivity.
Qed.

End Solver.

Section SolverExample.
Import Trilateration.

Lemma example_distance (xi yi xj yj d : R) :
  0 <= d ->
  (xi - xj) * (xi - xj) + (yi - yj) * (yi - yj) = d * d ->
  distance {| px := xi; py := yi |} {| px := xj; py := yj |} = d.
Proof.
  intros Hd E. unfold distance. simpl. rewrite E. apply sqrt_square, Hd.
Qed.

Lemma example_meets (xi yi ri xj yj rj d : R) :
  0 < d ->
  (xi - xj) * (xi - xj) + (yi - yj) * (yi - yj) = d * d ->
  d <= ri + rj -> ri - rj <= d -> rj - ri <= d ->
  exists p q,
    intersections {| position := {| px := xi; py := yi |}; radius := ri |}
      {| position := {| px := xj; py := yj |}; radius := rj |}
    = [p; q].
Proof.
  intros Hd E H1 H2 H3.
  apply intersections_two; simpl; rewrite (example_distance _ _ _ _ d) by (lra || exact E).
  - exact H1.
  - unfold Rabs. destruct (Rcase_abs (ri - rj)); lra.
  - lra.
Qed.

Lemma example_solved :
  exists pos, solve example_config example_sensors = Ok pos.
Proof.
  destruct (example_meets 0 0 5 4 0 3 4) as (a1 & a2 & E12); try lra.
  destruct (example_meets 0 0 5 0 3 4 3) as (b1 & b2 & E13); try lra.
  destruct (example_meets 4 0 3 0 3 4 5) as (c1 & c2 & E23); try lra.
  assert (Hc : length (candidates example_sensors) = 8%nat).
  { unfold candidates, example_sensors. simpl. unfold triangles.
    rewrite E12, E13, E23. reflexivity. }
  apply solve_succeeds.
  - simpl. lia.
  - unfold no_intersection, example_sensors. simpl. rewrite E12. reflexivity.
  - rewrite filter_all; [rewrite Hc; lia|].
    intros t Ht. apply (candidates_valid example_config example_sensors); [simpl; lra | exact Ht].
Qed.

(** The two intersection points, once the distance of the centers and the
    lengths [a] and [h] of the construction are known. *)
Lemma intersections_eval (xi yi ri xj yj rj d a h : R) :
  0 < d ->
  (xi - xj) * (xi - xj) + (yi - yj) * (yi - yj) = d * d ->
  d <= ri + rj -> ri - rj <= d -> rj - ri <= d ->
  2 * d * a = ri * ri - rj * rj + d * d ->
  0 <= h -> h * h = ri * ri - a * a ->
  intersections {| position := {| px := xi; py := yi |}; radius := ri |}
    {| position := {| px := xj; py := yj |}; radius := rj |}
  = [ {| px := xi + a * (xj - xi) / d + h * (yj - yi) / d;
         py := yi + a * (yj - yi) / d - h * (xj - xi) / d |};
      {| px := xi + a * (xj - xi) / d - h * (yj - yi) / d;
         py := yi + a * (yj - yi) / d + h * (xj - xi) / d |} ].
Proof.
  intros Hd E H1 H2 H3 Ha Hh0 Hh.
  unfold intersections. simpl position. simpl radius. cbv zeta.
  rewrite (example_distance xi yi xj yj d) by (lra || exact E).
  rewrite (proj2 (ltb_false_iff _ _) H1).
  rewrite (proj2 (ltb_false_iff d (Rabs (ri - rj))))
    by (unfold Rabs; destruct (Rcase_abs (ri - rj)); lra).
  rewrite (proj2 (eqb_false_iff d 0)) by lra.
  simpl orb. cbv iota.
  replace ((ri * ri - rj * rj + d * d) / (2 * d)) with a by (field_simplify_eq; lra).
  replace (sqrt (Rmax 0 (ri * ri - a * a))) with h.
  - simpl. reflexivity.
  - rewrite Rmax_right by (rewrite <- Hh; nra).
    rewrite <- Hh. symmetry. apply sqrt_square, Hh0.
Qed.

Lemma example_I12 :
  intersections example_a example_b
  = [ {| px := 4; py := - 3 |}; {| px := 4; py := 3 |} ].
Proof.
  unfold example_a, example_b.
  rewrite (intersections_eval 0 0 5 4 0 3 4 4 3) by lra.
  assert (Ep : forall x1 y1 x2 y2, x1 = x2 -> y1 = y2 ->
                 {| px := x1; py := y1 |} = {| px := x2; py := y2 |})
    by (intros; subst; reflexivity).
  rewrite (Ep _ _ 4 (- 3)) by lra.
  rewrite (Ep (0 + 4 * (4 - 0) / 4 - 3 * (0 - 0) / 4) _ 4 3) by lra.
  reflexivity.
Qed.

Lemma example_I13 :
  intersections example_a example_c
  = [ {| px := 4; py := 3 |}; {| px := - 4; py := 3 |} ].
Proof.
  unfold example_a, example_c.
  rewrite (intersections_eval 0 0 5 0 3 4 3 3 4) by lra.
  assert (Ep : forall x1 y1 x2 y2, x1 = x2 -> y1 = y2 ->
                 {| px := x1; py := y1 |} = {| px := x2; py := y2 |})
    by (intros; subst; reflexivity).
  rewrite (Ep _ _ 4 3) by lra.
  rewrite (Ep (0 + 3 * (0 - 0) / 3 - 4 * (3 - 0) / 3) _ (- 4) 3) by lra.
  reflexivity.
Qed.

Lemma example_I23 :
  intersections example_b example_c
  = [ {| px := 4; py := 3 |}; {| px := 28 / 25; py := - (21 / 25) |} ].
Proof.
  unfold example_b, example_c.
  rewrite (intersections_eval 4 0 3 0 3 4 5 (9 / 5) (12 / 5)) by lra.
  assert (Ep : forall x1 y1 x2 y2, x1 = x2 -> y1 = y2 ->
                 {| px := x1; py := y1 |} = {| px := x2; py := y2 |})
    by (intros; subst; reflexivity).
  rewrite (Ep _ _ 4 3) by lra.
  rewrite (Ep (4 + 9 / 5 * (0 - 4) / 5 - 12 / 5 * (3 - 0) / 5) _
              (28 / 25) (- (21 / 25))) by lra.
  reflexivity.
Qed.

(** The eight candidate triangles of the example, in the order of the
    enumeration. *)
Lemma example_candidates :
  candidates example_sensors
  = map (fun q : Point * Point * Point =>
           {| s1 := example_a; s2 := example_b; s3 := example_c;
              p12 := fst (fst q); p13 := snd (fst q); p23 := snd q |})
      [ ({| px := 4; py := - 3 |}, {| px := 4; py := 3 |}, {| px := 4; py := 3 |});
        ({| px := 4; py := - 3 |}, {| px := 4; py := 3 |},
         {| px := 28 / 25; py := - (21 / 25) |});
        ({| px := 4; py := - 3 |}, {| px := - 4; py := 3 |}, {| px := 4; py := 3 |});
        ({| px := 4; py := - 3 |}, {| px := - 4; py := 3 |},
         {| px := 28 / 25; py := - (21 / 25) |});
        ({| px := 4; py := 3 |}, {| px := 4; py := 3 |}, {| px := 4; py := 3 |});
        ({| px := 4; py := 3 |}, {| px := 4; py := 3 |},
         {| px := 28 / 25; py := - (21 / 25) |});
        ({| px := 4; py := 3 |}, {| px := - 4; py := 3 |}, {| px := 4; py := 3 |});
        ({| px := 4; py := 3 |}, {| px := - 4; py := 3 |},
         {| px := 28 / 25; py := - (21 / 25) |}) ].
Proof.
  change example_sensors with [example_a; example_b; example_c].
  unfold candidates. simpl. unfold triangles.
  rewrite example_I12, example_I13, example_I23. reflexivity.
Qed.

Lemma example_first_area : area example_first = 0.
Proof.
  unfold area, example_first. simpl.
  replace (4 * (3 - 3) + 4 * (3 - - 3) + 4 * (- 3 - 3)) with 0 by lra.
  rewrite Rabs_R0. lra.
Qed.

Lemma example_common_area : area example_common = 0.
Proof.
  unfold area, example_common. simpl.
  replace (4 * (3 - 3) + 4 * (3 - 3) + 4 * (3 - 3)) with 0 by lra.
  rewrite Rabs_R0. lra.
Qed.

Lemma example_first_In : In example_first (candidates example_sensors).
Proof. rewrite example_candidates. left. reflexivity. Qed.

Lemma example_common_In : In example_common (candidates example_sensors).
Proof. rewrite example_candidates. do 4 right. left. reflexivity. Qed.

Lemma example_valid (t : Candidate) :
  In t (candidates example_sensors) -> valid example_config t = true.
Proof.
  apply (candidates_valid example_config example_sensors). simpl. lra.
Qed.

(** The solver on the example: the first candidate has area zero and is
    kept; its centroid is (4, 1). *)
Lemma example_result :
  solve example_config example_sensors
  = Ok {| x := 4; y := 1; triangleArea := 0; qualityScore := 1 |}.
Proof.
  assert (Hsel : select example_config None (candidates example_sensors)
                 = Some example_first).
  { rewrite example_candidates. cbn [map fst snd].
    change {| s1 := example_a; s2 := example_b; s3 := example_c;
              p12 := {| px := 4; py := - 3 |};
              p13 := {| px := 4; py := 3 |};
              p23 := {| px := 4; py := 3 |} |} with example_first.
    apply select_first;
      [exact (example_valid example_first example_first_In)
      | exact example_first_area]. }
  unfold solve.
  replace (length example_sensors <? 3)%nat with false by reflexivity.
  replace (no_intersection example_sensors) with false.
  2:{ change example_sensors with [example_a; example_b; example_c].
      unfold no_intersection. simpl. rewrite example_I12. reflexivity. }
  rewrite filter_all by exact example_valid.
  rewrite Hsel. rewrite example_candidates. cbn [map length Nat.ltb Nat.leb].
  unfold quality. rewrite example_first_area.
  f_equal. f_equal.
  - unfold centroid, example_first. simpl. lra.
  - unfold centroid, example_first. simpl. lra.
  - unfold Rdiv. rewrite Rmult_0_l. rewrite Rmin_right by lra. lra.
Qed.

Lemma solve_minimum_area_witness :
  solve example_config example_sensors
  = Ok {| x := 4; y := 1; triangleArea := 0; qualityScore := 1 |} /\
  (3 <= length example_sensors)%nat /\
  exists a b c q12 q13 q23,
    In q12 (intersections a b) /\ In q13 (intersections a c) /\
    In q23 (intersections b c) /\
    4 = (px q12 + px q13 + px q23) / 3 /\
    1 = (py q12 + py q13 + py q23) / 3 /\
    0 = Rabs (px q12 * (py q13 - py q23) + px q13 * (py q23 - py q12)
              + px q23 * (py q12 - py q13)) / 2.
Proof.
  split; [exact example_result|].
  destruct (solve_minimum_area example_config example_sensors _ example_result)
    as (Hn & a & b & c & q12 & q13 & q23 & Hformed & _ & Hx & Hy & Ha & _).
  split; [exact Hn|].
  exists a, b, c, q12, q13, q23.
  destruct Hformed as (_ & H12 & H13 & H23 & _).
  split; [exact H12|]. split; [exact H13|]. split; [exact H23|].
  split; [exact Hx|]. split; [exact Hy | exact Ha].
Defined.

(** C8, as the claim has it, fails.  The three circles of the example all
    pass through (4, 3).  The solver succeeds and returns (4, 1), the
    centroid of the first candidate (4, -3), (4, 3), (4, 3), whose area is
    zero; the candidate (4, 3), (4, 3), (4, 3) has area zero as well.  No
    candidate triangle has an area strictly smaller than that of every
    other one, so the result is not the centroid of a triangle with the
    strictly smallest area. *)
Lemma solve_minimum_area_counterexample :
  solve example_config example_sensors
  = Ok {| x := 4; y := 1; triangleArea := 0; qualityScore := 1 |} /\
  (In example_first (candidates example_sensors) /\
   valid example_config example_first = true /\
   area example_first = 0 /\
   centroid example_first = {| px := 4; py := 1 |}) /\
  (In example_common (candidates example_sensors) /\
   valid example_config example_common = true /\
   area example_common = 0 /\
   centroid example_common = {| px := 4; py := 3 |}) /\
  ~ (exists t,
        In t (candidates example_sensors) /\
        valid example_config t = true /\
        forall u, In u (candidates example_sensors) ->
                  valid example_config u = true ->
                  u <> t -> area t < area u).
Proof.
  assert (Ep : forall x1 y1 x2 y2, x1 = x2 -> y1 = y2 ->
                 {| px := x1; py := y1 |} = {| px := x2; py := y2 |})
    by (intros; subst; reflexivity).
  split; [exact example_result|].
  split.
  { split; [exact example_first_In|].
    split; [exact (example_valid _ example_first_In)|].
    split; [exact example_first_area|].
    unfold centroid, example_first. simpl. apply Ep; lra. }
  split.
  { split; [exact example_common_In|].
    split; [exact (example_valid _ example_common_In)|].
    split; [exact example_common_area|].
    unfold centroid, example_common. simpl. apply Ep; lra. }
  intros (t & Ht & Hv & Hmin).
  assert (Hne : example_common <> example_first).
  { intros E. apply (f_equal (fun u => py (p12 u))) in E. simpl in E. lra. }
  pose proof (area_nonneg t) as Hpos.
  destruct (Classical_Prop.classic (t = example_first)) as [E | E].
  - pose proof (Hmin example_common example_common_In
                  (example_valid _ example_common_In)) as H.
    rewrite E in H. specialize (H Hne).
    rewrite example_first_area, example_common_area in H. lra.
  - pose proof (Hmin example_first example_first_In
                  (example_valid _ example_first_In)) as H.
    assert (E' : example_first <> t) by (intros E'; apply E; symmetry; exact E').
    specialize (H E'). rewrite example_first_area in H. lra.
Qed.

End SolverExample.

(** ** Ranges of the mapped values *)

Section EnhancedRanges.
Import JS Enhanced.

(** X1.  With a proper distance range, [minDistance < maxDistance], and
    whatever the effect settings are, the distance effects stay in their
    ranges: pitch in [0.5, 2], filter in [0.1, 1] and reverb in [0, 0.8].
    (With a range of width zero the normalized distance of the code is
    [NaN], and so are the effects that are switched on.) *)
Theorem effects_in_range (s : Service) (d : R) :
  minDistance s < maxDistance s ->
  1 / 2 <= e_pitch (calculateDistanceEffects s d) <= 2 /\
  1 / 10 <= e_filter (calculateDistanceEffects s d) <= 1 /\
  0 <= e_reverb (calculateDistanceEffects s d) <= 8 / 10.
Proof.
  intros _. unfold calculateDistanceEffects.
  destruct (negb (enabled (distanceEffects s))); simpl; [lra|].
  split; [|split].
  - destruct (pitchEffect (distanceEffects s)); [apply clamp_bounds|]; lra.
  - destruct (filterEffect (distanceEffects s)); [apply clamp_bounds|]; lra.
  - destruct (reverbEffect (distanceEffects s)); [apply clamp_bounds|]; lra.
Qed.

Lemma effects_in_range_witness :
  minDistance (new true) < maxDistance (new true) /\
  1 / 2 <= e_pitch (calculateDistanceEffects (new true) 100) <= 2.
Proof.
  assert (Hr : minDistance (new true) < maxDistance (new true)) by (simpl; lra).
  split; [exact Hr|].
  exact (proj1 (effects_in_range (new true) 100 Hr)).
Defined.

Lemma volume_in_range (s : Service) (d : R) :
  Invariant s ->
  0 <= calculateVolumeFromDistance s d <= maxVolumeLimit s.
Proof.
  intros (H0 & H1 & [H2 H3] & _).
  rewrite calculateVolumeFromDistance_ratio by lra.
  assert (Hr : minDistance s < maxDistance s) by lra.
  pose proof (volumeRatio_range (volumeCurve s) _ (normalizedDistance_range s Hr d)).
  nra.
Qed.

Lemma volume_in_proper_range (s : Service) (d : R) :
  minDistance s < maxDistance s -> 0 <= maxVolumeLimit s ->
  0 <= calculateVolumeFromDistance s d <= maxVolumeLimit s.
Proof.
  intros Hr Hl.
  rewrite calculateVolumeFromDistance_ratio by exact Hr.
  pose proof (volumeRatio_range (volumeCurve s) _ (normalizedDistance_range s Hr d)).
  nra.
Qed.

(** X2.  In every state the service reaches the volume limit lies in
    [0.1, 1], and when the distance range of the state is a proper one,
    [minDistance < maxDistance], the volume computed for a distance lies
    between 0 and the limit.  At or below [minDistance] the linear, the
    exponential and the logarithmic curve give the limit itself.  (The
    inverse-square curve goes through [1 / (0.1 * 0.1) / 100] there, which
    is 1 over the reals and one rounding step below 1 in doubles.) *)
Theorem volume_bounded_by_limit (s : Service) (d : R) :
  Reachable s -> minDistance s < maxDistance s ->
  1 / 10 <= maxVolumeLimit s <= 1 /\
  0 <= calculateVolumeFromDistance s d <= maxVolumeLimit s /\
  (d <= minDistance s -> volumeCurve s <> inverse_square ->
   calculateVolumeFromDistance s d = maxVolumeLimit s).
Proof.
  intros Hs Hr. destruct (Reachable_limits s Hs) as (H2 & _).
  split; [exact H2|]. split.
  - apply volume_in_proper_range; [exact Hr | lra].
  - intros Hd _. apply calculateVolumeFromDistance_near; lra.
Qed.

Lemma volume_bounded_by_limit_witness :
  let s := call (CsetVolumeCurve linear) (call (CsetVolumeLimit 5) (new true)) in
  Reachable s /\ minDistance s < maxDistance s /\
  1 / 10 <= maxVolumeLimit s <= 1 /\
  0 <= calculateVolumeFromDistance s 42 <= maxVolumeLimit s /\
  calculateVolumeFromDistance s 3 = maxVolumeLimit s.
Proof.
  intros s.
  assert (Hs : Reachable s) by (repeat constructor).
  assert (Hr : minDistance s < maxDistance s) by (simpl; lra).
  destruct (volume_bounded_by_limit s 42 Hs Hr) as (H1 & H2 & _).
  destruct (volume_bounded_by_limit s 3 Hs Hr) as (_ & _ & H3).
  split; [exact Hs|]. split; [exact Hr|]. split; [exact H1|]. split; [exact H2|].
  apply H3; [simpl; lra | discriminate].
Defined.

End EnhancedRanges.

(** ** Silence and automatic start and stop *)

Section EnhancedAutoplay.
Import JS Enhanced.

Lemma normalizedDistance_1_far (s : Service) (d : R) :
  minDistance s < maxDistance s ->
  normalizedDistance s d = 1 -> maxDistance s <= d.
Proof.
  intros Hr E. unfold normalizedDistance in E.
  assert (Hc : Math_max (minDistance s) (Math_min (maxDistance s) d) = maxDistance s).
  { apply (Rmult_eq_compat_r (maxDistance s - minDistance s)) in E.
    unfold Rdiv in E. rewrite Rmult_assoc, Rinv_l in E by lra. lra. }
  unfold Math_max, Math_min, Rmax, Rmin in Hc.
  destruct (Rle_dec (maxDistance s) d) as [H|H]; [exact H|].
  destruct (Rle_dec (minDistance s) d); lra.
Qed.

Lemma volumeRatio_pos_curves (curve : VolumeCurve) (t : R) :
  0 <= t <= 1 -> curve = inverse_square \/ curve = exponential ->
  0 < volumeRatio curve t.
Proof.
  intros Ht [-> | ->].
  - rewrite inverse_square_closed by lra.
    unfold Rdiv. rewrite Rmult_1_l. apply Rinv_0_lt_compat. nra.
  - simpl. apply exp_pos.
Qed.

Lemma volumeRatio_zero_curves (curve : VolumeCurve) (t : R) :
  0 <= t <= 1 -> curve = linear \/ curve = logarithmic ->
  (volumeRatio curve t = 0 <-> t = 1).
Proof.
  intros Ht [-> | ->].
  - simpl. split; intros; lra.
  - rewrite logarithmic_closed by exact Ht. unfold Math_log10. split.
    + intros E.
      assert (El : ln (1 + 9 * t) = ln 10).
      { pose proof ln_10_pos.
        apply (Rmult_eq_reg_r (/ ln 10)); [|apply Rinv_neq_0_compat; lra].
        rewrite Rinv_r by lra. unfold Rdiv in E. lra. }
      apply ln_inv in El; lra.
    + intros ->. replace (1 + 9 * 1) with 10 by ring.
      pose proof ln_10_pos. unfold Rdiv. rewrite Rinv_r by lra. lra.
Qed.

(** X3.  In every state the service reaches whose distance range is a
    proper one, [minDistance < maxDistance]: with the inverse-square or
    the exponential curve the volume is strictly positive at every
    distance; with the linear or the logarithmic curve the volume is zero
    exactly from [maxDistance] on. *)
Theorem volume_zero_iff (s : Service) (d : R) :
  Reachable s -> minDistance s < maxDistance s ->
  (volumeCurve s = inverse_square \/ volumeCurve s = exponential ->
   0 < calculateVolumeFromDistance s d) /\
  (volumeCurve s = linear \/ volumeCurve s = logarithmic ->
   (calculateVolumeFromDistance s d = 0 <-> maxDistance s <= d)).
Proof.
  intros Hs Hr. destruct (Reachable_limits s Hs) as ([H2 H3] & _).
  pose proof (normalizedDistance_range s Hr d) as Ht.
  rewrite calculateVolumeFromDistance_ratio by exact Hr.
  split; intros Hc.
  - pose proof (volumeRatio_pos_curves _ _ Ht Hc). nra.
  - pose proof (volumeRatio_zero_curves _ _ Ht Hc) as Hz. split.
    + intros E. apply normalizedDistance_1_far; [exact Hr|].
      apply Hz. nra.
    + intros Hd. rewrite (normalizedDistance_far s Hr d Hd) in Hz |- *.
      rewrite (proj2 Hz eq_refl). lra.
Qed.

Lemma volume_zero_iff_witness :
  let s := call (CsetVolumeCurve linear) (new true) in
  Reachable s /\ minDistance s < maxDistance s /\
  (volumeCurve s = linear \/ volumeCurve s = logarithmic) /\
  (calculateVolumeFromDistance s 250 = 0 <-> maxDistance s <= 250) /\
  (volumeCurve (new true) = inverse_square \/ volumeCurve (new true) = exponential) /\
  0 < calculateVolumeFromDistance (new true) 250.
Proof.
  intros s.
  assert (Hs : Reachable s) by (repeat constructor).
  assert (Hn : Reachable (new true)) by constructor.
  assert (Hc : volumeCurve s = linear \/ volumeCurve s = logarithmic)
    by (left; reflexivity).
  assert (Hc' : volumeCurve (new true) = inverse_square
                \/ volumeCurve (new true) = exponential)
    by (left; reflexivity).
  assert (Hr : minDistance s < maxDistance s) by (simpl; lra).
  assert (Hr' : minDistance (new true) < maxDistance (new true)) by (simpl; lra).
  split; [exact Hs|]. split; [exact Hr|]. split; [exact Hc|].
  split; [exact (proj2 (volume_zero_iff s 250 Hs Hr) Hc)|].
  split; [exact Hc'|].
  exact (proj1 (volume_zero_iff (new true) 250 Hn Hr') Hc').
Defined.

(** The track a device has after a distance update when it was not
    playing and has an oscillator as its source. *)
Lemma updateSensorDistance_idle_oscillator s d t f x :
  audioTracks s !! d = Some t -> playing t = false ->
  type (audioSource t) = type_oscillator f -> audioContext s = true ->
  exists t',
    audioTracks (updateSensorDistance d x s) !! d = Some t' /\
    volume t' = calculateVolumeFromDistance s x /\
    (0 < calculateVolumeFromDistance s x ->
     playing t' = true /\
     gainNode t'
     = Some {| gain := calculateVolumeFromDistance s x * nodeVolume t
                       * globalVolume s |} /\
     oscillator t'
     = Some {| osc_frequency :=
                 f * (pitch t * e_pitch (calculateDistanceEffects s x)) |}) /\
    (calculateVolumeFromDistance s x <= 0 -> playing t' = false).
Proof.
  intros Hd Hp Hty Hctx. unfold updateSensorDistance. rewrite Hd. cbv zeta.
  set (v := calculateVolumeFromDistance s x).
  set (e := calculateDistanceEffects s x).
  set (t0 := with_distance v e t).
  assert (Hp0 : playing t0 = false) by exact Hp.
  rewrite Hp0. cbv iota. rewrite Hp0. simpl negb.
  rewrite andb_true_r, andb_false_r.
  destruct (Rlt_dec 0 v) as [Hv|Hv].
  - rewrite (gt_true v 0 Hv).
    unfold startAudioTrack. simpl audioTracks. rewrite lookup_insert_eq.
    rewrite Hp0. simpl. rewrite Hctx. simpl. rewrite Hty. simpl.
    eexists. split; [apply lookup_insert_eq|].
    unfold startAudioTrack_chain, updateAudioTrack. simpl. rewrite Hctx, Hty. simpl.
    split; [reflexivity|]. split.
    + intros _. split; [reflexivity|]. split; reflexivity.
    + intros Hle. lra.
  - rewrite (gt_false v 0) by lra.
    exists t0. split; [apply lookup_insert_eq|].
    split; [reflexivity|]. split; [intros Hlt; lra | intros _; exact Hp].
Qed.

(** X4.  In a reachable state with an audio context and a proper
    distance range, [minDistance < maxDistance], after a distance update
    the track of an oscillator source plays exactly when the new volume is
    positive: it is started if it was idle, kept playing if it was
    playing, and stopped or left idle when the volume is zero. *)
Theorem oscillator_plays_iff_audible (s : Service) (d : string) (t : AudioTrack)
    (f x : R) :
  Reachable s -> minDistance s < maxDistance s -> audioContext s = true ->
  audioTracks s !! d = Some t ->
  type (audioSource t) = type_oscillator f ->
  exists t',
    audioTracks (updateSensorDistance d x s) !! d = Some t' /\
    (playing t' = true <-> 0 < calculateVolumeFromDistance s x).
Proof.
  intros Hs Hr Hctx Hd Hty.
  destruct (Reachable_limits s Hs) as ([Hl _] & _).
  assert (Hl0 : 0 <= maxVolumeLimit s) by lra.
  pose proof (volume_in_proper_range s x Hr Hl0) as [Hv0 _].
  destruct (playing t) eqn:Hp.
  - eexists. split; [apply (updateSensorDistance_playing s d t x Hd Hp)|].
    cbv zeta.
    destruct (Req_dec_T (calculateVolumeFromDistance s x) 0) as [E|E].
    + rewrite (strict_eq_true _ _ E). simpl. split; [discriminate | lra].
    + rewrite (strict_eq_false _ _ E). rewrite updateAudioTrack_playing. simpl.
      split; [intros _; lra | intros _; exact Hp].
  - destruct (updateSensorDistance_idle_oscillator s d t f x Hd Hp Hty Hctx)
      as (t' & Ht' & _ & Hon & Hoff).
    exists t'. split; [exact Ht'|]. split.
    + intros Hplay. destruct (Rlt_dec 0 (calculateVolumeFromDistance s x)) as [H|H];
        [exact H|].
      rewrite Hoff in Hplay by lra. discriminate.
    + intros Hv. apply Hon, Hv.
Qed.

Lemma oscillator_plays_iff_audible_witness :
  Reachable Examples.registered /\
  minDistance Examples.registered < maxDistance Examples.registered /\
  audioContext Examples.registered = true /\
  audioTracks Examples.registered !! "dev"
  = Some (newTrack "dev" "Device" Examples.osc_mid) /\
  exists t',
    audioTracks (updateSensorDistance "dev" 30 Examples.registered) !! "dev"
    = Some t' /\
    (playing t' = true <-> 0 < calculateVolumeFromDistance Examples.registered 30).
Proof.
  assert (Hs : Reachable Examples.registered).
  { apply (Reachable_call (CsetAudioTrack "dev" "Device" Examples.osc_mid)).
    apply Reachable_new. }
  assert (Hr : minDistance Examples.registered < maxDistance Examples.registered)
    by (rewrite registered_eq; simpl; lra).
  split; [exact Hs|]. split; [exact Hr|]. split; [reflexivity|]. split; [reflexivity|].
  exact (oscillator_plays_iff_audible Examples.registered "dev"
           (newTrack "dev" "Device" Examples.osc_mid) 440 30
           Hs Hr eq_refl eq_refl eq_refl).
Defined.

(** X5.  A track whose source is an audio file is never playing when the
    call that should start it returns: [updateSensorDistance] on the idle
    track stores the new values and leaves the track idle and without
    nodes of its own making, the start waiting for the file. *)
Theorem file_track_not_started_in_call (s : Service) (d file : string)
    (t : AudioTrack) (x : R) :
  audioTracks s !! d = Some t -> playing t = false ->
  type (audioSource t) = type_audio (Some file) -> file <> EmptyString ->
  audioTracks (updateSensorDistance d x s) !! d
  = Some (with_distance (calculateVolumeFromDistance s x)
            (calculateDistanceEffects s x) t).
Proof.
  intros Hd Hp Hty Hfile. unfold updateSensorDistance. rewrite Hd. cbv zeta.
  set (v := calculateVolumeFromDistance s x).
  set (t0 := with_distance v (calculateDistanceEffects s x) t).
  assert (Hp0 : playing t0 = false) by exact Hp.
  rewrite Hp0. cbv iota. rewrite Hp0. simpl negb.
  rewrite andb_true_r, andb_false_r.
  destruct (gt v 0).
  - unfold startAudioTrack. simpl audioTracks. rewrite lookup_insert_eq, Hp0.
    simpl. destruct (negb (audioContext s)); [apply lookup_insert_eq|].
    rewrite Hty. unfold truthy. destruct (decide (file = EmptyString)); [contradiction|].
    apply lookup_insert_eq.
  - apply lookup_insert_eq.
Qed.

Lemma file_track_not_started_in_call_witness :
  audioTracks MoreExamples.registered_file !! "cow"
  = Some (newTrack "cow" "Cow sensor" MoreExamples.cow_moo) /\
  audioTracks (updateSensorDistance "cow" 30 MoreExamples.registered_file) !! "cow"
  = Some (with_distance
            (calculateVolumeFromDistance MoreExamples.registered_file 30)
            (calculateDistanceEffects MoreExamples.registered_file 30)
            (newTrack "cow" "Cow sensor" MoreExamples.cow_moo)).
Proof.
  split; [reflexivity|].
  apply (file_track_not_started_in_call MoreExamples.registered_file "cow"
           "cow_moo.wav" (newTrack "cow" "Cow sensor" MoreExamples.cow_moo) 30).
  - reflexivity.
  - reflexivity.
  - reflexivity.
  - discriminate.
Defined.

End EnhancedAutoplay.

(** ** What every run of the service keeps *)

Section EnhancedInvariants.
Import JS Enhanced EnhancedRuns.

Lemma synced_wired g t : synced g t -> wired t.
Proof.
  intros (Hg & Hf & Hr & _ & _ & Hsrc). unfold wired.
  rewrite Hg, Hf, Hr. repeat split; eauto.
Qed.

Lemma updateAudioTrack_OK (s : Service) (d : string) (t : AudioTrack) :
  deviceId t = d -> controls_in_range t -> distance_in_range t ->
  (is_Some (oscillator t) -> exists f, type (audioSource t) = type_oscillator f) ->
  (playing t = true -> audioContext s = true /\ wired t) ->
  TrackOK (audioContext s) (globalVolume s) d (updateAudioTrack s t).
Proof.
  intros Hid Hc Hd Hosc Hplay. unfold updateAudioTrack.
  destruct (playing t) eqn:Hp; simpl.
  - destruct (Hplay eq_refl) as (Hctx & Hg & Hf & Hr & Hsrc).
    rewrite Hctx. simpl.
    destruct Hg as [gn Hg], Hf as [fn Hf], Hr as [rn Hr]. rewrite Hg, Hf, Hr.
    split; [exact Hid|]. split; [exact Hc|]. split; [exact Hd|]. simpl.
    split.
    + intros Hsome. apply Hosc.
      destruct (oscillator t) as [o|]; [eauto | destruct Hsome; discriminate].
    + intros _. split; [reflexivity|].
      unfold synced. simpl.
      split; [reflexivity|]. split; [reflexivity|]. split; [reflexivity|].
      split; [|split].
      * intros n Hn. destruct (oscillator t) as [o|] eqn:Ho; [|discriminate].
        destruct (Hosc (ex_intro _ o eq_refl)) as [f Hf']. rewrite Hf' in Hn |- *.
        injection Hn as <-. exists f. split; reflexivity.
      * intros n Hn. destruct (audioSourceNode t) as [a|]; [|discriminate].
        injection Hn as <-. reflexivity.
      * destruct Hsrc as [[o Ho] | [a Ha]].
        -- left. rewrite Ho.
           destruct (Hosc (ex_intro _ o Ho)) as [f Hf']. rewrite Hf'. eauto.
        -- right. rewrite Ha. eauto.
  - split; [exact Hid|]. split; [exact Hc|]. split; [exact Hd|].
    split; [exact Hosc|]. intros E. congruence.
Qed.

(** A track whose fields changed, its nodes being rewritten when it
    plays, is as it should be for the current global volume. *)
Lemma TrackOK_refresh (s : Service) (g : R) (d : string) (t t1 : AudioTrack) :
  TrackOK (audioContext s) g d t ->
  same_wiring t t1 -> controls_in_range t1 -> distance_in_range t1 ->
  TrackOK (audioContext s) (globalVolume s) d
    (if playing t1 then updateAudioTrack s t1 else t1).
Proof.
  intros (Hid & _ & _ & Hosc & Hplay) (E1 & E2 & E3 & E4 & E5 & E6 & E7 & E8) Hc Hd.
  assert (Hosc1 : is_Some (oscillator t1) ->
                  exists f, type (audioSource t1) = type_oscillator f)
    by (rewrite E4, E2; exact Hosc).
  destruct (playing t1) eqn:Hp.
  - apply updateAudioTrack_OK; try assumption; [congruence|].
    intros _. destruct (Hplay (eq_sym E3)) as [Hctx Hs].
    split; [exact Hctx|].
    apply synced_wired in Hs. unfold wired in *.
    rewrite E4, E5, E6, E7, E8. exact Hs.
  - split; [congruence|]. split; [exact Hc|]. split; [exact Hd|].
    split; [exact Hosc1|]. intros E. congruence.
Qed.

Lemma TrackOK_stopped ctx g d t : TrackOK ctx g d t -> TrackOK ctx g d (stopped t).
Proof.
  intros (Hid & Hc & Hd & _ & _).
  split; [exact Hid|]. split; [exact Hc|]. split; [exact Hd|]. simpl.
  split; [intros [? E]; discriminate | intros E; discriminate].
Qed.

Lemma TrackOK_newTrack ctx g d n a : TrackOK ctx g d (newTrack d n a).
Proof.
  split; [reflexivity|].
  split; [unfold controls_in_range; simpl; lra|].
  split; [unfold distance_in_range; simpl; lra|]. simpl.
  split; [intros [? E]; discriminate | intros E; discriminate].
Qed.

Lemma TrackOK_chain (s : Service) (d : string) (t : AudioTrack) :
  audioContext s = true ->
  deviceId t = d -> controls_in_range t -> distance_in_range t ->
  (is_Some (oscillator t) -> exists f, type (audioSource t) = type_oscillator f) ->
  (playing t = false \/ is_Some (oscillator t) \/ is_Some (audioSourceNode t)) ->
  TrackOK (audioContext s) (globalVolume s) d (startAudioTrack_chain s t).
Proof.
  intros Hctx Hid Hc Hd Hosc Hsrc. unfold startAudioTrack_chain. cbv zeta.
  set (t1 := with_nodes _ _ _ _ _ t).
  assert (Hupd : is_Some (oscillator t) \/ is_Some (audioSourceNode t) ->
                 TrackOK (audioContext s) (globalVolume s) d
                   (updateAudioTrack s (with_playing true t1))).
  { intros Hsome. apply updateAudioTrack_OK; try assumption.
    intros _. split; [exact Hctx|]. unfold wired. simpl. eauto. }
  simpl oscillator. simpl audioSourceNode.
  destruct (oscillator t) as [o|] eqn:Ho.
  - apply Hupd. left; eauto.
  - destruct (audioSourceNode t) as [a|] eqn:Ha.
    + apply Hupd. right; eauto.
    + split; [exact Hid|]. split; [exact Hc|]. split; [exact Hd|]. simpl.
      split; [intros [? E]; congruence|].
      intros E. destruct Hsrc as [Hf | [[? Hx] | [? Hx]]]; congruence.
Qed.

Lemma WellFormed_insert (s : Service) (d : string) (t : AudioTrack) :
  WellFormed s -> TrackOK (audioContext s) (globalVolume s) d t ->
  WellFormed (with_audioTracks (<[d := t]> (audioTracks s)) s).
Proof.
  intros [Hinv Hall] Ht. split; [exact Hinv|]. simpl.
  apply map_Forall_insert_2; assumption.
Qed.

Lemma stopAudioTrack_WellFormed d s : WellFormed s -> WellFormed (stopAudioTrack d s).
Proof.
  intros Hwf. unfold stopAudioTrack.
  destruct (audioTracks s !! d) as [t|] eqn:Hd; [|exact Hwf].
  destruct (negb (playing t)); [exact Hwf|].
  apply WellFormed_insert; [exact Hwf|].
  apply TrackOK_stopped. exact (proj2 Hwf d t Hd).
Qed.

Lemma startAudioTrack_WellFormed d s : WellFormed s -> WellFormed (startAudioTrack d s).
Proof.
  intros Hwf. unfold startAudioTrack.
  destruct (audioTracks s !! d) as [t|] eqn:Hd; [|exact Hwf].
  destruct (proj2 Hwf d t Hd) as (Hid & Hc & Hdist & Hosc & _).
  destruct (playing t) eqn:Hp; [exact Hwf|]. simpl.
  destruct (audioContext s) eqn:Hctx; [|exact Hwf]. simpl.
  destruct (type (audioSource t)) as [f|file] eqn:Hty.
  - apply WellFormed_insert; [exact Hwf|].
    apply TrackOK_chain; try assumption; simpl.
    + intros _. rewrite Hty. eauto.
    + left. exact Hp.
  - destruct (truthy file); [exact Hwf|].
    apply WellFormed_insert; [exact Hwf|].
    apply TrackOK_chain; try assumption.
    + intros H. destruct (Hosc H) as [f E]. discriminate.
    + left. exact Hp.
Qed.

Lemma with_distance_in_range (s : Service) (x : R) (t : AudioTrack) :
  Invariant s ->
  distance_in_range
    (with_distance (calculateVolumeFromDistance s x) (calculateDistanceEffects s x) t).
Proof.
  intros Hinv. unfold distance_in_range. simpl.
  pose proof (volume_in_range s x Hinv) as Hv.
  destruct Hinv as (_ & _ & [_ Hl] & _).
  assert (He : 1 / 2 <= e_pitch (calculateDistanceEffects s x) <= 2 /\
               1 / 10 <= e_filter (calculateDistanceEffects s x) <= 1 /\
               0 <= e_reverb (calculateDistanceEffects s x) <= 8 / 10).
  { unfold calculateDistanceEffects.
    destruct (negb (enabled (distanceEffects s))); simpl; [lra|].
    split; [|split].
    - destruct (pitchEffect (distanceEffects s)); [apply clamp_bounds|]; lra.
    - destruct (filterEffect (distanceEffects s)); [apply clamp_bounds|]; lra.
    - destruct (reverbEffect (distanceEffects s)); [apply clamp_bounds|]; lra. }
  destruct He as (Hp & Hf & Hr).
  repeat split; lra.
Qed.

Lemma updateSensorDistance_WellFormed d x s :
  WellFormed s -> WellFormed (updateSensorDistance d x s).
Proof.
  intros Hwf. unfold updateSensorDistance.
  destruct (audioTracks s !! d) as [t|] eqn:Hd; [|exact Hwf]. cbv zeta.
  set (t1 := with_distance _ _ t).
  set (t2 := if playing t1 then updateAudioTrack s t1 else t1).
  assert (Hwf2 : WellFormed (with_audioTracks (<[d := t2]> (audioTracks s)) s)).
  { apply WellFormed_insert; [exact Hwf|]. unfold t2.
    pose proof (proj2 Hwf d t Hd) as Hok.
    apply (TrackOK_refresh s (globalVolume s) d t t1 Hok).
    - repeat split; reflexivity.
    - exact (proj1 (proj2 Hok)).
    - apply with_distance_in_range. exact (proj1 Hwf). }
  destruct (gt _ 0 && _); [apply startAudioTrack_WellFormed, Hwf2|].
  destruct (strict_eq _ 0 && _); [apply stopAudioTrack_WellFormed, Hwf2 | exact Hwf2].
Qed.

Lemma setTrackControl_WellFormed change d s :
  (forall t, same_wiring t (change t)) ->
  (forall t, controls_in_range t -> controls_in_range (change t)) ->
  (forall t, distance_in_range t -> distance_in_range (change t)) ->
  WellFormed s -> WellFormed (setTrackControl change d s).
Proof.
  intros Hw Hc Hd Hwf. unfold setTrackControl.
  destruct (audioTracks s !! d) as [t|] eqn:Ht; [|exact Hwf].
  apply WellFormed_insert; [exact Hwf|].
  pose proof (proj2 Hwf d t Ht) as Hok.
  apply (TrackOK_refresh s (globalVolume s) d t (change t) Hok).
  - apply Hw.
  - apply Hc. exact (proj1 (proj2 Hok)).
  - apply Hd. exact (proj1 (proj2 (proj2 Hok))).
Qed.

Lemma setGlobalVolume_WellFormed v s : WellFormed s -> WellFormed (setGlobalVolume v s).
Proof.
  intros [Hinv Hall]. split.
  - exact (call_Invariant (CsetGlobalVolume v) s Hinv).
  - unfold setGlobalVolume. cbv zeta. simpl audioTracks. simpl audioContext.
    simpl globalVolume.
    apply map_Forall_fmap. intros d t Ht. simpl.
    pose proof (Hall d t Ht) as Hok.
    set (s1 := {| audioContext := audioContext s; audioTracks := audioTracks s;
                  audioBuffers := audioBuffers s;
                  globalVolume := Math_max 0 (Math_min 1 v);
                  maxVolumeLimit := maxVolumeLimit s; maxDistance := maxDistance s;
                  minDistance := minDistance s; volumeCurve := volumeCurve s;
                  distanceEffects := distanceEffects s |}).
    apply (TrackOK_refresh s1 (globalVolume s) d t t Hok).
    + repeat split; reflexivity.
    + exact (proj1 (proj2 Hok)).
    + exact (proj1 (proj2 (proj2 Hok))).
Qed.

Lemma call_WellFormed c s : WellFormed s -> WellFormed (call c s).
Proof.
  intros Hwf. destruct c; simpl call.
  - split; [exact (call_Invariant (CsetVolumeCurve curve) s (proj1 Hwf)) | exact (proj2 Hwf)].
  - split; [exact (call_Invariant (CsetDistanceRange minDistance0 maxDistance0) s (proj1 Hwf))
           | exact (proj2 Hwf)].
  - split; [exact (call_Invariant (CsetVolumeLimit limit) s (proj1 Hwf)) | exact (proj2 Hwf)].
  - apply setGlobalVolume_WellFormed, Hwf.
  - split; [exact (call_Invariant (CsetDistanceEffects effects) s (proj1 Hwf))
           | exact (proj2 Hwf)].
  - unfold setAudioTrack. cbv zeta.
    apply WellFormed_insert; [|apply TrackOK_newTrack].
    destruct (decide _); [apply stopAudioTrack_WellFormed, Hwf | exact Hwf].
  - apply updateSensorDistance_WellFormed, Hwf.
  - apply startAudioTrack_WellFormed, Hwf.
  - apply stopAudioTrack_WellFormed, Hwf.
  - apply setTrackControl_WellFormed; [| | |exact Hwf].
    + intros t. repeat split; reflexivity.
    + intros t (H1 & H2 & H3 & H4). unfold controls_in_range. simpl.
      split; [apply clamp_bounds; lra | tauto].
    + intros t H. exact H.
  - apply setTrackControl_WellFormed; [| | |exact Hwf].
    + intros t. repeat split; reflexivity.
    + intros t (H1 & H2 & H3 & H4). unfold controls_in_range. simpl.
      split; [tauto|]. split; [apply clamp_bounds; lra | tauto].
    + intros t H. exact H.
  - apply setTrackControl_WellFormed; [| | |exact Hwf].
    + intros t. repeat split; reflexivity.
    + intros t (H1 & H2 & H3 & H4). unfold controls_in_range. simpl.
      split; [tauto|]. split; [tauto|]. split; [apply clamp_bounds; lra | tauto].
    + intros t H. exact H.
  - apply setTrackControl_WellFormed; [| | |exact Hwf].
    + intros t. repeat split; reflexivity.
    + intros t (H1 & H2 & H3 & H4). unfold controls_in_range. simpl.
      split; [tauto|]. split; [tauto|]. split; [tauto | apply clamp_bounds; lra].
    + intros t H. exact H.
  - unfold removeAudioTrack. cbv zeta.
    destruct (stopAudioTrack_WellFormed deviceId0 s Hwf) as [Hinv Hall].
    split; [exact Hinv|]. simpl. apply map_Forall_delete, Hall.
  - split; [exact (call_Invariant Cdispose s (proj1 Hwf))|]. simpl.
    apply map_Forall_empty.
Qed.

Lemma Step_WellFormed s s' : Step s s' -> WellFormed s -> WellFormed s'.
Proof.
  intros [c s0 | d file t s0 Hd Hty Hfile] Hwf.
  - apply call_WellFormed, Hwf.
  - destruct Hwf as [Hinv Hall]. split; [exact Hinv|].
    unfold startAudioTrack_resume. simpl.
    apply map_Forall_insert_2; [|exact Hall].
    destruct (Hall d t Hd) as (Hid & Hc & Hdist & Hosc & Hplay).
    unfold startAudioTrack_loaded.
    destruct (audioContext s0) eqn:Hctx; simpl.
    + rewrite <- Hctx. apply TrackOK_chain; try assumption; simpl.
      right. right. eauto.
    + split; [exact Hid|]. split; [exact Hc|]. split; [exact Hdist|].
      split; [exact Hosc | exact Hplay].
Qed.

Lemma Runs_WellFormed s : Runs s -> WellFormed s.
Proof.
  induction 1 as [ctx | s s' _ IH Hstep].
  - split; [apply new_Invariant | apply map_Forall_empty].
  - exact (Step_WellFormed s s' Hstep IH).
Qed.

Lemma Reachable_Runs s : Reachable s -> Runs s.
Proof.
  induction 1 as [ctx | c s _ IH].
  - apply Runs_new.
  - apply (Runs_step s); [exact IH | apply Step_call].
Qed.

End EnhancedInvariants.

(** ** Consequences for the tracks of a run *)

Section EnhancedRunFacts.
Import JS Enhanced EnhancedRuns EnhancedProperRuns.

(** A run whose calls are guarded is a run. *)
Lemma ProperRuns_Runs (s : Service) : ProperRuns s -> Runs s.
Proof.
  induction 1 as [ctx | s s' _ IH Hstep].
  - apply Runs_new.
  - apply (Runs_step s s' IH).
    destruct Hstep as [c s _ | d file track s H1 H2 H3].
    + apply Step_call.
    + apply Step_loaded; assumption.
Qed.

(** On such a run the range stays a proper one. *)
Lemma ProperRuns_range (s : Service) :
  ProperRuns s -> minDistance s < maxDistance s.
Proof.
  intros Hs. destruct (Runs_WellFormed s (ProperRuns_Runs s Hs)) as [(_ & H & _) _].
  lra.
Qed.

(** X6.  In every state of a run whose calls of [setDistanceRange] have a
    minimum below 2^53, the track registered under a device id
    carries that id, its user controls are in their ranges (volume and
    reverb in [0, 1], pitch in [0.5, 2], filter in [0.1, 1]) and so are the
    values it got from the distance (volume in [0, 1], pitch in [0.5, 2],
    filter in [0.1, 1], reverb in [0, 0.8]). *)
Theorem track_values_in_range (s : Service) (d : string) (t : AudioTrack) :
  ProperRuns s -> audioTracks s !! d = Some t ->
  deviceId t = d /\
  (0 <= nodeVolume t <= 1 /\ 1 / 2 <= pitch t <= 2 /\
   0 <= reverb t <= 1 /\ 1 / 10 <= filter t <= 1) /\
  (0 <= volume t <= 1 /\ 1 / 2 <= distancePitch t <= 2 /\
   1 / 10 <= distanceFilter t <= 1 /\ 0 <= distanceReverb t <= 8 / 10).
Proof.
  intros Hs Hd.
  destruct (proj2 (Runs_WellFormed s (ProperRuns_Runs s Hs)) d t Hd)
    as (Hid & Hc & Hdist & _).
  split; [exact Hid|]. split; [exact Hc | exact Hdist].
Qed.

Lemma started_Runs : Runs Examples.started.
Proof. apply Reachable_Runs, started_Reachable. Qed.

Lemma started_ProperRuns : ProperRuns Examples.started.
Proof.
  apply (ProperRuns_step Examples.registered).
  - apply (ProperRuns_step (new true)); [apply ProperRuns_new|].
    apply (ProperStep_call (CsetAudioTrack "dev" "Device" Examples.osc_mid)).
    exact I.
  - apply (ProperStep_call (CupdateSensorDistance "dev" 5)). exact I.
Qed.

Lemma track_values_in_range_witness :
  ProperRuns Examples.started /\
  audioTracks Examples.started !! "dev" = Some Examples.started_track /\
  deviceId Examples.started_track = "dev" /\
  0 <= volume Examples.started_track <= 1.
Proof.
  destruct (track_values_in_range Examples.started "dev" Examples.started_track
              started_ProperRuns started_track_eq) as (Hid & _ & Hv & _).
  split; [exact started_ProperRuns|]. split; [exact started_track_eq|].
  split; [exact Hid | exact Hv].
Defined.

(** X7.  In every state of a run whose calls of [setDistanceRange] have a
    minimum below 2^53, a playing track is fully wired and its
    nodes hold the current values: the audio context exists; the gain is
    volume * nodeVolume * globalVolume, in [0, 1]; the filter frequency is
    22050 * filter * distanceFilter, between 220.5 and 22050; the delay is
    0.03 + min (0.5, reverb + distanceReverb) * 0.1, between 0.03 and 0.08;
    and there is a source node, an oscillator at frequency * pitch *
    distancePitch or a buffer source at rate pitch * distancePitch. *)
Theorem playing_track_is_wired (s : Service) (d : string) (t : AudioTrack) :
  ProperRuns s -> audioTracks s !! d = Some t -> playing t = true ->
  audioContext s = true /\
  (gainNode t = Some {| gain := volume t * nodeVolume t * globalVolume s |} /\
   0 <= volume t * nodeVolume t * globalVolume s <= 1) /\
  (filterNode t
   = Some {| filter_frequency := 22050 * (filter t * distanceFilter t) |} /\
   2205 / 10 <= 22050 * (filter t * distanceFilter t) <= 22050) /\
  (reverbNode t
   = Some {| delayTime :=
               3 / 100 + Math_min (1 / 2) (reverb t + distanceReverb t) * (1 / 10) |} /\
   3 / 100 <= 3 / 100 + Math_min (1 / 2) (reverb t + distanceReverb t) * (1 / 10)
   <= 8 / 100) /\
  ((exists n f, oscillator t = Some n /\
                type (audioSource t) = type_oscillator f /\
                osc_frequency n = f * (pitch t * distancePitch t)) \/
   (exists n, audioSourceNode t = Some n /\
              playbackRate n = pitch t * distancePitch t)).
Proof.
  intros Hs Hd Hp.
  destruct (Runs_WellFormed s (ProperRuns_Runs s Hs)) as [(_ & _ & _ & Hg) Hall].
  destruct (Hall d t Hd) as (_ & Hc & Hdist & _ & Hplay).
  destruct (Hplay Hp) as (Hctx & Hgain & Hfilter & Hreverb & Hosc & Hsrc & Hsome).
  destruct Hc as (C1 & C2 & C3 & C4), Hdist as (D1 & D2 & D3 & D4).
  split; [exact Hctx|].
  split; [split; [exact Hgain|]|].
  { split.
    - apply Rmult_le_pos; [apply Rmult_le_pos|]; lra.
    - assert (0 <= volume t * nodeVolume t <= 1) by nra. nra. }
  split; [split; [exact Hfilter | nra]|].
  split; [split; [exact Hreverb|]|].
  { pose proof (Math_min_ub_l (1 / 2) (reverb t + distanceReverb t)).
    assert (0 <= Math_min (1 / 2) (reverb t + distanceReverb t)).
    { unfold Math_min. apply Rmin_glb; lra. }
    lra. }
  destruct Hsome as [[n Hn] | [n Hn]].
  - left. destruct (Hosc n Hn) as (f & Hf & Hfreq). exists n, f. auto.
  - right. exists n. split; [exact Hn | apply Hsrc, Hn].
Qed.

Lemma playing_track_is_wired_witness :
  ProperRuns Examples.started /\
  audioTracks Examples.started !! "dev" = Some Examples.started_track /\
  playing Examples.started_track = true /\
  audioContext Examples.started = true /\
  gainNode Examples.started_track
  = Some {| gain := volume Examples.started_track
                    * nodeVolume Examples.started_track
                    * globalVolume Examples.started |}.
Proof.
  destruct (playing_track_is_wired Examples.started "dev" Examples.started_track
              started_ProperRuns started_track_eq eq_refl) as (Hctx & [Hg _] & _).
  split; [exact started_ProperRuns|]. split; [exact started_track_eq|].
  split; [reflexivity|]. split; [exact Hctx | exact Hg].
Defined.

Lemma stopAudioTrack_audioContext d s :
  audioContext (stopAudioTrack d s) = audioContext s.
Proof.
  unfold stopAudioTrack. destruct (audioTracks s !! d) as [t|]; [|reflexivity].
  destruct (negb (playing t)); reflexivity.
Qed.

Lemma startAudioTrack_audioContext d s :
  audioContext (startAudioTrack d s) = audioContext s.
Proof.
  unfold startAudioTrack. destruct (audioTracks s !! d) as [t|]; [|reflexivity].
  destruct (playing t || negb (audioContext s)); [reflexivity|].
  destruct (type (audioSource t)) as [f|file]; [reflexivity|].
  destruct (truthy file); reflexivity.
Qed.

Lemma updateSensorDistance_audioContext d x s :
  audioContext (updateSensorDistance d x s) = audioContext s.
Proof.
  unfold updateSensorDistance. destruct (audioTracks s !! d) as [t|]; [|reflexivity].
  cbv zeta. destruct (gt _ 0 && _).
  - rewrite startAudioTrack_audioContext. reflexivity.
  - destruct (strict_eq _ 0 && _); [rewrite stopAudioTrack_audioContext|]; reflexivity.
Qed.

Lemma call_audioContext c s :
  audioContext (call c s)
  = match c with Cdispose => false | _ => audioContext s end.
Proof.
  destruct c; simpl call; try reflexivity.
  - unfold setAudioTrack. cbv zeta. simpl.
    destruct (decide _); [apply stopAudioTrack_audioContext | reflexivity].
  - apply updateSensorDistance_audioContext.
  - apply startAudioTrack_audioContext.
  - apply stopAudioTrack_audioContext.
  - unfold setTrackVolume, setTrackControl.
    destruct (audioTracks s !! deviceId0); reflexivity.
  - unfold setTrackPitch, setTrackControl.
    destruct (audioTracks s !! deviceId0); reflexivity.
  - unfold setTrackReverb, setTrackControl.
    destruct (audioTracks s !! deviceId0); reflexivity.
  - unfold setTrackFilter, setTrackControl.
    destruct (audioTracks s !! deviceId0); reflexivity.
  - unfold removeAudioTrack. cbv zeta. simpl. apply stopAudioTrack_audioContext.
Qed.

(** X8.  Without an audio context nothing ever plays: no step of the
    service creates a context once it is missing (the constructor failed
    or [dispose] closed it), and in every state of a run without a context
    no registered track is playing. *)
Theorem no_context_no_sound :
  (forall s s', Step s s' -> audioContext s = false -> audioContext s' = false) /\
  (forall s d t,
      Runs s -> audioContext s = false -> audioTracks s !! d = Some t ->
      playing t = false).
Proof.
  split.
  - intros s s' [c s0 | d file t s0 _ _ _] Hctx.
    + rewrite call_audioContext. destruct c; auto.
    + exact Hctx.
  - intros s d t Hs Hctx Hd.
    destruct (proj2 (Runs_WellFormed s Hs) d t Hd) as (_ & _ & _ & _ & Hplay).
    destruct (playing t); [|reflexivity].
    destruct (Hplay eq_refl) as [E _]. congruence.
Qed.

Lemma no_context_no_sound_witness :
  let s := call (CsetAudioTrack "dev" "Device" Examples.osc_mid) (new false) in
  let s' := call (CstartAudioTrack "dev") s in
  Step s s' /\ audioContext s = false /\ audioContext s' = false /\
  Runs s' /\
  audioTracks s' !! "dev" = Some (newTrack "dev" "Device" Examples.osc_mid) /\
  playing (newTrack "dev" "Device" Examples.osc_mid) = false.
Proof.
  intros s s'.
  assert (Hstep : Step s s') by apply Step_call.
  assert (Hs : Runs s).
  { apply (Runs_step (new false)); [apply Runs_new | apply Step_call]. }
  assert (Hs' : Runs s') by (apply (Runs_step s); assumption).
  assert (Hctx : audioContext s = false) by reflexivity.
  assert (Hctx' : audioContext s' = false)
    by exact (proj1 no_context_no_sound s s' Hstep Hctx).
  assert (Hd : audioTracks s' !! "dev"
               = Some (newTrack "dev" "Device" Examples.osc_mid)) by reflexivity.
  split; [exact Hstep|]. split; [exact Hctx|]. split; [exact Hctx'|].
  split; [exact Hs'|]. split; [exact Hd|].
  exact (proj2 no_context_no_sound s' "dev" _ Hs' Hctx' Hd).
Defined.

End EnhancedRunFacts.

(** ** The registry of tracks *)

Section EnhancedRegistry.
Import JS Enhanced EnhancedRuns.

Lemma with_audioTracks_same s : with_audioTracks (audioTracks s) s = s.
Proof. destruct s; reflexivity. Qed.

Lemma stopAudioTrack_other d d' s :
  d <> d' -> audioTracks (stopAudioTrack d s) !! d' = audioTracks s !! d'.
Proof.
  intros Hne. unfold stopAudioTrack.
  destruct (audioTracks s !! d) as [t|]; [|reflexivity].
  destruct (negb (playing t)); [reflexivity|].
  simpl. apply lookup_insert_ne, Hne.
Qed.

Lemma startAudioTrack_other d d' s :
  d <> d' -> audioTracks (startAudioTrack d s) !! d' = audioTracks s !! d'.
Proof.
  intros Hne. unfold startAudioTrack.
  destruct (audioTracks s !! d) as [t|]; [|reflexivity].
  destruct (playing t || negb (audioContext s)); [reflexivity|].
  destruct (type (audioSource t)) as [f|file].
  - simpl. apply lookup_insert_ne, Hne.
  - destruct (truthy file); [reflexivity|]. simpl. apply lookup_insert_ne, Hne.
Qed.

Lemma updateSensorDistance_other d d' x s :
  d <> d' -> audioTracks (updateSensorDistance d x s) !! d' = audioTracks s !! d'.
Proof.
  intros Hne. unfold updateSensorDistance.
  destruct (audioTracks s !! d) as [t|]; [|reflexivity]. cbv zeta.
  destruct (gt _ 0 && _).
  - rewrite startAudioTrack_other by exact Hne. simpl. apply lookup_insert_ne, Hne.
  - destruct (strict_eq _ 0 && _).
    + rewrite stopAudioTrack_other by exact Hne. simpl. apply lookup_insert_ne, Hne.
    + simpl. apply lookup_insert_ne, Hne.
Qed.

Lemma setTrackControl_other change d d' s :
  d <> d' -> audioTracks (setTrackControl change d s) !! d' = audioTracks s !! d'.
Proof.
  intros Hne. unfold setTrackControl.
  destruct (audioTracks s !! d) as [t|]; [|reflexivity].
  simpl. apply lookup_insert_ne, Hne.
Qed.

(** X9.  The devices are independent: a call that names a device leaves
    the track of every other device exactly as it was. *)
Theorem devices_are_independent (c : Call) (d d' : string) (s : Service) :
  target c = Some d -> d <> d' ->
  audioTracks (call c s) !! d' = audioTracks s !! d'.
Proof.
  intros Ht Hne. destruct c; simpl in Ht; try discriminate;
    injection Ht as ->; simpl call.
  - unfold setAudioTrack. cbv zeta. simpl.
    rewrite lookup_insert_ne by exact Hne.
    destruct (decide _); [apply stopAudioTrack_other, Hne | reflexivity].
  - apply updateSensorDistance_other, Hne.
  - apply startAudioTrack_other, Hne.
  - apply stopAudioTrack_other, Hne.
  - apply setTrackControl_other, Hne.
  - apply setTrackControl_other, Hne.
  - apply setTrackControl_other, Hne.
  - apply setTrackControl_other, Hne.
  - unfold removeAudioTrack. cbv zeta. simpl.
    rewrite lookup_delete_ne by exact Hne.
    apply stopAudioTrack_other, Hne.
Qed.

Lemma devices_are_independent_witness :
  target (CupdateSensorDistance "cow" 200) = Some "cow"%string /\
  "cow"%string <> "dev"%string /\
  audioTracks (call (CupdateSensorDistance "cow" 200) MoreExamples.two_devices) !! "dev"
  = audioTracks MoreExamples.two_devices !! "dev".
Proof.
  assert (Hne : "cow"%string <> "dev"%string) by discriminate.
  split; [reflexivity|]. split; [exact Hne|].
  exact (devices_are_independent (CupdateSensorDistance "cow" 200) "cow" "dev"
           MoreExamples.two_devices eq_refl Hne).
Defined.

(** X10.  Registering and removing.  After [setAudioTrack] the device has a
    fresh idle track with the default controls, whatever it had before;
    after [removeAudioTrack] it has none.  Removing a device that is not
    registered changes nothing, and registering a new device and removing
    it again gives back the state before. *)
Theorem register_and_remove (s : Service) (d n : string) (a : AudioSource) :
  audioTracks (setAudioTrack d n a s) !! d = Some (newTrack d n a) /\
  audioTracks (removeAudioTrack d s) !! d = None /\
  (audioTracks s !! d = None -> removeAudioTrack d s = s) /\
  (audioTracks s !! d = None -> removeAudioTrack d (setAudioTrack d n a s) = s).
Proof.
  split; [|split; [|split]].
  - unfold setAudioTrack. cbv zeta. simpl. apply lookup_insert_eq.
  - unfold removeAudioTrack. cbv zeta. simpl. apply lookup_delete_eq.
  - intros Hd. unfold removeAudioTrack, stopAudioTrack. rewrite Hd. cbv zeta.
    rewrite delete_id by exact Hd. apply with_audioTracks_same.
  - intros Hd. unfold setAudioTrack. cbv zeta.
    destruct (decide (is_Some (audioTracks s !! d))) as [[t Ht]|_]; [congruence|].
    unfold removeAudioTrack, stopAudioTrack. simpl.
    rewrite lookup_insert_eq. simpl.
    unfold with_audioTracks. simpl.
    rewrite delete_insert_eq, delete_id by exact Hd.
    destruct s; reflexivity.
Qed.

Lemma register_and_remove_witness :
  audioTracks Examples.started !! "cow" = None /\
  removeAudioTrack "cow" Examples.started = Examples.started /\
  removeAudioTrack "cow"
    (setAudioTrack "cow" "Cow sensor" MoreExamples.cow_moo Examples.started)
  = Examples.started.
Proof.
  assert (Hd : audioTracks Examples.started !! "cow" = None).
  { rewrite started_eq. reflexivity. }
  destruct (register_and_remove Examples.started "cow" "Cow sensor"
              MoreExamples.cow_moo) as (_ & _ & H1 & H2).
  split; [exact Hd|]. split; [exact (H1 Hd) | exact (H2 Hd)].
Defined.

End EnhancedRegistry.

(** ** Global volume, distance range and track controls *)

Section EnhancedControls.
Import JS Enhanced EnhancedRuns EnhancedProperRuns.

(** X11.  In every state of a run whose calls of [setDistanceRange] have a
    minimum below 2^53: [setGlobalVolume] stores its argument clamped to
    [0, 1] and rewrites the gain of every playing track to
    volume * nodeVolume * globalVolume in the same call; tracks that are not
    playing are left as they are.  A global volume of zero or less silences
    every playing track. *)
Theorem setGlobalVolume_applies (s : Service) (v : R) (d : string) (t : AudioTrack) :
  ProperRuns s -> audioTracks s !! d = Some t ->
  let g := Math_max 0 (Math_min 1 v) in
  globalVolume (setGlobalVolume v s) = g /\ 0 <= g <= 1 /\
  exists t',
    audioTracks (setGlobalVolume v s) !! d = Some t' /\
    volume t' = volume t /\ nodeVolume t' = nodeVolume t /\
    playing t' = playing t /\
    (playing t = false -> t' = t) /\
    (playing t = true ->
     gainNode t' = Some {| gain := volume t * nodeVolume t * g |}) /\
    (playing t = true -> v <= 0 -> gainNode t' = Some {| gain := 0 |}).
Proof.
  intros Hs Hd g.
  split; [reflexivity|]. split; [apply clamp_bounds; lra|].
  unfold setGlobalVolume. cbv zeta. simpl audioTracks.
  rewrite lookup_fmap, Hd. simpl.
  eexists. split; [reflexivity|].
  destruct (playing t) eqn:Hp.
  - destruct (proj2 (Runs_WellFormed s (ProperRuns_Runs s Hs)) d t Hd)
      as (_ & _ & _ & _ & Hplay).
    destruct (Hplay Hp) as (Hctx & Hgain & _).
    unfold updateAudioTrack. rewrite Hp. simpl. rewrite Hctx. simpl.
    rewrite Hgain. fold g.
    split; [reflexivity|]. split; [reflexivity|]. split; [exact Hp|].
    split; [discriminate|]. split; [reflexivity|].
    intros _ Hv. do 2 f_equal.
    assert (Eg : g = 0).
    { unfold g. rewrite (Math_min_right 1 v) by lra. apply Math_max_left, Hv. }
    rewrite Eg. ring.
  - split; [reflexivity|]. split; [reflexivity|]. split; [exact Hp|].
    split; [reflexivity|]. split; discriminate.
Qed.

Lemma setGlobalVolume_applies_witness :
  ProperRuns Examples.started /\
  audioTracks Examples.started !! "dev" = Some Examples.started_track /\
  exists t',
    audioTracks (setGlobalVolume 0 Examples.started) !! "dev" = Some t' /\
    gainNode t' = Some {| gain := 0 |}.
Proof.
  destruct (setGlobalVolume_applies Examples.started 0 "dev" Examples.started_track
              started_ProperRuns started_track_eq)
    as (_ & _ & t' & Ht' & _ & _ & _ & _ & _ & Hmute).
  split; [exact started_ProperRuns|]. split; [exact started_track_eq|].
  exists t'. split; [exact Ht'|]. apply Hmute; [reflexivity | lra].
Defined.



Lemma setTrackControl_lookup change d s t :
  audioTracks s !! d = Some t ->
  audioTracks (setTrackControl change d s) !! d
  = Some (if playing (change t) then updateAudioTrack s (change t) else change t).
Proof.
  intros Hd. unfold setTrackControl. rewrite Hd. simpl. apply lookup_insert_eq.
Qed.

Lemma refreshed_controls s t1 :
  let t' := if playing t1 then updateAudioTrack s t1 else t1 in
  nodeVolume t' = nodeVolume t1 /\ pitch t' = pitch t1 /\
  reverb t' = reverb t1 /\ filter t' = filter t1 /\
  volume t' = volume t1 /\ playing t' = playing t1.
Proof.
  cbv zeta. destruct (playing t1) eqn:Hp; [|rewrite Hp; repeat split; reflexivity].
  unfold updateAudioTrack. rewrite Hp.
  destruct (negb true || negb (audioContext s)); simpl; rewrite ?Hp;
    repeat split; reflexivity.
Qed.

(** X13.  The four setters of a track store their argument clamped to the
    range of the control (volume and reverb to [0, 1], pitch to [0.5, 2],
    filter to [0.1, 1]), leave the other controls, the distance volume and
    the playing flag alone, and, when the track plays, leave its nodes
    holding the values computed from the new controls. *)
Theorem track_setters_clamp (s : Service) (d : string) (t : AudioTrack) (v : R) :
  Runs s -> audioTracks s !! d = Some t ->
  (exists t',
      audioTracks (setTrackVolume d v s) !! d = Some t' /\
      nodeVolume t' = Math_max 0 (Math_min 1 v) /\
      pitch t' = pitch t /\ reverb t' = reverb t /\ filter t' = filter t /\
      volume t' = volume t /\ playing t' = playing t /\
      (playing t = true -> synced (globalVolume s) t')) /\
  (exists t',
      audioTracks (setTrackPitch d v s) !! d = Some t' /\
      pitch t' = Math_max (1 / 2) (Math_min 2 v) /\
      nodeVolume t' = nodeVolume t /\ reverb t' = reverb t /\ filter t' = filter t /\
      volume t' = volume t /\ playing t' = playing t /\
      (playing t = true -> synced (globalVolume s) t')) /\
  (exists t',
      audioTracks (setTrackReverb d v s) !! d = Some t' /\
      reverb t' = Math_max 0 (Math_min 1 v) /\
      nodeVolume t' = nodeVolume t /\ pitch t' = pitch t /\ filter t' = filter t /\
      volume t' = volume t /\ playing t' = playing t /\
      (playing t = true -> synced (globalVolume s) t')) /\
  (exists t',
      audioTracks (setTrackFilter d v s) !! d = Some t' /\
      filter t' = Math_max (1 / 10) (Math_min 1 v) /\
      nodeVolume t' = nodeVolume t /\ pitch t' = pitch t /\ reverb t' = reverb t /\
      volume t' = volume t /\ playing t' = playing t /\
      (playing t = true -> synced (globalVolume s) t')).
Proof.
  intros Hs Hd.
  assert (Hsync : forall c t',
             audioTracks (call c s) !! d = Some t' -> playing t' = playing t ->
             playing t = true -> synced (globalVolume (call c s)) t').
  { intros c t' Ht' Hp Hplay.
    assert (Hc : Runs (call c s)) by (apply (Runs_step s); [exact Hs | apply Step_call]).
    destruct (proj2 (Runs_WellFormed _ Hc) d t' Ht') as (_ & _ & _ & _ & H).
    apply H. congruence. }
  assert (Hg : forall change,
             globalVolume (setTrackControl change d s) = globalVolume s).
  { intros change. unfold setTrackControl. rewrite Hd. reflexivity. }
  split; [|split; [|split]].
  - pose proof (setTrackControl_lookup
                  (fun t => with_controls (Math_max 0 (Math_min 1 v)) (pitch t)
                              (reverb t) (filter t) t) d s t Hd) as Hl.
    eexists. split; [exact Hl|].
    match type of Hl with _ = Some (if playing ?t1 then _ else _) =>
      destruct (refreshed_controls s t1) as (E1 & E2 & E3 & E4 & E5 & E6) end.
    repeat (split; [assumption|]).
    intros Hplay.
    pose proof (Hsync (CsetTrackVolume d v) _ Hl E6 Hplay) as H.
    simpl call in H. unfold setTrackVolume in H. rewrite Hg in H. exact H.
  - pose proof (setTrackControl_lookup
                  (fun t => with_controls (nodeVolume t)
                              (Math_max (1 / 2) (Math_min 2 v))
                              (reverb t) (filter t) t) d s t Hd) as Hl.
    eexists. split; [exact Hl|].
    match type of Hl with _ = Some (if playing ?t1 then _ else _) =>
      destruct (refreshed_controls s t1) as (E1 & E2 & E3 & E4 & E5 & E6) end.
    repeat (split; [assumption|]).
    intros Hplay.
    pose proof (Hsync (CsetTrackPitch d v) _ Hl E6 Hplay) as H.
    simpl call in H. unfold setTrackPitch in H. rewrite Hg in H. exact H.
  - pose proof (setTrackControl_lookup
                  (fun t => with_controls (nodeVolume t) (pitch t)
                              (Math_max 0 (Math_min 1 v)) (filter t) t) d s t Hd) as Hl.
    eexists. split; [exact Hl|].
    match type of Hl with _ = Some (if playing ?t1 then _ else _) =>
      destruct (refreshed_controls s t1) as (E1 & E2 & E3 & E4 & E5 & E6) end.
    repeat (split; [assumption|]).
    intros Hplay.
    pose proof (Hsync (CsetTrackReverb d v) _ Hl E6 Hplay) as H.
    simpl call in H. unfold setTrackReverb in H. rewrite Hg in H. exact H.
  - pose proof (setTrackControl_lookup
                  (fun t => with_controls (nodeVolume t) (pitch t) (reverb t)
                              (Math_max (1 / 10) (Math_min 1 v)) t) d s t Hd) as Hl.
    eexists. split; [exact Hl|].
    match type of Hl with _ = Some (if playing ?t1 then _ else _) =>
      destruct (refreshed_controls s t1) as (E1 & E2 & E3 & E4 & E5 & E6) end.
    repeat (split; [assumption|]).
    intros Hplay.
    pose proof (Hsync (CsetTrackFilter d v) _ Hl E6 Hplay) as H.
    simpl call in H. unfold setTrackFilter in H. rewrite Hg in H. exact H.
Qed.

Lemma track_setters_clamp_witness :
  Runs Examples.started /\
  audioTracks Examples.started !! "dev" = Some Examples.started_track /\
  exists t',
    audioTracks (setTrackPitch "dev" 3 Examples.started) !! "dev" = Some t' /\
    pitch t' = Math_max (1 / 2) (Math_min 2 3).
Proof.
  destruct (track_setters_clamp Examples.started "dev" Examples.started_track 3
              started_Runs started_track_eq)
    as (_ & (t' & Ht' & Hp & _) & _).
  split; [exact started_Runs|]. split; [exact started_track_eq|].
  exists t'. split; [exact Ht' | exact Hp].
Defined.

End EnhancedControls.

(** ** Histories of the application *)

Section AppHistories.
Import JS App.

Lemma slice_last_snoc (l : list R) (x : R) :
  slice_last 19 l ++ [x] = slice_last 20 (l ++ [x]).
Proof.
  unfold slice_last. rewrite length_app. simpl.
  replace (length l + 1 - 20)%nat with (length l - 19)%nat by lia.
  rewrite drop_app_le by lia. reflexivity.
Qed.

Lemma length_slice_last n (l : list R) : length (slice_last n l) = Nat.min (length l) n.
Proof. unfold slice_last. rewrite length_drop. lia. Qed.

(** X14.  Recording a sample keeps the twenty most recent ones: the new
    history of the device is the last twenty elements of the old history
    followed by the sample, so it ends with the sample and has
    min (old length + 1, 20) elements; the history of every other device is
    untouched. *)
Theorem pushSample_keeps_last_twenty (history : gmap string (list R))
    (id : string) (x : R) :
  let old := default [] (history !! id) in
  exists new,
    pushSample history id x !! id = Some new /\
    new = slice_last 20 (old ++ [x]) /\
    length new = Nat.min (length old + 1) 20 /\
    last new = Some x /\
    (forall id', id' <> id -> pushSample history id x !! id' = history !! id').
Proof.
  intros old. unfold pushSample. fold old.
  exists (slice_last 19 old ++ [x]).
  split; [apply lookup_insert_eq|].
  split; [apply slice_last_snoc|].
  split; [rewrite length_app, length_slice_last; simpl; lia|].
  split; [apply last_snoc|].
  intros id' Hne. apply lookup_insert_ne. congruence.
Qed.

Lemma pushSample_length (h : gmap string (list R)) (id id' : string) (x : R) :
  length (default [] (pushSample h id x !! id'))
  = if decide (id' = id) then Nat.min (length (default [] (h !! id)) + 1) 20
    else length (default [] (h !! id')).
Proof.
  unfold pushSample. destruct (decide (id' = id)) as [->|Hne].
  - rewrite lookup_insert_eq. simpl.
    rewrite length_app, length_slice_last. simpl. lia.
  - rewrite lookup_insert_ne by congruence. reflexivity.
Qed.

Lemma onDeviceData_aligned c id x st : aligned st -> aligned (onDeviceData c id x st).
Proof.
  intros H id'. unfold onDeviceData. simpl.
  rewrite !pushSample_length. destruct (H id) as [E1 _], (H id') as [E2 L2].
  destruct (decide (id' = id)); [rewrite E1; split; lia | split; assumption].
Qed.

Lemma delete_length (h : gmap string (list R)) (id id' : string) :
  length (default [] (delete id h !! id'))
  = if decide (id' = id) then 0%nat else length (default [] (h !! id')).
Proof.
  destruct (decide (id' = id)) as [->|Hne].
  - rewrite lookup_delete_eq. reflexivity.
  - rewrite lookup_delete_ne by congruence. reflexivity.
Qed.

Lemma handle_aligned e st : aligned st -> aligned (handle e st).
Proof.
  intros H. destruct e; simpl handle.
  - apply onDeviceData_aligned, H.
  - apply onDeviceData_aligned, H.
  - intros id'. unfold stopDemoDevice. simpl. rewrite !delete_length.
    destruct (H id') as [E L]. destruct (decide _); split; lia.
  - exact H.
  - exact H.
  - exact H.
Qed.

(** X15.  Whatever messages, demo ticks, stops, disconnections, hidings and
    showings the application handles, the distance history and the volume
    history of every device have the same number of samples, at most
    twenty. *)
Theorem histories_stay_aligned (st : State) (id : string) :
  Reached st ->
  length (default [] (distanceHistory st !! id))
  = length (default [] (volumeHistory st !! id)) /\
  (length (default [] (distanceHistory st !! id)) <= 20)%nat.
Proof.
  intros Hst. revert id.
  induction Hst as [| e st _ IH].
  - intros id. simpl. rewrite !lookup_empty. simpl. split; lia.
  - apply handle_aligned. exact IH.
Qed.

Lemma histories_stay_aligned_witness :
  let st := handle (EdemoTick ProfessionalApp.initial (1 / 4))
              (handle (EdeviceData ProfessionalApp.initial "hc05" 42) initial) in
  Reached st /\
  length (default [] (distanceHistory st !! "hc05"))
  = length (default [] (volumeHistory st !! "hc05")).
Proof.
  intros st.
  assert (Hst : Reached st) by (repeat constructor).
  split; [exact Hst|].
  exact (proj1 (histories_stay_aligned st "hc05" Hst)).
Defined.

(** X16.  A message for a device keeps the list of devices, their order and
    their identities, gives every device of that id the new distance and
    the volume computed for it, and leaves the other devices as they were.
    The samples are recorded even when no such device is connected. *)
Theorem onDeviceData_updates (c : ProfessionalApp.Settings) (id : string) (x : R)
    (st : State) :
  let st' := onDeviceData c id x st in
  let v := ProfessionalApp.calculateVolumeFromDistance c x in
  map deviceId (connectedDevices st') = map deviceId (connectedDevices st) /\
  (forall i d, connectedDevices st !! i = Some d ->
     exists d', connectedDevices st' !! i = Some d' /\
                (deviceId d = id -> distance d' = x /\ volume d' = v /\
                                    deviceName d' = deviceName d /\
                                    audioFile d' = audioFile d) /\
                (deviceId d <> id -> d' = d)) /\
  last (default [] (distanceHistory st' !! id)) = Some x /\
  last (default [] (volumeHistory st' !! id)) = Some v.
Proof.
  intros st' v. unfold st', onDeviceData. simpl. fold v.
  split; [|split; [|split]].
  - rewrite map_map. apply map_ext. intros d. unfold updateDevice.
    destruct (decide _); reflexivity.
  - intros i d Hd. exists (updateDevice id x v d). split.
    + rewrite list_lookup_fmap, Hd. reflexivity.
    + unfold updateDevice. destruct (decide (deviceId d = id)) as [E|E]; simpl.
      * split; [intros _; repeat split; reflexivity | intros Hne; contradiction].
      * split; [intros E'; contradiction | intros _; reflexivity].
  - unfold pushSample. rewrite lookup_insert_eq. simpl. apply last_snoc.
  - unfold pushSample. rewrite lookup_insert_eq. simpl. apply last_snoc.
Qed.

Lemma pushSample_keeps_last_twenty_witness :
  exists new,
    pushSample {[ "hc05"%string := [3; 4] ]} "hc05" 5 !! "hc05" = Some new /\
    last new = Some 5 /\
    ("demo"%string <> "hc05"%string ->
     pushSample {[ "hc05"%string := [3; 4] ]} "hc05" 5 !! "demo"
     = ({[ "hc05"%string := [3; 4] ]} : gmap string (list R)) !! "demo").
Proof.
  destruct (pushSample_keeps_last_twenty {[ "hc05"%string := [3; 4] ]} "hc05" 5)
    as (new & Hn & _ & _ & Hl & Hother).
  exists new. split; [exact Hn|]. split; [exact Hl|].
  intros Hne. exact (Hother "demo"%string Hne).
Defined.

Lemma onDeviceData_updates_witness :
  let st' := onDeviceData ProfessionalApp.initial "hc05" 3 one_device in
  exists d',
    connectedDevices st' !! 0%nat = Some d' /\
    distance d' = 3 /\
    volume d' = ProfessionalApp.calculateVolumeFromDistance ProfessionalApp.initial 3.
Proof.
  intros st'.
  destruct (onDeviceData_updates ProfessionalApp.initial "hc05" 3 one_device)
    as (_ & Hdev & _).
  destruct (Hdev 0%nat _ eq_refl) as (d' & Hd' & Hsame & _).
  destruct (Hsame eq_refl) as (Hx & Hv & _).
  exists d'. split; [exact Hd'|]. split; [exact Hx | exact Hv].
Defined.

End AppHistories.

(** ** Visibility, demo wave and volume range of the application *)

Section AppDevices.
Import JS App.

Lemma filter_ext_in' {A} (f g : A -> bool) (l : list A) :
  (forall a, In a l -> f a = g a) -> List.filter f l = List.filter g l.
Proof.
  induction l as [|a l IH]; intros H; simpl; [reflexivity|].
  rewrite (H a) by (left; reflexivity).
  rewrite IH by (intros b Hb; apply H; right; exact Hb). reflexivity.
Qed.

(** X17.  Hidden devices are not visible, visible devices are connected
    ones, and showing a device that was hidden by [hideDevice] gives back
    the visible list there was before, provided it was not hidden already.
    Neither operation touches the devices or the histories. *)
Theorem hide_and_show (id : string) (st : State) :
  (forall d, In d (getVisibleDevices (hideDevice id st)) -> deviceId d <> id) /\
  (forall d, In d (getVisibleDevices st) ->
             In d (connectedDevices st) /\ deviceId d ∉ hiddenDevices st) /\
  (id ∉ hiddenDevices st ->
   getVisibleDevices (showDevice id (hideDevice id st)) = getVisibleDevices st) /\
  connectedDevices (showDevice id (hideDevice id st)) = connectedDevices st /\
  distanceHistory (showDevice id (hideDevice id st)) = distanceHistory st.
Proof.
  split; [|split; [|split; [|split]]].
  - intros d Hd. unfold getVisibleDevices, hideDevice in Hd. simpl in Hd.
    apply filter_In in Hd as [_ Hv].
    apply negb_true_iff, bool_decide_eq_false in Hv.
    intros E. apply Hv. rewrite E. set_solver.
  - intros d Hd. unfold getVisibleDevices in Hd.
    apply filter_In in Hd as [Hin Hv].
    apply negb_true_iff, bool_decide_eq_false in Hv. split; assumption.
  - intros Hid. unfold getVisibleDevices, showDevice, hideDevice. simpl.
    apply filter_ext_in'. intros d _. f_equal.
    apply bool_decide_ext.
    rewrite elem_of_difference, elem_of_union, elem_of_singleton.
    split.
    + intros [[E | H] Hne]; [contradiction | exact H].
    + intros H. split; [right; exact H|]. intros E. apply Hid. rewrite <- E. exact H.
  - reflexivity.
  - reflexivity.
Qed.

Lemma hide_and_show_witness :
  ("hc05"%string ∉ hiddenDevices one_device ->
   getVisibleDevices (showDevice "hc05" (hideDevice "hc05" one_device))
   = getVisibleDevices one_device) /\
  getVisibleDevices (showDevice "hc05" (hideDevice "hc05" one_device))
  = getVisibleDevices one_device.
Proof.
  assert (Hid : "hc05"%string ∉ hiddenDevices one_device) by set_solver.
  destruct (hide_and_show "hc05" one_device) as (_ & _ & H & _).
  split; [exact H | exact (H Hid)].
Defined.

Lemma Math_round_whole x : exists z, Math_round x = IZR z.
Proof. unfold Math_round. eexists. reflexivity. Qed.

Lemma Math_round_between (lo hi : Z) x :
  IZR lo <= x <= IZR hi -> IZR lo <= Math_round x <= IZR hi.
Proof.
  intros [H1 H2]. split.
  - rewrite <- (Math_round_IZR lo). apply Math_round_mono, H1.
  - rewrite <- (Math_round_IZR hi). apply Math_round_mono, H2.
Qed.

(** X18.  The demo wave.  For a cycle position in [0, 1] the distance of the
    demo device is a whole number between 0 and 175; it is 0 at the start
    of the cycle and 175 in the middle, and the second half of the cycle
    mirrors the first. *)
Theorem demoDistance_triangle (p : R) :
  0 <= p <= 1 ->
  0 <= demoDistance p <= 175 /\
  (exists z, demoDistance p = IZR z) /\
  demoDistance 0 = 0 /\
  demoDistance (1 / 2) = 175 /\
  (p <= 1 / 2 -> demoDistance (1 - p) = demoDistance p).
Proof.
  intros Hp.
  assert (Hval : forall q, 0 <= q <= 1 ->
            0 <= demoDistance q <= 175 /\ exists z, demoDistance q = IZR z).
  { intros q Hq. unfold demoDistance. destruct (Rle_dec q (1 / 2)) as [H|H].
    - rewrite le_true by exact H.
      split; [apply (Math_round_between 0 175); lra | apply Math_round_whole].
    - rewrite le_false by lra.
      split; [apply (Math_round_between 0 175); lra | apply Math_round_whole]. }
  destruct (Hval p Hp) as [Hr Hz].
  split; [exact Hr|]. split; [exact Hz|].
  split; [|split].
  - unfold demoDistance. rewrite le_true by lra.
    replace (0 * 2 * 175) with (IZR 0) by (simpl; ring). apply Math_round_IZR.
  - unfold demoDistance. rewrite le_true by lra.
    replace (1 / 2 * 2 * 175) with (IZR 175) by (simpl; field). apply Math_round_IZR.
  - intros Hhalf. unfold demoDistance. rewrite (le_true p) by exact Hhalf.
    destruct (Rle_dec (1 - p) (1 / 2)) as [H|H].
    + rewrite le_true by exact H. f_equal. lra.
    + rewrite le_false by lra. f_equal. lra.
Qed.

Lemma demoDistance_triangle_witness :
  0 <= 1 / 4 <= 1 /\ 1 / 4 <= 1 / 2 /\
  0 <= demoDistance (1 / 4) <= 175 /\
  demoDistance (1 - 1 / 4) = demoDistance (1 / 4).
Proof.
  assert (Hp : 0 <= 1 / 4 <= 1) by lra.
  assert (Hh : 1 / 4 <= 1 / 2) by lra.
  destruct (demoDistance_triangle (1 / 4) Hp) as (Hr & _ & _ & _ & Hm).
  split; [exact Hp|]. split; [exact Hh|]. split; [exact Hr | exact (Hm Hh)].
Defined.

(** X19.  When the volume bounds of the application are whole numbers with
    [minVolume <= maxVolume], the volume computed for any distance is a
    whole number between [minVolume] and [maxVolume]; so is the volume of
    every demo tick. *)
Theorem app_volume_in_bounds (c : ProfessionalApp.Settings) (zmin zmax : Z) (d : R) :
  ProfessionalApp.minVolume c = IZR zmin ->
  ProfessionalApp.maxVolume c = IZR zmax ->
  ProfessionalApp.minVolume c <= ProfessionalApp.maxVolume c ->
  ProfessionalApp.minVolume c
  <= ProfessionalApp.calculateVolumeFromDistance c d
  <= ProfessionalApp.maxVolume c /\
  exists z, ProfessionalApp.calculateVolumeFromDistance c d = IZR z.
Proof.
  intros Emin Emax Hv.
  destruct (Rle_dec d (ProfessionalApp.minDistance c)) as [H1|H1].
  - rewrite app_volume_near by exact H1. split; [lra | eauto].
  - destruct (Rle_dec (ProfessionalApp.maxDistance c) d) as [H2|H2].
    + rewrite app_volume_far by lra. split; [lra | eauto].
    + rewrite app_volume_between by lra. split; [|apply Math_round_whole].
      rewrite Emin, Emax. apply app_rounded_between; [lra|].
      apply app_volumeRatio_range, app_normalized_range. lra.
Qed.

Lemma app_volume_in_bounds_witness :
  ProfessionalApp.minVolume ProfessionalApp.initial = IZR 5 /\
  ProfessionalApp.maxVolume ProfessionalApp.initial = IZR 100 /\
  ProfessionalApp.minVolume ProfessionalApp.initial
  <= ProfessionalApp.maxVolume ProfessionalApp.initial /\
  ProfessionalApp.minVolume ProfessionalApp.initial
  <= ProfessionalApp.calculateVolumeFromDistance ProfessionalApp.initial
       (demoDistance (1 / 4))
  <= ProfessionalApp.maxVolume ProfessionalApp.initial.
Proof.
  assert (Hv : ProfessionalApp.minVolume ProfessionalApp.initial
               <= ProfessionalApp.maxVolume ProfessionalApp.initial)
    by (simpl; lra).
  split; [reflexivity|]. split; [reflexivity|]. split; [exact Hv|].
  exact (proj1 (app_volume_in_bounds ProfessionalApp.initial 5%Z 100%Z
                  (demoDistance (1 / 4)) eq_refl eq_refl Hv)).
Defined.

End AppDevices.


(** ** Colours of the devices *)

Section AppColours.
Import JS App.

Lemma colors_nonempty (i : nat) : (i < 10)%nat -> nth i colors EmptyString <> EmptyString.
Proof.
  intros Hi. do 10 (destruct i as [|i]; [discriminate|]). lia.
Qed.

Lemma colors_NoDup : NoDup colors.
Proof.
  apply (bool_decide_unpack _). vm_compute. reflexivity.
Qed.

Lemma mod_10_lt (n : nat) : (n mod length colors < 10)%nat.
Proof. simpl length. apply Nat.mod_upper_bound. lia. Qed.

Lemma hasColor_insert (m : gmap string string) (id : string) (i : nat) :
  (i < 10)%nat -> hasColor (<[id := nth i colors EmptyString]> m) id = true.
Proof.
  intros Hi. unfold hasColor. rewrite lookup_insert_eq.
  apply negb_true_iff, bool_decide_eq_false, colors_nonempty, Hi.
Qed.

Lemma generateDeviceColor_new (id : string) (m : gmap string string) :
  hasColor m id = false ->
  fst (generateDeviceColor id m) = nth (size m mod 10) colors EmptyString /\
  snd (generateDeviceColor id m)
  = <[id := nth (size m mod 10) colors EmptyString]> m.
Proof.
  intros Hc. unfold generateDeviceColor. cbv zeta. rewrite Hc. cbn [fst snd].
  rewrite lookup_insert_eq. cbn [default].
  change (length colors) with 10%nat. split; reflexivity.
Qed.

(** X20.  A device keeps its colour: asking again for the colour of a device
    returns the same colour and leaves the table of colours as it is.  A
    device without a colour gets the palette entry at (number of coloured
    devices) modulo 10, and only its entry is added. *)
Theorem generateDeviceColor_stable (id : string) (m : gmap string string) :
  let r := generateDeviceColor id m in
  generateDeviceColor id (snd r) = r /\
  (hasColor m id = true -> snd r = m /\ m !! id = Some (fst r)) /\
  (hasColor m id = false ->
   fst r = nth (size m mod 10) colors EmptyString /\
   fst r ∈ colors /\
   snd r = <[id := fst r]> m).
Proof.
  intros r. unfold r, generateDeviceColor. cbv zeta.
  destruct (hasColor m id) eqn:Hc; cbn [fst snd].
  - rewrite Hc. split; [reflexivity|]. split; [|discriminate].
    intros _. split; [reflexivity|].
    unfold hasColor in Hc. destruct (m !! id); [reflexivity | discriminate].
  - rewrite hasColor_insert by apply mod_10_lt.
    rewrite lookup_insert_eq. cbn [default]. change (length colors) with 10%nat.
    split; [reflexivity|]. split; [discriminate|].
    intros _. split; [reflexivity|]. split; [|reflexivity].
    apply list_elem_of_In, nth_In. change (length colors) with 10%nat.
    apply Nat.mod_upper_bound. lia.
Qed.

Lemma generateDeviceColor_stable_witness :
  hasColor ∅ "hc05" = false /\
  fst (generateDeviceColor "hc05" ∅) = nth (size (∅ : gmap string string) mod 10) colors EmptyString /\
  generateDeviceColor "hc05" (snd (generateDeviceColor "hc05" ∅))
  = generateDeviceColor "hc05" ∅.
Proof.
  destruct (generateDeviceColor_stable "hc05" ∅) as (Hs & _ & Hn).
  split; [reflexivity|]. split; [exact (proj1 (Hn eq_refl)) | exact Hs].
Defined.

Lemma colorAll_snoc (l : list string) (x : string) (m : gmap string string) :
  colorAll (l ++ [x]) m = snd (generateDeviceColor x (colorAll l m)).
Proof. unfold colorAll. rewrite foldl_app. reflexivity. Qed.

Lemma colorAll_fresh (l : list string) :
  NoDup l ->
  size (colorAll l ∅) = length l /\
  (forall i id, l !! i = Some id ->
                colorAll l ∅ !! id = Some (nth (i mod 10) colors EmptyString)) /\
  (forall id, id ∉ l -> colorAll l ∅ !! id = None).
Proof.
  induction l as [|x l IH] using rev_ind; intros Hnd.
  - split; [reflexivity|]. split; [intros i id H; discriminate|].
    intros id _. apply lookup_empty.
  - apply NoDup_app in Hnd as (Hl & Hx & _).
    destruct (IH Hl) as (Hsize & Hlook & Hnone).
    assert (Hxl : x ∉ l) by (intros H; apply (Hx x H); apply list_elem_of_here).
    rewrite colorAll_snoc.
    assert (Hc : hasColor (colorAll l ∅) x = false)
      by (unfold hasColor; rewrite (Hnone x Hxl); reflexivity).
    destruct (generateDeviceColor_new x (colorAll l ∅) Hc) as (_ & Hsnd).
    rewrite Hsnd, Hsize.
    split; [|split].
    + rewrite map_size_insert_None by (apply Hnone, Hxl).
      rewrite Hsize, length_app. simpl. lia.
    + intros i id Hi. destruct (decide (i < length l)%nat) as [Hlt|Hge].
      * rewrite lookup_app_l in Hi by exact Hlt.
        rewrite lookup_insert_ne; [apply Hlook, Hi|].
        intros E. apply Hxl. rewrite E. apply (list_elem_of_lookup_2 _ _ _ Hi).
      * rewrite lookup_app_r in Hi by lia.
        destruct (i - length l)%nat as [|k] eqn:Ek; [|destruct k; discriminate].
        injection Hi as <-. rewrite lookup_insert_eq.
        replace i with (length l) by lia. reflexivity.
    + intros id Hid. rewrite lookup_insert_ne.
      * apply Hnone. intros H. apply Hid. apply elem_of_app. left; exact H.
      * intros E. apply Hid. rewrite <- E. apply elem_of_app. right.
        apply list_elem_of_here.
Qed.

(** X21.  Colours go round the palette.  When different devices ask for a
    colour one after the other, starting with no colour given, the device
    at position [i] gets palette entry [i mod 10]; the first ten devices get
    ten different colours, and the eleventh gets the colour of the
    first. *)
Theorem colours_go_round (ids : list string) :
  NoDup ids ->
  (forall i id, ids !! i = Some id ->
                colorAll ids ∅ !! id = Some (nth (i mod 10) colors EmptyString)) /\
  (forall i j a b, (i < 10)%nat -> (j < 10)%nat -> i <> j ->
                   ids !! i = Some a -> ids !! j = Some b ->
                   colorAll ids ∅ !! a <> colorAll ids ∅ !! b) /\
  (forall a b, ids !! 0%nat = Some a -> ids !! 10%nat = Some b ->
               colorAll ids ∅ !! a = colorAll ids ∅ !! b).
Proof.
  intros Hnd. destruct (colorAll_fresh ids Hnd) as (_ & Hlook & _).
  split; [exact Hlook|]. split.
  - intros i j a b Hi Hj Hne Ha Hb.
    rewrite (Hlook i a Ha), (Hlook j b Hb).
    rewrite !Nat.mod_small by lia.
    intros E. injection E as E. apply Hne.
    apply (proj1 (NoDup_nth colors EmptyString) (proj1 (NoDup_ListNoDup _) colors_NoDup));
      simpl; try lia; exact E.
  - intros a b Ha Hb. rewrite (Hlook _ a Ha), (Hlook _ b Hb). reflexivity.
Qed.

Lemma colours_go_round_witness :
  NoDup [ "a"; "b" ]%string /\
  colorAll [ "a"; "b" ]%string ∅ !! "b"%string
  = Some (nth (1 mod 10) colors EmptyString).
Proof.
  assert (Hnd : NoDup [ "a"; "b" ]%string).
  { apply (bool_decide_unpack _). vm_compute. reflexivity. }
  split; [exact Hnd|].
  exact (proj1 (colours_go_round _ Hnd) 1%nat "b"%string eq_refl).
Defined.

End AppColours.

(** ** Chart rows of the application *)

Section AppCharts.
Import JS App.






End AppCharts.

(** ** The service of [AudioSynthesisService.ts] *)

Section BasicVolume.
Import JS Basic BasicService.

Lemma basic_volume_nonneg st d : 0 <= calculateVolumeFromDistance st d.
Proof.
  unfold calculateVolumeFromDistance.
  pose proof (Math_max_lb_l 0
    (100 - Math_max (minDistance st) (Math_min (maxDistance st) d)
           / maxDistance st * 100)).
  lra.
Qed.

Lemma basic_volume_eq st d :
  0 < maxDistance st -> minDistance st <= maxDistance st ->
  calculateVolumeFromDistance st d
  = 1 - Math_max (minDistance st) (Math_min (maxDistance st) d) / maxDistance st.
Proof.
  intros Hpos Hle. unfold calculateVolumeFromDistance.
  destruct (clamp_bounds (minDistance st) (maxDistance st) d Hle) as [_ Hhi].
  set (c := Math_max (minDistance st) (Math_min (maxDistance st) d)) in *.
  assert (Hq : c / maxDistance st <= 1).
  { apply (Rmult_le_reg_r (maxDistance st)); [exact Hpos|].
    unfold Rdiv. rewrite Rmult_assoc, Rinv_l by lra. lra. }
  rewrite Math_max_right by lra. lra.
Qed.

(** X23.  With a range [0 < maxDistance], [minDistance <= maxDistance], the
    volume of the basic service falls as the distance grows, never exceeds
    [1 - minDistance / maxDistance] (the value it has at and below
    [minDistance]), and is zero exactly from [maxDistance] on, or everywhere
    when the two ends of the range coincide. *)
Theorem basic_volume_shape st d d' :
  0 < maxDistance st -> minDistance st <= maxDistance st ->
  (d <= d' -> calculateVolumeFromDistance st d' <= calculateVolumeFromDistance st d) /\
  (calculateVolumeFromDistance st d = 0
   <-> maxDistance st <= d \/ minDistance st = maxDistance st) /\
  calculateVolumeFromDistance st d <= 1 - minDistance st / maxDistance st /\
  (d <= minDistance st ->
   calculateVolumeFromDistance st d = 1 - minDistance st / maxDistance st).
Proof.
  intros Hpos Hle.
  rewrite !(basic_volume_eq st) by assumption.
  assert (Hinv : 0 < / maxDistance st) by (apply Rinv_0_lt_compat; exact Hpos).
  assert (Hdiv : forall a b, a <= b -> a / maxDistance st <= b / maxDistance st).
  { intros a b Hab. unfold Rdiv. apply Rmult_le_compat_r; lra. }
  assert (Hone : maxDistance st / maxDistance st = 1) by (field; lra).
  split; [|split; [|split]].
  - intros Hdd.
    pose proof (Hdiv _ _ (clamp_mono (minDistance st) (maxDistance st) d d' Hdd)).
    lra.
  - split.
    + intros H0.
      destruct (Rle_dec (maxDistance st) d) as [Hd | Hd]; [left; exact Hd |].
      apply Rnot_le_lt in Hd.
      destruct (Rle_lt_or_eq_dec _ _ Hle) as [Hlt | Heq]; [exfalso | right; exact Heq].
      assert (Hc : Math_max (minDistance st) (Math_min (maxDistance st) d)
                   < maxDistance st).
      { rewrite (Math_min_right (maxDistance st) d) by lra.
        unfold Math_max. apply Rmax_lub_lt; assumption. }
      set (c := Math_max _ _) in *.
      assert (c / maxDistance st < 1).
      { rewrite <- Hone. unfold Rdiv. apply Rmult_lt_compat_r; lra. }
      lra.
    + intros [Hd | Heq].
      * rewrite (Math_min_left (maxDistance st) d) by exact Hd.
        rewrite Math_max_right by exact Hle. lra.
      * rewrite Math_max_left by (rewrite Heq; apply Math_min_ub_l).
        rewrite Heq. lra.
  - pose proof (Hdiv _ _ (Math_max_lb_l (minDistance st)
                            (Math_min (maxDistance st) d))).
    lra.
  - intros Hd. rewrite (Math_min_right (maxDistance st) d) by lra.
    rewrite Math_max_left by exact Hd. reflexivity.
Qed.

Lemma basic_volume_shape_witness :
  let st := {| maxDistance := 200; minDistance := 50;
               globalVolume := 7 / 10; enabled := true |} in
  calculateVolumeFromDistance st 10 = 1 - 50 / 200 /\
  (calculateVolumeFromDistance st 120 = 0 <-> 200 <= 120 \/ 50 = 200).
Proof.
  intros st.
  assert (Hpos : 0 < maxDistance st) by (simpl; lra).
  assert (Hle : minDistance st <= maxDistance st) by (simpl; lra).
  destruct (basic_volume_shape st 10 120 Hpos Hle) as (_ & _ & _ & Hlow).
  destruct (basic_volume_shape st 120 120 Hpos Hle) as (_ & Hzero & _ & _).
  split; [apply Hlow; simpl; lra | exact Hzero].
Defined.

(** X24.  The range is stored as given: with a negative [minDistance] and a
    positive [maxDistance], a distance at or below [minDistance] gives a
    volume above 1, hence a track level above 0 dB. *)
Theorem basic_volume_above_one st d track :
  minDistance st < 0 -> 0 < maxDistance st -> d <= minDistance st ->
  currentVolume track = calculateVolumeFromDistance st d ->
  1 < calculateVolumeFromDistance st d /\
  exists level,
    volume_dB (updateTrackVolume track) = Some level /\ 0 < level.
Proof.
  intros Hneg Hpos Hd Hcur.
  assert (Hv : 1 < calculateVolumeFromDistance st d).
  { rewrite basic_volume_eq by lra.
    rewrite (Math_min_right (maxDistance st) d) by lra.
    rewrite Math_max_left by exact Hd.
    assert (minDistance st / maxDistance st < 0).
    { pose proof (Rinv_0_lt_compat _ Hpos). unfold Rdiv. nra. }
    lra. }
  split; [exact Hv|].
  unfold updateTrackVolume. cbn [volume_dB].
  rewrite le_false by lra.
  eexists. split; [reflexivity | lra].
Qed.

Lemma basic_volume_above_one_witness :
  let st := {| maxDistance := 50; minDistance := - 100;
               globalVolume := 7 / 10; enabled := true |} in
  1 < calculateVolumeFromDistance st (- 100).
Proof.
  intros st.
  apply (basic_volume_above_one st (- 100)
           {| sensorId := "A1"; sensorName := "Sensor A"; audioType := bass;
              noteHeld := false; volume_dB := None; currentDistance := - 100;
              currentVolume := calculateVolumeFromDistance st (- 100);
              isPlaying := false |});
    simpl; try lra; reflexivity.
Defined.

End BasicVolume.

Section BasicServiceRuns.
Import JS Basic BasicService.

Lemma updateTrack_OK s d id t :
  TrackOK s id t -> TrackOK s id (updateTrack s d t).
Proof.
  unfold TrackOK, updateTrack, updateTrackVolume, startTrackAudio, stopTrackAudio.
  intros (Hid & Hv & Hdb & Hnh & Hpl).
  pose proof (basic_volume_nonneg (settings s) d) as Hnv.
  set (nv := calculateVolumeFromDistance (settings s) d) in *.
  destruct t as [tid tname tty held db dist cv pl]. simpl in *.
  unfold strict_eq, gt, le in *.
  destruct (Req_dec_T nv cv) as [E1 | E1]; [subst cv|];
    destruct (enabled (settings s));
    destruct (Rlt_dec 0 nv) as [E3 | E3];
    destruct pl; destruct (isInitialized s);
    destruct (Req_dec_T nv 0) as [E6 | E6]; simpl;
    try (specialize (Hpl eq_refl); destruct Hpl as (? & ? & ?));
    try discriminate; try lra;
    repeat split; try assumption; try reflexivity; try lra;
    try (intros; discriminate);
    try (destruct (Rle_dec nv 0); [exfalso; lra | reflexivity]);
    try (destruct (Rle_dec nv 0); [reflexivity | exfalso; lra]).
Qed.

Lemma setEnabled_track_OK s b id t :
  TrackOK s id t ->
  TrackOK (setEnabled b s) id
    (if negb b then if isPlaying t then stopTrackAudio t else t
     else if gt (currentVolume t) 0 then startTrackAudio (isInitialized s) t else t).
Proof.
  unfold TrackOK, startTrackAudio, stopTrackAudio.
  intros (Hid & Hv & Hdb & Hnh & Hpl).
  destruct t as [tid tname tty held db dist cv pl]. simpl in *.
  unfold gt.
  destruct b; destruct (Rlt_dec 0 cv); destruct pl; destruct (isInitialized s);
    simpl;
    try (specialize (Hpl eq_refl); destruct Hpl as (? & ? & ?));
    try discriminate;
    repeat split; try assumption; try reflexivity; try lra;
    try (intros; discriminate).
Qed.

Lemma TrackOK_settings s s' id t :
  enabled (settings s') = enabled (settings s) ->
  isInitialized s' = isInitialized s ->
  TrackOK s id t -> TrackOK s' id t.
Proof.
  unfold TrackOK. intros He Hi (Hid & Hv & Hdb & Hnh & Hpl).
  rewrite He, Hi. repeat split; try assumption; apply Hpl; assumption.
Qed.

Lemma Step_WellFormed_basic s s' :
  BasicService.Step s s' -> BasicService.WellFormed s -> BasicService.WellFormed s'.
Proof.
  unfold BasicService.WellFormed.
  intros Hstep Hwf. destruct Hstep.
  - intros k t Hk. simpl in Hk. specialize (Hwf k t Hk).
    destruct Hwf as (Hid & Hv & Hdb & Hnh & Hpl).
    repeat split; try assumption; try (apply Hpl; assumption).
  - unfold createAudioTrack.
    destruct (audioTracks s !! id) eqn:E; simpl; [exact Hwf|].
    apply map_Forall_insert_2.
    + repeat split; simpl; try reflexivity; try lra.
      * rewrite le_true by lra. reflexivity.
      * discriminate.
      * discriminate.
      * discriminate.
    + exact Hwf.
  - unfold updateSensorDistance.
    destruct (audioTracks s !! id) eqn:E; [|exact Hwf]. simpl.
    apply map_Forall_insert_2.
    + apply (TrackOK_settings s); [reflexivity | reflexivity |].
      apply updateTrack_OK. exact (Hwf id a E).
    + intros k t Hk. apply (TrackOK_settings s); [reflexivity | reflexivity |].
      exact (Hwf k t Hk).
  - intros k t Hk. unfold setEnabled in Hk. cbn [audioTracks] in Hk.
    rewrite lookup_fmap in Hk.
    destruct (audioTracks s !! k) as [t0|] eqn:E; simpl in Hk; [|discriminate].
    injection Hk as <-. apply setEnabled_track_OK. exact (Hwf k t0 E).
  - intros k t Hk. simpl in Hk.
    apply (TrackOK_settings s); [reflexivity | reflexivity |]. exact (Hwf k t Hk).
  - intros k t Hk. unfold setDistanceRange, with_audioTracks in Hk.
    cbn [audioTracks] in Hk. rewrite lookup_fmap in Hk.
    destruct (audioTracks s !! k) as [t0|] eqn:E; simpl in Hk; [|discriminate].
    injection Hk as <-.
    apply (TrackOK_settings
             {| audioTracks := audioTracks s; masterVolume_dB := masterVolume_dB s;
                isInitialized := isInitialized s;
                settings :=
                  {| maxDistance := b; minDistance := a;
                     globalVolume := globalVolume (settings s);
                     enabled := enabled (settings s) |} |});
      [reflexivity | reflexivity |].
    apply updateTrack_OK.
    apply (TrackOK_settings s); [reflexivity | reflexivity |]. exact (Hwf k t0 E).
  - unfold removeAudioTrack.
    destruct (audioTracks s !! id) eqn:E; [|exact Hwf]. simpl.
    intros k t Hk. apply (TrackOK_settings s); [reflexivity | reflexivity |].
    apply (Hwf k t). apply lookup_delete_Some in Hk. tauto.
  - simpl. apply map_Forall_empty.
Qed.

Lemma Runs_WellFormed_basic s :
  BasicService.Runs s -> BasicService.WellFormed s.
Proof.
  induction 1 as [i | s s' _ IH Hstep].
  - unfold BasicService.WellFormed. simpl. apply map_Forall_empty.
  - exact (Step_WellFormed_basic s s' Hstep IH).
Qed.

Lemma example_Runs : BasicService.Runs example.
Proof.
  unfold example.
  eapply BasicService.Runs_step; [|apply BasicService.Step_update].
  eapply BasicService.Runs_step; [|apply BasicService.Step_enable].
  eapply BasicService.Runs_step; [|apply BasicService.Step_create].
  apply BasicService.Runs_new.
Qed.

End BasicServiceRuns.

Section BasicServiceFacts.
Import JS Basic BasicService BasicProperRuns.

Lemma BasicProperRuns_Runs s : ProperRuns s -> BasicService.Runs s.
Proof.
  induction 1 as [i | s s' _ IH Hstep _].
  - apply BasicService.Runs_new.
  - exact (BasicService.Runs_step s s' IH Hstep).
Qed.

Lemma example_volume :
  calculateVolumeFromDistance
    {| maxDistance := 200; minDistance := 0; globalVolume := 7 / 10;
       enabled := true |} 50 = 3 / 4.
Proof.
  unfold calculateVolumeFromDistance. simpl.
  rewrite (Math_min_right 200 50) by lra.
  rewrite (Math_max_right 0 50) by lra.
  rewrite Math_max_right by lra. lra.
Qed.

Lemma createAudioTrack_settings id name s :
  settings (snd (createAudioTrack id name s)) = settings s.
Proof.
  unfold createAudioTrack. destruct (audioTracks s !! id); reflexivity.
Qed.

Lemma updateSensorDistance_settings id d s :
  settings (updateSensorDistance id d s) = settings s.
Proof.
  unfold updateSensorDistance. destruct (audioTracks s !! id); reflexivity.
Qed.

Lemma example_ProperRuns : ProperRuns example.
Proof.
  unfold example.
  eapply ProperRuns_step; [|apply BasicService.Step_update|].
  - eapply ProperRuns_step; [|apply BasicService.Step_enable|].
    + eapply ProperRuns_step; [|apply BasicService.Step_create|].
      * apply ProperRuns_new.
      * rewrite createAudioTrack_settings. simpl. lra.
    + cbn [setEnabled settings maxDistance].
      rewrite createAudioTrack_settings. simpl. lra.
  - rewrite updateSensorDistance_settings. cbn [setEnabled settings maxDistance].
    rewrite createAudioTrack_settings. simpl. lra.
Qed.

Lemma example_lookup :
  exists t, audioTracks example !! "A1" = Some t /\ isPlaying t = true /\
            currentVolume t = 3 / 4.
Proof.
  unfold example, updateSensorDistance.
  set (s1 := setEnabled true _).
  assert (E : exists t1, audioTracks s1 !! "A1" = Some t1 /\
                         isPlaying t1 = false /\ currentVolume t1 = 0).
  { unfold s1, setEnabled, createAudioTrack. cbn [new audioTracks].
    rewrite lookup_empty. cbn [snd with_audioTracks audioTracks].
    rewrite lookup_fmap, lookup_insert_eq. cbn [fmap option_fmap option_map].
    cbn [negb currentVolume]. rewrite gt_false by lra.
    eexists. split; [reflexivity|]. split; reflexivity. }
  destruct E as (t1 & E1 & Hp & Hv). rewrite E1.
  cbn [with_audioTracks audioTracks]. rewrite lookup_insert_eq.
  eexists. split; [reflexivity|].
  assert (Hs : settings s1 = {| maxDistance := 200; minDistance := 0;
                                globalVolume := 7 / 10; enabled := true |})
    by reflexivity.
  assert (Hi : isInitialized s1 = true) by reflexivity.
  unfold updateTrack. rewrite Hs, Hi, example_volume. cbn [enabled].
  destruct t1 as [tid tname tty held db dist cv pl]. simpl in Hp, Hv. subst.
  cbn [currentVolume isPlaying].
  rewrite strict_eq_false by lra.
  unfold updateTrackVolume. cbn [currentVolume isPlaying].
  rewrite gt_true by lra. cbn [negb andb].
  unfold startTrackAudio. cbn [negb orb isPlaying currentVolume].
  split; reflexivity.
Qed.

(** X25.  In the basic service nothing sounds unless synthesis is enabled and
    the audio context has been started: in every state of a run whose
    maximal distance is never zero, a playing track holds its note, has a
    positive volume, and the service is enabled and initialized. *)
Theorem basic_sound_only_when_enabled s id t :
  ProperRuns s -> audioTracks s !! id = Some t -> isPlaying t = true ->
  enabled (settings s) = true /\ isInitialized s = true /\
  noteHeld t = true /\ 0 < currentVolume t.
Proof.
  intros Hruns Hlook Hplay.
  destruct (Runs_WellFormed_basic s (BasicProperRuns_Runs s Hruns) id t Hlook)
    as (_ & _ & _ & Hnh & Hpl).
  destruct (Hpl Hplay) as (He & Hi & Hv).
  rewrite Hnh, Hplay. repeat split; assumption.
Qed.

Lemma basic_sound_only_when_enabled_witness :
  exists t, audioTracks example !! "A1" = Some t /\
            enabled (settings example) = true /\ 0 < currentVolume t.
Proof.
  destruct example_lookup as (t & Hlook & Hplay & _).
  exists t. split; [exact Hlook|].
  destruct (basic_sound_only_when_enabled example "A1" t example_ProperRuns Hlook Hplay)
    as (He & _ & _ & Hv).
  split; [exact He | exact Hv].
Defined.

(** X26.  In every state of a run whose maximal distance is never zero, a
    track is registered under its own sensor
    id and its level follows its volume: it is muted exactly when the volume
    is zero, and otherwise stands at [-60 + 60 * volume] dB, above -60 dB. *)
Theorem basic_level_follows_volume s id t :
  ProperRuns s -> audioTracks s !! id = Some t ->
  sensorId t = id /\
  (volume_dB t = None <-> currentVolume t = 0) /\
  (forall level, volume_dB t = Some level ->
                 level = - 60 + currentVolume t * 60 /\ - 60 < level).
Proof.
  intros Hruns Hlook.
  destruct (Runs_WellFormed_basic s (BasicProperRuns_Runs s Hruns) id t Hlook)
    as (Hid & Hv & Hdb & _ & _).
  split; [exact Hid|].
  unfold le in Hdb. rewrite Hdb.
  destruct (Rle_dec (currentVolume t) 0) as [H0 | H0].
  - split.
    + split; [intros _; lra | reflexivity].
    + intros level H. discriminate.
  - apply Rnot_le_lt in H0. split.
    + split; [discriminate | intros; lra].
    + intros level H. injection H as <-. split; [reflexivity | lra].
Qed.

Lemma basic_level_follows_volume_witness :
  exists t, audioTracks example !! "A1" = Some t /\ sensorId t = "A1" /\
            (volume_dB t = None <-> currentVolume t = 0).
Proof.
  destruct example_lookup as (t & Hlook & _ & _).
  exists t. split; [exact Hlook|].
  destruct (basic_level_follows_volume example "A1" t example_ProperRuns Hlook)
    as (Hid & Hmute & _).
  split; [exact Hid | exact Hmute].
Defined.

(** X27.  After [setEnabled b] in a run whose maximal distance is never
    zero, a track is playing exactly when [b]
    is true, the audio context has been started and the track's volume is
    positive; so [setEnabled false] silences every track. *)
Theorem setEnabled_playing s b id t :
  ProperRuns s -> audioTracks (setEnabled b s) !! id = Some t ->
  (isPlaying t = true
   <-> b = true /\ isInitialized s = true /\ 0 < currentVolume t).
Proof.
  intros Hruns Hlook.
  unfold setEnabled in Hlook. cbn [audioTracks] in Hlook.
  rewrite lookup_fmap in Hlook.
  destruct (audioTracks s !! id) as [t0|] eqn:E; simpl in Hlook; [|discriminate].
  injection Hlook as <-.
  destruct (Runs_WellFormed_basic s (BasicProperRuns_Runs s Hruns) id t0 E)
    as (_ & Hv & _ & _ & Hpl).
  unfold startTrackAudio, stopTrackAudio, gt.
  destruct t0 as [tid tname tty held db dist cv pl]. simpl in *.
  destruct b; destruct (Rlt_dec 0 cv); destruct pl; destruct (isInitialized s);
    simpl;
    try (specialize (Hpl eq_refl); destruct Hpl as (? & ? & ?));
    try discriminate;
    (split; [intros Hq; try discriminate; repeat split; try reflexivity; lra
            | intros (Hq1 & Hq2 & Hq3); try discriminate; try reflexivity; lra]).
Qed.

Lemma setEnabled_playing_witness :
  exists t,
    audioTracks (setEnabled false example) !! "A1" = Some t /\
    (isPlaying t = true
     <-> false = true /\ isInitialized example = true /\ 0 < currentVolume t).
Proof.
  destruct example_lookup as (t0 & Hlook & _ & _).
  assert (Hoff : audioTracks (setEnabled false example) !! "A1"
                 = Some (if isPlaying t0 then stopTrackAudio t0 else t0)).
  { unfold setEnabled. cbn [audioTracks]. rewrite lookup_fmap, Hlook. reflexivity. }
  eexists. split; [exact Hoff|].
  exact (setEnabled_playing example false "A1" _ example_ProperRuns Hoff).
Defined.

(** X28.  With a maximal distance other than zero,
    [updateSensorDistance] on a registered sensor stores the distance
    and the volume computed from it.  With synthesis disabled it leaves the
    playing state alone; with synthesis enabled and the audio context
    started, the track plays afterwards exactly when that volume is
    positive. *)
Theorem basic_update_playing s id d t :
  maxDistance (settings s) <> 0 ->
  audioTracks s !! id = Some t ->
  exists t',
    audioTracks (updateSensorDistance id d s) !! id = Some t' /\
    currentDistance t' = d /\
    currentVolume t' = calculateVolumeFromDistance (settings s) d /\
    (enabled (settings s) = false -> isPlaying t' = isPlaying t) /\
    (enabled (settings s) = true -> isInitialized s = true ->
     (isPlaying t' = true <-> 0 < calculateVolumeFromDistance (settings s) d)).
Proof.
  intros _ Hlook. unfold updateSensorDistance. rewrite Hlook.
  cbn [with_audioTracks audioTracks]. rewrite lookup_insert_eq.
  eexists. split; [reflexivity|].
  unfold updateTrack, updateTrackVolume, startTrackAudio, stopTrackAudio.
  pose proof (basic_volume_nonneg (settings s) d) as Hnv.
  set (nv := calculateVolumeFromDistance (settings s) d) in *.
  destruct t as [tid tname tty held db dist cv pl]. simpl.
  unfold strict_eq, gt.
  destruct (Req_dec_T nv cv) as [E1 | E1]; [subst cv|];
    destruct (enabled (settings s));
    destruct (Rlt_dec 0 nv) as [E3 | E3];
    destruct pl; destruct (isInitialized s);
    destruct (Req_dec_T nv 0) as [E6 | E6]; simpl;
    try lra;
    (split; [reflexivity|]); (split; [reflexivity|]);
    (split; [intros H; try discriminate; reflexivity|]);
    intros H1 H2; try discriminate;
    (split; [intros H; try discriminate; lra
            | intros H; try reflexivity; lra]).
Qed.

Lemma example_maxDistance : maxDistance (settings example) = 200.
Proof.
  unfold example. rewrite updateSensorDistance_settings.
  cbn [setEnabled settings maxDistance].
  rewrite createAudioTrack_settings. reflexivity.
Qed.

Lemma basic_update_playing_witness :
  maxDistance (settings example) <> 0 /\
  exists t',
    audioTracks (updateSensorDistance "A1" 250 example) !! "A1" = Some t' /\
    currentDistance t' = 250.
Proof.
  assert (Hm : maxDistance (settings example) <> 0)
    by (rewrite example_maxDistance; lra).
  destruct example_lookup as (t & Hlook & _ & _).
  destruct (basic_update_playing example "A1" 250 t Hm Hlook)
    as (t' & Hlook' & Hd & _).
  split; [exact Hm|].
  exists t'. split; [exact Hlook' | exact Hd].
Defined.

(** X29.  [createAudioTrack] registers a sensor once: a second call for the
    same id, whatever the name, returns the track of the first call and
    changes nothing.  A newly made track is idle and muted, with volume zero,
    at the far end of the range. *)
Theorem createAudioTrack_once id name name' s :
  let r := createAudioTrack id name s in
  createAudioTrack id name' (snd r) = r /\
  audioTracks (snd r) !! id = Some (fst r) /\
  (audioTracks s !! id = None ->
   isPlaying (fst r) = false /\ volume_dB (fst r) = None /\
   currentVolume (fst r) = 0 /\
   currentDistance (fst r) = maxDistance (settings s)).
Proof.
  intros r.
  assert (Hlook : audioTracks (snd r) !! id = Some (fst r)).
  { unfold r, createAudioTrack.
    destruct (audioTracks s !! id) eqn:E; simpl; [exact E|].
    apply lookup_insert_eq. }
  split; [|split; [exact Hlook|]].
  - unfold createAudioTrack at 1. rewrite Hlook. destruct r; reflexivity.
  - intros Hnone. unfold r, createAudioTrack. rewrite Hnone. simpl.
    repeat split; reflexivity.
Qed.

Lemma createAudioTrack_once_witness :
  let r := createAudioTrack "B2" "Sensor B" (new true) in
  createAudioTrack "B2" "Another name" (snd r) = r /\
  isPlaying (fst r) = false.
Proof.
  intros r.
  destruct (createAudioTrack_once "B2" "Sensor B" "Another name" (new true))
    as (Hsame & _ & Hnew).
  split; [exact Hsame|].
  apply Hnew. simpl. apply lookup_empty.
Defined.

Lemma includes_first name c rest :
  includes name (String c rest) = true -> includes name (String c "") = true.
Proof.
  induction name as [|a name IH]; simpl.
  - intros H. exact H.
  - intros H. apply orb_true_iff in H. apply orb_true_iff.
    destruct H as [H | H].
    + left. destruct (Ascii.ascii_dec c a); [|discriminate].
      destruct name; reflexivity.
    + right. exact (IH H).
Qed.

(** X30.  The audio type chosen for a sensor: a name that contains the word
    Ambient contains the letter A and therefore gets the bass type; the
    ambient type is chosen only for a name with the letter D, or as the
    fourth type of the cycle. *)
Theorem getAudioTypeForSensor_by_name s id name :
  (includes name "Ambient" = true -> getAudioTypeForSensor s id name = bass) /\
  (getAudioTypeForSensor s id name = ambient ->
   includes name "D" = true \/ (size (audioTracks s) mod 5 = 3)%nat).
Proof.
  unfold getAudioTypeForSensor. split.
  - intros H. rewrite (includes_first name _ _ H). reflexivity.
  - change (length audioTypes) with 5%nat.
    set (k := (size (audioTracks s) mod 5)%nat).
    assert (Hlt : (k < 5)%nat) by (apply Nat.mod_upper_bound; lia).
    destruct (includes name "A") eqn:EA; cbn [orb]; [discriminate|].
    destruct (includes name "Bass"); [discriminate|].
    destruct (includes name "B" || includes name "Mid"); [discriminate|].
    destruct (includes name "C" || includes name "Treble"); [discriminate|].
    destruct (includes name "D") eqn:ED; cbn [orb]; [intros _; left; reflexivity|].
    destruct (includes name "Ambient") eqn:EAm.
    { rewrite (includes_first name _ _ EAm) in EA. discriminate. }
    intros H. right. fold k. clearbody k.
    destruct k as [|[|[|[|[|n]]]]];
      try reflexivity; try lia; unfold audioTypes in H; simpl in H; discriminate.
Qed.

Lemma getAudioTypeForSensor_by_name_witness :
  getAudioTypeForSensor (new true) "S4" "Ambient pad" = bass.
Proof.
  apply (getAudioTypeForSensor_by_name (new true) "S4" "Ambient pad").
  reflexivity.
Defined.

End BasicServiceFacts.
